(** * nano-limit: the limiter of [src/limit.ts], embedded and verified

    The closure returned by [createLimit] owns six variables ([queue],
    [activeCount], [idleResolvers], [tokens], [lastRefill],
    [refillTimeoutId]).  They are the first six fields of [Limiter] below.
    The remaining fields describe the objects the closure talks to: the
    [AbortSignal]s with their listener lists, the promises handed back to
    callers, the continuations of dispatched operations and the promises
    handed out by [onIdle].

    Every callback of the source runs to completion before the next one
    starts, so one callback is one transition of the machine.  A transition
    takes one argument for each time its callback reads [Date.now()]. *)

From stdpp Require Import base numbers option list sorting strings gmap.

Local Open Scope Z_scope.

(** ** Numbers that may be [Infinity] *)

Inductive num : Type :=
  | Fin (z : Z)
  | Inf.

(** [a < b] *)
Definition num_ltb (a b : num) : bool :=
  match a, b with
  | Fin x, Fin y => x <? y
  | Fin _, Inf => true
  | Inf, _ => false
  end.

(** [a <= b] *)
Definition num_leb (a b : num) : bool :=
  match a, b with
  | Fin x, Fin y => x <=? y
  | _, Inf => true
  | Inf, Fin _ => false
  end.

(** [Math.min(a, b)] *)
Definition num_min (a b : num) : num :=
  match a, b with
  | Fin x, Fin y => Fin (Z.min x y)
  | Fin x, Inf => Fin x
  | Inf, b => b
  end.

(** [a + b] *)
Definition num_add (a b : num) : num :=
  match a, b with
  | Fin x, Fin y => Fin (x + y)
  | _, _ => Inf
  end.

(** ** Data *)

(** The three error classes of the module, and whatever a wrapped function
    throws. *)
Inductive error : Type :=
  | AbortError
  | QueueClearedError
  | QueueFullError
  | FnError (e : Z).

(** The state a promise ends in; a promise absent from the store is pending. *)
Inductive Outcome : Type :=
  | Fulfilled (v : Z)
  | Rejected (e : error).

(** [LimitOptions] after the defaults of the destructuring have been filled
    in.  Times are integer milliseconds. *)
Record LimitOptions : Type := {
  concurrency : num;
  rate : option Z;
  interval : Z;
  maxQueueSize : num
}.

(** [QueuedOperation].  [opId] stands for the identity of the object (and of
    the promise whose [resolve]/[reject] it carries); [fn] is opaque and its
    result arrives with the completion.  [onAbort] is present exactly when
    [signal] is. *)
Record QueuedOperation : Type := {
  opId : nat;
  priority : Z;
  signal : option nat
}.

(** An [AbortSignal]: its [aborted] flag and the operations whose [onAbort]
    is registered on it, in registration order. *)
Record AbortSignal : Type := {
  aborted : bool;
  listeners : list nat
}.

(** The state of one limiter.  [idleResolvers] holds the promises of
    [onIdle] that wait; [refillTimeoutId] is [None] for [null].  Then the
    environment: the signals, the settled promises of [enqueue], the
    dispatched operations whose continuation has not run yet, the batches of
    [onIdle] promises resolved so far, and the next fresh promise of
    [enqueue] and of [onIdle]. *)
Record Limiter : Type := {
  queue : list QueuedOperation;
  activeCount : Z;
  idleResolvers : list nat;
  tokens : num;
  lastRefill : Z;
  refillTimeoutId : option Z;
  signals : gmap nat AbortSignal;
  promises : gmap nat Outcome;
  inflight : list QueuedOperation;
  idleResolved : list (list nat);
  nextOp : nat;
  nextIdle : nat
}.

Definition set_queue (q : list QueuedOperation) (s : Limiter) : Limiter :=
  {| queue := q; activeCount := activeCount s; idleResolvers := idleResolvers s;
     tokens := tokens s; lastRefill := lastRefill s;
     refillTimeoutId := refillTimeoutId s; signals := signals s;
     promises := promises s; inflight := inflight s;
     idleResolved := idleResolved s; nextOp := nextOp s; nextIdle := nextIdle s |}.

Definition set_activeCount (a : Z) (s : Limiter) : Limiter :=
  {| queue := queue s; activeCount := a; idleResolvers := idleResolvers s;
     tokens := tokens s; lastRefill := lastRefill s;
     refillTimeoutId := refillTimeoutId s; signals := signals s;
     promises := promises s; inflight := inflight s;
     idleResolved := idleResolved s; nextOp := nextOp s; nextIdle := nextIdle s |}.

Definition set_idle (w : list nat) (r : list (list nat)) (n : nat) (s : Limiter) : Limiter :=
  {| queue := queue s; activeCount := activeCount s; idleResolvers := w;
     tokens := tokens s; lastRefill := lastRefill s;
     refillTimeoutId := refillTimeoutId s; signals := signals s;
     promises := promises s; inflight := inflight s;
     idleResolved := r; nextOp := nextOp s; nextIdle := n |}.

Definition set_bucket (t : num) (l : Z) (s : Limiter) : Limiter :=
  {| queue := queue s; activeCount := activeCount s; idleResolvers := idleResolvers s;
     tokens := t; lastRefill := l;
     refillTimeoutId := refillTimeoutId s; signals := signals s;
     promises := promises s; inflight := inflight s;
     idleResolved := idleResolved s; nextOp := nextOp s; nextIdle := nextIdle s |}.

Definition set_refillTimeoutId (t : option Z) (s : Limiter) : Limiter :=
  {| queue := queue s; activeCount := activeCount s; idleResolvers := idleResolvers s;
     tokens := tokens s; lastRefill := lastRefill s;
     refillTimeoutId := t; signals := signals s;
     promises := promises s; inflight := inflight s;
     idleResolved := idleResolved s; nextOp := nextOp s; nextIdle := nextIdle s |}.

Definition set_signals (g : gmap nat AbortSignal) (s : Limiter) : Limiter :=
  {| queue := queue s; activeCount := activeCount s; idleResolvers := idleResolvers s;
     tokens := tokens s; lastRefill := lastRefill s;
     refillTimeoutId := refillTimeoutId s; signals := g;
     promises := promises s; inflight := inflight s;
     idleResolved := idleResolved s; nextOp := nextOp s; nextIdle := nextIdle s |}.

Definition set_promises (p : gmap nat Outcome) (s : Limiter) : Limiter :=
  {| queue := queue s; activeCount := activeCount s; idleResolvers := idleResolvers s;
     tokens := tokens s; lastRefill := lastRefill s;
     refillTimeoutId := refillTimeoutId s; signals := signals s;
     promises := p; inflight := inflight s;
     idleResolved := idleResolved s; nextOp := nextOp s; nextIdle := nextIdle s |}.

Definition set_inflight (r : list QueuedOperation) (s : Limiter) : Limiter :=
  {| queue := queue s; activeCount := activeCount s; idleResolvers := idleResolvers s;
     tokens := tokens s; lastRefill := lastRefill s;
     refillTimeoutId := refillTimeoutId s; signals := signals s;
     promises := promises s; inflight := r;
     idleResolved := idleResolved s; nextOp := nextOp s; nextIdle := nextIdle s |}.

Definition set_nextOp (n : nat) (s : Limiter) : Limiter :=
  {| queue := queue s; activeCount := activeCount s; idleResolvers := idleResolvers s;
     tokens := tokens s; lastRefill := lastRefill s;
     refillTimeoutId := refillTimeoutId s; signals := signals s;
     promises := promises s; inflight := inflight s;
     idleResolved := idleResolved s; nextOp := n; nextIdle := nextIdle s |}.

(** ** The signals and the promises *)

(** A signal nobody has touched yet is not aborted and has no listener. *)
Definition new_signal : AbortSignal := {| aborted := false; listeners := [] |}.

Definition signal_of (s : Limiter) (g : nat) : AbortSignal :=
  default new_signal (signals s !! g).

(** [op.signal?.aborted] *)
Definition signal_aborted (sg : option nat) (s : Limiter) : bool :=
  match sg with
  | Some g => aborted (signal_of s g)
  | None => false
  end.

(** [signal.addEventListener("abort", op.onAbort, { once: true })] *)
Definition addEventListener (g id : nat) (s : Limiter) : Limiter :=
  let sg := signal_of s g in
  set_signals (<[g := {| aborted := aborted sg; listeners := listeners sg ++ [id] |}]> (signals s)) s.

(** [if (op.onAbort && op.signal) op.signal.removeEventListener("abort", op.onAbort)] *)
Definition removeEventListener (op : QueuedOperation) (s : Limiter) : Limiter :=
  match signal op with
  | Some g =>
      let sg := signal_of s g in
      set_signals (<[g := {| aborted := aborted sg;
                             listeners := filter (λ i, i ≠ opId op) (listeners sg) |}]> (signals s)) s
  | None => s
  end.

(** [resolve]/[reject] of promise [p]: the first call settles it, later calls
    are ignored. *)
Definition settle (p : nat) (o : Outcome) (s : Limiter) : Limiter :=
  match promises s !! p with
  | Some _ => s
  | None => set_promises (<[p := o]> (promises s)) s
  end.

(** ** The token bucket *)

Definition refillTokens (cfg : LimitOptions) (now : Z) (s : Limiter) : Limiter :=
  match rate cfg with
  | None => s
  | Some r =>
      let elapsed := now - lastRefill s in
      if interval cfg <=? elapsed then
        let periods := elapsed / interval cfg in
        set_bucket (num_min (Fin r) (num_add (tokens s) (Fin (r * periods))))
                   (lastRefill s + periods * interval cfg) s
      else s
  end.

(** The handle of the pending timeout carries the delay it was armed with. *)
Definition scheduleRefill (cfg : LimitOptions) (now : Z) (s : Limiter) : Limiter :=
  match rate cfg, refillTimeoutId s with
  | None, _ | _, Some _ => s
  | Some _, None =>
      match queue s with
      | [] => s
      | _ :: _ =>
          let timeSinceLastRefill := now - lastRefill s in
          let timeUntilRefill := Z.max 0 (interval cfg - timeSinceLastRefill) in
          set_refillTimeoutId (Some timeUntilRefill) s
      end
  end.

(** ** Idle waiters *)

Definition checkIdle (s : Limiter) : Limiter :=
  if (activeCount s =? 0) && bool_decide (queue s = [])
     && negb (bool_decide (idleResolvers s = [])) then
    set_idle [] (idleResolved s ++ [idleResolvers s]) (nextIdle s) s
  else s.

(** ** The admission pass *)

(** [const op = queue.shift()!] with [rest] what remains, and the removal of
    its abort listener. *)
Definition shift (op : QueuedOperation) (rest : list QueuedOperation) (s : Limiter) : Limiter :=
  removeEventListener op (set_queue rest s).

(** [activeCount++], [tokens--] under rate limiting, and the promise chain
    that will run [op.fn()]. *)
Definition dispatch (cfg : LimitOptions) (op : QueuedOperation) (s : Limiter) : Limiter :=
  let s1 := set_activeCount (activeCount s + 1) s in
  let s2 := match rate cfg, tokens s1 with
            | Some _, Fin t => set_bucket (Fin (t - 1)) (lastRefill s1) s1
            | _, _ => s1
            end in
  set_inflight (inflight s2 ++ [op]) s2.

(** The condition of the [while] loop, but for [queue.length > 0]. *)
Definition has_capacity (cfg : LimitOptions) (s : Limiter) : bool :=
  num_ltb (Fin (activeCount s)) (concurrency cfg) && num_ltb (Fin 0) (tokens s).

(** The [while] loop of [processQueue]; [q] is the queue at the head of the
    iteration, and every iteration shifts it. *)
Fixpoint admission (cfg : LimitOptions) (q : list QueuedOperation) (s : Limiter) : Limiter :=
  match q with
  | [] => set_queue [] s
  | op :: rest =>
      if has_capacity cfg s then
        let s1 := shift op rest s in
        if signal_aborted (signal op) s1 then
          admission cfg rest (settle (opId op) (Rejected AbortError) s1)
        else admission cfg rest (dispatch cfg op s1)
      else set_queue q s
  end.

(** A pass reads the clock twice: [now] is what [Date.now()] returns in
    [refillTokens], [later] what it returns in [scheduleRefill]. *)
Definition processQueue (cfg : LimitOptions) (now later : Z) (s : Limiter) : Limiter :=
  let s1 := refillTokens cfg now s in
  let s2 := admission cfg (queue s1) s1 in
  let s3 := if negb (bool_decide (queue s2 = [])) && num_leb (tokens s2) (Fin 0)
            then scheduleRefill cfg later s2 else s2 in
  checkIdle s3.

(** ** Submission *)

(** The [for] loop of [enqueue] with its [splice]/[break], and the [push]
    that follows it when nothing was inserted. *)
Fixpoint insertByPriority (op : QueuedOperation) (q : list QueuedOperation) : list QueuedOperation :=
  match q with
  | [] => [op]
  | x :: rest =>
      if priority x <? priority op then op :: x :: rest
      else x :: insertByPriority op rest
  end.

(** [queue.indexOf(op)], by object identity. *)
Definition indexOf (id : nat) (q : list QueuedOperation) : option nat :=
  fst <$> list_find (λ o, opId o = id) q.

(** [op.onAbort] *)
Definition onAbort (id : nat) (s : Limiter) : Limiter :=
  match indexOf id (queue s) with
  | Some index => settle id (Rejected AbortError) (set_queue (delete index (queue s)) s)
  | None => s
  end.

(** [new Promise(...)]: the promise is [nextOp s]. *)
Definition newPromise (s : Limiter) : Limiter := set_nextOp (S (nextOp s)) s.

(** The part of the executor that builds the operation, registers
    [op.onAbort] on its signal and inserts it into the queue. *)
Definition accepted (prio : Z) (sg : option nat) (s : Limiter) : Limiter :=
  let p := nextOp s in
  let s0 := newPromise s in
  let s1 := match sg with
            | Some g => addEventListener g p s0
            | None => s0
            end in
  set_queue (insertByPriority {| opId := p; priority := prio; signal := sg |} (queue s1)) s1.

(** The executor of the promise [enqueue] returns.  [fn] is a function by
    its type, so the [TypeError] of [enqueue] has no place here. *)
Definition enqueue (cfg : LimitOptions) (prio : Z) (sg : option nat) (now later : Z)
    (s : Limiter) : Limiter :=
  let p := nextOp s in
  let s0 := newPromise s in
  if signal_aborted sg s0 then settle p (Rejected AbortError) s0
  else if num_leb (maxQueueSize cfg) (Fin (Z.of_nat (length (queue s0)))) then
    settle p (Rejected QueueFullError) s0
  else processQueue cfg now later (accepted prio sg s).

(** ** [clearQueue] and [onIdle] *)

Fixpoint drain (reject : bool) (q : list QueuedOperation) (s : Limiter) : Limiter :=
  match q with
  | [] => set_queue [] s
  | op :: rest =>
      let s1 := shift op rest s in
      drain reject rest (if reject then settle (opId op) (Rejected QueueClearedError) s1 else s1)
  end.

Definition clearQueue (reject : bool) (s : Limiter) : Limiter :=
  let s1 := match refillTimeoutId s with
            | Some _ => set_refillTimeoutId None s
            | None => s
            end in
  checkIdle (drain reject (queue s1) s1).

(** What [onIdle] returns: [Promise.resolve()], or a promise that waits. *)
Inductive IdlePromise : Type :=
  | AlreadyResolved
  | Waiting (w : nat).

Definition onIdle (s : Limiter) : IdlePromise * Limiter :=
  if (activeCount s =? 0) && bool_decide (queue s = []) then (AlreadyResolved, s)
  else (Waiting (nextIdle s),
        set_idle (idleResolvers s ++ [nextIdle s]) (idleResolved s) (S (nextIdle s)) s).

(** ** The callbacks the host runs *)

(** The continuation of a dispatched operation, [res] being what [op.fn()]
    produced.  It exists once per dispatched operation. *)
Definition complete (cfg : LimitOptions) (id : nat) (res : Outcome) (now later : Z)
    (s : Limiter) : Limiter :=
  match list_find (λ o, opId o = id) (inflight s) with
  | Some (i, op) =>
      let s1 := set_inflight (delete i (inflight s)) s in
      let s2 := set_activeCount (activeCount s1 - 1) s1 in
      checkIdle (processQueue cfg now later (settle id res s2))
  | None => s
  end.

(** The callback of [setTimeout] in [scheduleRefill]; it runs only while the
    timeout is pending.  [fired] is what [Date.now()] returns in the
    [refillTokens] of the callback, [now] and [later] what it returns in the
    pass that follows. *)
Definition timerFire (cfg : LimitOptions) (fired now later : Z) (s : Limiter) : Limiter :=
  match refillTimeoutId s with
  | Some _ => processQueue cfg now later (refillTokens cfg fired (set_refillTimeoutId None s))
  | None => s
  end.

(** The listeners of an aborted signal, run one after the other. *)
Definition fire (ls : list nat) (s : Limiter) : Limiter :=
  foldl (λ s' id, onAbort id s') s ls.

(** [controller.abort()]: nothing on a signal already aborted; otherwise the
    flag is set and the listeners run in registration order, each once. *)
Definition abort (g : nat) (s : Limiter) : Limiter :=
  let sg := signal_of s g in
  if aborted sg then s
  else fire (listeners sg)
            (set_signals (<[g := {| aborted := true; listeners := [] |}]> (signals s)) s).

(** The same abort in the steps the host takes, for the runs in which other
    abort listeners of the signal (the caller's own) call back into the
    limiter between them: the flag is set first, ... *)
Definition abortBegin (g : nat) (s : Limiter) : Limiter :=
  let sg := signal_of s g in
  if aborted sg then s
  else set_signals (<[g := {| aborted := true; listeners := listeners sg |}]> (signals s)) s.

(** ... and then the listeners still registered run one at a time, each
    removed as it runs. *)
Definition abortNext (g : nat) (s : Limiter) : Limiter :=
  let sg := signal_of s g in
  match aborted sg, listeners sg with
  | true, id :: ls =>
      onAbort id (set_signals (<[g := {| aborted := true; listeners := ls |}]> (signals s)) s)
  | _, _ => s
  end.

(** ** [createLimit] *)

Definition valid_options (cfg : LimitOptions) : bool :=
  match concurrency cfg with Inf => true | Fin c => 0 <? c end
  && match rate cfg with None => true | Some r => 0 <? r end
  && (0 <? interval cfg)
  && match maxQueueSize cfg with Inf => true | Fin m => 0 <? m end.

Definition init (cfg : LimitOptions) (now : Z) : Limiter :=
  {| queue := []; activeCount := 0; idleResolvers := [];
     tokens := match rate cfg with Some r => Fin r | None => Inf end;
     lastRefill := now; refillTimeoutId := None;
     signals := ∅; promises := ∅; inflight := [];
     idleResolved := []; nextOp := 0; nextIdle := 0 |}.

(** [None] is the [TypeError] of the validation. *)
Definition createLimit (cfg : LimitOptions) (now : Z) : option Limiter :=
  if valid_options cfg then Some (init cfg now) else None.

(** ** Runs *)

(** What happens to a limiter: [limit(fn, { priority, signal })]; the
    completion of dispatched operation [id] with [res]; [controller.abort()]
    on signal [g], in one piece or in its steps; the refill timeout;
    [clearQueue(reject)]; [onIdle()].  An event carries what [Date.now()]
    returns each time its callback reads the clock, in the order of the
    reads. *)
Inductive Event : Type :=
  | Submit (prio : Z) (sg : option nat) (now later : Z)
  | Complete (id : nat) (res : Outcome) (now later : Z)
  | Abort (g : nat)
  | AbortBegin (g : nat)
  | AbortNext (g : nat)
  | TimerFire (fired now later : Z)
  | ClearQueue (reject : bool)
  | OnIdle.

Definition step (cfg : LimitOptions) (s : Limiter) (e : Event) : Limiter :=
  match e with
  | Submit prio sg now later => enqueue cfg prio sg now later s
  | Complete id res now later => complete cfg id res now later s
  | Abort g => abort g s
  | AbortBegin g => abortBegin g s
  | AbortNext g => abortNext g s
  | TimerFire fired now later => timerFire cfg fired now later s
  | ClearQueue reject => clearQueue reject s
  | OnIdle => (onIdle s).2
  end.

Definition run (cfg : LimitOptions) (now : Z) (evs : list Event) : Limiter :=
  foldl (step cfg) (init cfg now) evs.

(** The states a limiter created from valid options passes through. *)
Inductive reachable (cfg : LimitOptions) : Limiter → Prop :=
  | reach_init now s : createLimit cfg now = Some s → reachable cfg s
  | reach_step s e : reachable cfg s → reachable cfg (step cfg s e).

(** ** Invariants of the reachable states *)

(** [activeCount <= concurrency]. *)
Definition conc_ok (cfg : LimitOptions) (s : Limiter) : Prop :=
  num_leb (Fin (activeCount s)) (concurrency cfg) = true.

(** Without a rate the bucket is [Infinity]; with rate [r] it holds between
    [0] and [r] tokens. *)
Definition tokens_ok (cfg : LimitOptions) (s : Limiter) : Prop :=
  match rate cfg with
  | None => tokens s = Inf
  | Some r => ∃ k, tokens s = Fin k ∧ 0 ≤ k ≤ r
  end.

(** A non-empty queue facing an empty bucket has its refill timer armed, and
    without a rate there is never a timer. *)
Definition timer_ok (cfg : LimitOptions) (s : Limiter) : Prop :=
  (queue s ≠ [] → tokens s = Fin 0 → is_Some (refillTimeoutId s))
  ∧ (rate cfg = None → refillTimeoutId s = None).

(** [precedes a b]: [a] has to leave the queue before [b], because its
    priority is higher, or because it is equal and [a] was submitted first
    (operations are numbered in submission order). *)
Definition precedes (a b : QueuedOperation) : Prop :=
  priority b < priority a ∨ (priority a = priority b ∧ (opId a < opId b)%nat).

(** What the queue, the dispatched operations, the promises and the abort
    listeners have to do with one another.  A queued operation may well have
    an aborted signal: between the flag being set and its listener running. *)
Record wf (s : Limiter) : Prop := {
  wf_sorted : StronglySorted precedes (queue s);
  wf_nodup : NoDup (opId <$> (queue s ++ inflight s));
  wf_fresh : Forall (λ o, (opId o < nextOp s)%nat) (queue s ++ inflight s);
  wf_pending : Forall (λ o, promises s !! opId o = None) (queue s ++ inflight s);
  wf_unborn : ∀ p, (nextOp s ≤ p)%nat → promises s !! p = None;
  wf_listening : ∀ op g, op ∈ queue s → signal op = Some g →
    opId op ∈ listeners (signal_of s g);
  wf_active : activeCount s = Z.of_nat (length (inflight s))
}.

(** What the loop of [processQueue] makes of a consistent state [s]: it pops
    a prefix [popped] of the queue; the popped operations whose signal is not
    aborted are dispatched, in order, and each of them raises [activeCount]
    by one and, under a rate, takes one token; the others are rejected with
    [AbortError]; no other promise changes. *)
Definition admission_post (cfg : LimitOptions) (s s' : Limiter) : Prop :=
  wf s'
  ∧ (∀ g, aborted (signal_of s' g) = aborted (signal_of s g))
  ∧ (∀ p, (p ∉ opId <$> queue s) → promises s' !! p = promises s !! p)
  ∧ ∃ popped,
      let dispatched := filter (λ op, signal_aborted (signal op) s = false) popped in
      queue s = popped ++ queue s'
      ∧ inflight s' = inflight s ++ dispatched
      ∧ activeCount s' = activeCount s + Z.of_nat (length dispatched)
      ∧ tokens s' = match rate cfg, tokens s with
                    | Some _, Fin t => Fin (t - Z.of_nat (length dispatched))
                    | _, _ => tokens s
                    end
      ∧ ∀ op, op ∈ popped →
          promises s' !! opId op
          = if signal_aborted (signal op) s then Some (Rejected AbortError) else None.

(** No idle waiter is left waiting on an idle limiter. *)
Definition idle_ok (s : Limiter) : Prop :=
  activeCount s = 0 → queue s = [] → idleResolvers s = [].

(** The events whose callback ends with a call of [checkIdle], or leaves the
    queue and [activeCount] alone: all but the abort listeners. *)
Definition checks_idle (e : Event) : bool :=
  match e with
  | Abort _ | AbortNext _ => false
  | _ => true
  end.

(** Nothing waits in front of free capacity: a non-empty queue means that
    [activeCount] has reached [concurrency] or that the bucket is empty. *)
Definition saturated (cfg : LimitOptions) (s : Limiter) : Prop :=
  queue s ≠ [] → has_capacity cfg s = false.

(** The promise [p] of [enqueue] is accounted for: its operation is queued
    or dispatched, or the promise is settled. *)
Definition known (s : Limiter) (p : nat) : Prop :=
  p ∈ opId <$> (queue s ++ inflight s) ∨ is_Some (promises s !! p).

(** Every promise [enqueue] has handed out is accounted for. *)
Definition accounted (s : Limiter) : Prop :=
  ∀ p, (p < nextOp s)%nat → known s p.

(** [clearQueue(false)] drops operations without settling their promises;
    every other callback keeps track of them. *)
Definition keeps_promises (e : Event) : bool :=
  match e with
  | ClearQueue false => false
  | _ => true
  end.

(** The abort listeners are those of the queued operations, each once. *)
Definition owned (s : Limiter) : Prop :=
  ∀ g, NoDup (listeners (signal_of s g))
       ∧ ∀ id, id ∈ listeners (signal_of s g) →
           ∃ op, op ∈ queue s ∧ opId op = id ∧ signal op = Some g.

(** ** [limited] *)

(** [limited(fn, options)] creates one limiter; a call of the function it
    returns is [limit(() => fn(...args))], with no operation options:
    priority [0] and no signal. *)
Definition limited (cfg : LimitOptions) (now : Z) : option Limiter := createLimit cfg now.

Definition limited_call (cfg : LimitOptions) (now later : Z) (s : Limiter) : Limiter :=
  enqueue cfg 0 None now later s.

(** Nothing but the wrapped function reaches the limiter of [limited]: what
    happens to it are calls, completions and refill timeouts. *)
Inductive LimitedEvent : Type :=
  | LCall (now later : Z)
  | LComplete (id : nat) (res : Outcome) (now later : Z)
  | LTimerFire (fired now later : Z).

Definition limited_step (cfg : LimitOptions) (s : Limiter) (e : LimitedEvent) : Limiter :=
  match e with
  | LCall now later => limited_call cfg now later s
  | LComplete id res now later => complete cfg id res now later s
  | LTimerFire fired now later => timerFire cfg fired now later s
  end.

(** The limiter of [limited(fn, options)], created at clock [now], after the
    events [evs]; [None] when [createLimit] throws. *)
Definition limited_run (cfg : LimitOptions) (now : Z) (evs : list LimitedEvent)
    : option Limiter :=
  s ← limited cfg now; Some (foldl (limited_step cfg) s evs).

(** ** [createKeyedLimit] *)

(** The [Map] of [createKeyedLimit], with two fields for what lies around
    it.  A limiter that [delete] or [clear] takes out of the map lives on
    for the operations it has dispatched: [evicted] keeps it as the call
    left it.  An [AbortSignal] is one object for all the limiters, while
    each [Limiter] above carries its own view of the signals:
    [abortedSignals] lists the signals aborted so far, and a limiter created
    later sees them aborted. *)
Record KeyedLimiter : Type := {
  limiters : gmap string Limiter;
  evicted : list Limiter;
  abortedSignals : list nat
}.

Definition set_limiters (m : gmap string Limiter) (k : KeyedLimiter) : KeyedLimiter :=
  {| limiters := m; evicted := evicted k; abortedSignals := abortedSignals k |}.

(** [createKeyedLimit(options)] validates nothing: the options are first
    looked at by the [createLimit] of [getOrCreate]. *)
Definition createKeyedLimit : KeyedLimiter :=
  {| limiters := ∅; evicted := []; abortedSignals := [] |}.

(** [createLimit(options)] at clock [now], when the signals [gs] are aborted
    already. *)
Definition newLimiter (cfg : LimitOptions) (now : Z) (gs : list nat) : option Limiter :=
  s ← createLimit cfg now; Some (foldl (λ s' g, abort g s') s gs).

(** [None] is the [TypeError] thrown by [createLimit]; the map is then as it
    was.  [created] is what [Date.now()] returns in [createLimit], when it
    is called. *)
Definition getOrCreate (cfg : LimitOptions) (key : string) (created : Z) (k : KeyedLimiter)
    : option (Limiter * KeyedLimiter) :=
  match limiters k !! key with
  | Some limiter => Some (limiter, k)
  | None =>
      limiter ← newLimiter cfg created (abortedSignals k);
      Some (limiter, set_limiters (<[key := limiter]> (limiters k)) k)
  end.

(** [keyedLimit(key, fn, options)]: the promise it returns is a promise of
    the limiter of [key]. *)
Definition keyedLimit (cfg : LimitOptions) (key : string) (prio : Z) (sg : option nat)
    (created now later : Z) (k : KeyedLimiter) : option (nat * KeyedLimiter) :=
  '(limiter, k1) ← getOrCreate cfg key created k;
  Some (nextOp limiter,
        set_limiters (<[key := enqueue cfg prio sg now later limiter]> (limiters k1)) k1).

(** [keyedLimit.delete(key)] *)
Definition keyedDelete (key : string) (k : KeyedLimiter) : bool * KeyedLimiter :=
  match limiters k !! key with
  | Some limiter =>
      (true, {| limiters := delete key (limiters k);
                evicted := evicted k ++ [clearQueue true limiter];
                abortedSignals := abortedSignals k |})
  | None => (false, k)
  end.

(** [keyedLimit.clear()].  The limiters do not share state, so the order in
    which the loop visits them shows in the order of [evicted] only. *)
Definition keyedClear (k : KeyedLimiter) : KeyedLimiter :=
  {| limiters := ∅;
     evicted := evicted k ++ (clearQueue true <$> (map_to_list (limiters k)).*2);
     abortedSignals := abortedSignals k |}.

(** [keyedLimit.size] *)
Definition keyedSize (k : KeyedLimiter) : nat := size (limiters k).

(** What happens to a keyed limiter: [keyedLimit(key, fn, options)],
    [get(key)], [delete(key)], [clear()]; [controller.abort()] on a signal,
    whose listeners are those of all the limiters; and what happens to the
    limiter stored under [key] without the map being involved: a completion,
    a refill timeout, or a call on the limiter that [get(key)] returned. *)
Inductive KeyedEvent : Type :=
  | KCall (key : string) (prio : Z) (sg : option nat) (created now later : Z)
  | KGet (key : string) (created : Z)
  | KDelete (key : string)
  | KClear
  | KAbort (g : nat)
  | KLimiter (key : string) (e : Event).

(** The events of a limiter that concern no other limiter. *)
Definition own_event (e : Event) : bool :=
  match e with
  | Abort _ | AbortBegin _ | AbortNext _ => false
  | _ => true
  end.

Definition keyed_step (cfg : LimitOptions) (k : KeyedLimiter) (e : KeyedEvent) : KeyedLimiter :=
  match e with
  | KCall key prio sg created now later =>
      match keyedLimit cfg key prio sg created now later k with Some (_, k') => k' | None => k end
  | KGet key created =>
      match getOrCreate cfg key created k with Some (_, k') => k' | None => k end
  | KDelete key => (keyedDelete key k).2
  | KClear => keyedClear k
  | KAbort g =>
      {| limiters := abort g <$> limiters k; evicted := evicted k;
         abortedSignals := g :: abortedSignals k |}
  | KLimiter key e =>
      match limiters k !! key with
      | Some limiter =>
          if own_event e then set_limiters (<[key := step cfg limiter e]> (limiters k)) k else k
      | None => k
      end
  end.

Definition keyed_run (cfg : LimitOptions) (evs : list KeyedEvent) : KeyedLimiter :=
  foldl (keyed_step cfg) createKeyedLimit evs.

(** The key an event works on, if it is one key. *)
Definition event_key (e : KeyedEvent) : option string :=
  match e with
  | KCall key _ _ _ _ _ | KGet key _ | KDelete key | KLimiter key _ => Some key
  | KClear | KAbort _ => None
  end.

(** The calls that wait have priority [0] and no signal and are in call
    order, and every call that runs was made before every call that
    waits. *)
Definition call_order (s : Limiter) : Prop :=
  Forall (λ o, priority o = 0) (queue s)
  ∧ StronglySorted (λ a b, (opId a < opId b)%nat) (queue s)
  ∧ ∀ a b, a ∈ inflight s → b ∈ queue s → (opId a < opId b)%nat.

Definition limited_event (e : LimitedEvent) : Event :=
  match e with
  | LCall now later => Submit 0 None now later
  | LComplete id res now later => Complete id res now later
  | LTimerFire fired now later => TimerFire fired now later
  end.

(** * Verification *)

(** ** What each helper leaves alone *)

Lemma set_queue_same s : set_queue (queue s) s = s.
Proof. by destruct s. Qed.

Section frames.
Context (cfg : LimitOptions).

Lemma settle_fields p o s :
  queue (settle p o s) = queue s ∧ activeCount (settle p o s) = activeCount s
  ∧ idleResolvers (settle p o s) = idleResolvers s ∧ tokens (settle p o s) = tokens s
  ∧ lastRefill (settle p o s) = lastRefill s
  ∧ refillTimeoutId (settle p o s) = refillTimeoutId s
  ∧ signals (settle p o s) = signals s ∧ inflight (settle p o s) = inflight s
  ∧ idleResolved (settle p o s) = idleResolved s ∧ nextOp (settle p o s) = nextOp s
  ∧ nextIdle (settle p o s) = nextIdle s.
Proof. unfold settle. by destruct (promises s !! p). Qed.

Lemma removeEventListener_fields op s :
  queue (removeEventListener op s) = queue s
  ∧ activeCount (removeEventListener op s) = activeCount s
  ∧ idleResolvers (removeEventListener op s) = idleResolvers s
  ∧ tokens (removeEventListener op s) = tokens s
  ∧ lastRefill (removeEventListener op s) = lastRefill s
  ∧ refillTimeoutId (removeEventListener op s) = refillTimeoutId s
  ∧ promises (removeEventListener op s) = promises s
  ∧ inflight (removeEventListener op s) = inflight s
  ∧ idleResolved (removeEventListener op s) = idleResolved s
  ∧ nextOp (removeEventListener op s) = nextOp s
  ∧ nextIdle (removeEventListener op s) = nextIdle s.
Proof. unfold removeEventListener. by destruct (signal op). Qed.

Lemma checkIdle_fields s :
  queue (checkIdle s) = queue s ∧ activeCount (checkIdle s) = activeCount s
  ∧ tokens (checkIdle s) = tokens s ∧ lastRefill (checkIdle s) = lastRefill s
  ∧ refillTimeoutId (checkIdle s) = refillTimeoutId s
  ∧ signals (checkIdle s) = signals s ∧ promises (checkIdle s) = promises s
  ∧ inflight (checkIdle s) = inflight s ∧ nextOp (checkIdle s) = nextOp s
  ∧ nextIdle (checkIdle s) = nextIdle s.
Proof. unfold checkIdle. by case_match. Qed.

Lemma refillTokens_fields now s :
  queue (refillTokens cfg now s) = queue s
  ∧ activeCount (refillTokens cfg now s) = activeCount s
  ∧ idleResolvers (refillTokens cfg now s) = idleResolvers s
  ∧ refillTimeoutId (refillTokens cfg now s) = refillTimeoutId s
  ∧ signals (refillTokens cfg now s) = signals s
  ∧ promises (refillTokens cfg now s) = promises s
  ∧ inflight (refillTokens cfg now s) = inflight s
  ∧ idleResolved (refillTokens cfg now s) = idleResolved s
  ∧ nextOp (refillTokens cfg now s) = nextOp s
  ∧ nextIdle (refillTokens cfg now s) = nextIdle s.
Proof. unfold refillTokens. by repeat case_match. Qed.

Lemma scheduleRefill_fields now s :
  queue (scheduleRefill cfg now s) = queue s
  ∧ activeCount (scheduleRefill cfg now s) = activeCount s
  ∧ idleResolvers (scheduleRefill cfg now s) = idleResolvers s
  ∧ tokens (scheduleRefill cfg now s) = tokens s
  ∧ lastRefill (scheduleRefill cfg now s) = lastRefill s
  ∧ signals (scheduleRefill cfg now s) = signals s
  ∧ promises (scheduleRefill cfg now s) = promises s
  ∧ inflight (scheduleRefill cfg now s) = inflight s
  ∧ idleResolved (scheduleRefill cfg now s) = idleResolved s
  ∧ nextOp (scheduleRefill cfg now s) = nextOp s
  ∧ nextIdle (scheduleRefill cfg now s) = nextIdle s.
Proof. unfold scheduleRefill. by repeat case_match. Qed.

End frames.

(** Rewrites every projection of a helper's result to the projection of its
    argument, where the helper leaves that field alone. *)
Ltac frame :=
  repeat first
    [ progress cbn [queue activeCount idleResolvers tokens lastRefill refillTimeoutId
                    signals promises inflight idleResolved nextOp nextIdle
                    set_queue set_activeCount set_idle set_bucket set_refillTimeoutId
                    set_signals set_promises set_inflight set_nextOp] in *
    | match goal with
      | |- context [?f (settle ?p ?o ?s)] =>
          lazymatch f with
          | promises => fail
          | _ => rewrite (ltac:(pose proof (settle_fields p o s); intuition)
                            : f (settle p o s) = f s)
          end
      | |- context [?f (removeEventListener ?op ?s)] =>
          lazymatch f with
          | signals => fail
          | _ => rewrite (ltac:(pose proof (removeEventListener_fields op s); intuition)
                            : f (removeEventListener op s) = f s)
          end
      | |- context [?f (checkIdle ?s)] =>
          lazymatch f with
          | idleResolvers => fail
          | idleResolved => fail
          | _ => rewrite (ltac:(pose proof (checkIdle_fields s); intuition)
                            : f (checkIdle s) = f s)
          end
      | |- context [?f (refillTokens ?c ?n ?s)] =>
          lazymatch f with
          | tokens => fail
          | lastRefill => fail
          | _ => rewrite (ltac:(pose proof (refillTokens_fields c n s); intuition)
                            : f (refillTokens c n s) = f s)
          end
      | |- context [?f (scheduleRefill ?c ?n ?s)] =>
          lazymatch f with
          | refillTimeoutId => fail
          | _ => rewrite (ltac:(pose proof (scheduleRefill_fields c n s); intuition)
                            : f (scheduleRefill c n s) = f s)
          end
      end ].

(** ** The admission loop, one iteration at a time *)

Lemma shift_queue op rest s : queue (shift op rest s) = rest.
Proof. unfold shift. by frame. Qed.

Lemma dispatch_queue cfg op s : queue (dispatch cfg op s) = queue s.
Proof. unfold dispatch. by repeat case_match. Qed.

(** A property that the two bodies of an iteration keep is kept by the loop. *)
Lemma admission_preserves (cfg : LimitOptions) (P : Limiter → Prop) :
  (∀ s op rest, queue s = op :: rest → has_capacity cfg s = true → P s →
     signal_aborted (signal op) (shift op rest s) = true →
     P (settle (opId op) (Rejected AbortError) (shift op rest s))) →
  (∀ s op rest, queue s = op :: rest → has_capacity cfg s = true → P s →
     signal_aborted (signal op) (shift op rest s) = false →
     P (dispatch cfg op (shift op rest s))) →
  ∀ s, P s → P (admission cfg (queue s) s).
Proof.
  intros Hrej Hrun s. remember (queue s) as q eqn:Hq.
  revert s Hq. induction q as [|op rest IH]; intros s Hq HP; simpl.
  - by rewrite Hq, set_queue_same.
  - destruct (has_capacity cfg s) eqn:Hcap.
    + destruct (signal_aborted (signal op) (shift op rest s)) eqn:Hab.
      * apply IH; [|by apply Hrej].
        frame. by rewrite shift_queue.
      * apply IH; [|by apply Hrun].
        by rewrite dispatch_queue, shift_queue.
    + by rewrite Hq, set_queue_same.
Qed.

(** Once the loop is over, the queue is empty or there is no capacity. *)
Lemma admission_exit cfg q s :
  queue (admission cfg q s) = [] ∨ has_capacity cfg (admission cfg q s) = false.
Proof.
  revert s. induction q as [|op rest IH]; intros s; simpl; [by left|].
  destruct (has_capacity cfg s) eqn:Hcap.
  - case_match; apply IH.
  - right. unfold has_capacity in *. by frame.
Qed.

Lemma shift_fields op rest s :
  activeCount (shift op rest s) = activeCount s
  ∧ idleResolvers (shift op rest s) = idleResolvers s
  ∧ tokens (shift op rest s) = tokens s
  ∧ lastRefill (shift op rest s) = lastRefill s
  ∧ refillTimeoutId (shift op rest s) = refillTimeoutId s
  ∧ promises (shift op rest s) = promises s
  ∧ inflight (shift op rest s) = inflight s
  ∧ idleResolved (shift op rest s) = idleResolved s
  ∧ nextOp (shift op rest s) = nextOp s
  ∧ nextIdle (shift op rest s) = nextIdle s.
Proof. unfold shift. by frame. Qed.

Lemma dispatch_fields cfg op s :
  queue (dispatch cfg op s) = queue s
  ∧ activeCount (dispatch cfg op s) = activeCount s + 1
  ∧ idleResolvers (dispatch cfg op s) = idleResolvers s
  ∧ lastRefill (dispatch cfg op s) = lastRefill s
  ∧ refillTimeoutId (dispatch cfg op s) = refillTimeoutId s
  ∧ signals (dispatch cfg op s) = signals s
  ∧ promises (dispatch cfg op s) = promises s
  ∧ inflight (dispatch cfg op s) = inflight s ++ [op]
  ∧ idleResolved (dispatch cfg op s) = idleResolved s
  ∧ nextOp (dispatch cfg op s) = nextOp s
  ∧ nextIdle (dispatch cfg op s) = nextIdle s.
Proof. unfold dispatch. by repeat case_match. Qed.

(** The loop touches neither the idle waiters, nor the refill boundary, nor
    the timer, nor the counters that name new promises. *)
Lemma admission_fields cfg s :
  idleResolvers (admission cfg (queue s) s) = idleResolvers s
  ∧ lastRefill (admission cfg (queue s) s) = lastRefill s
  ∧ refillTimeoutId (admission cfg (queue s) s) = refillTimeoutId s
  ∧ idleResolved (admission cfg (queue s) s) = idleResolved s
  ∧ nextOp (admission cfg (queue s) s) = nextOp s
  ∧ nextIdle (admission cfg (queue s) s) = nextIdle s.
Proof.
  apply (admission_preserves cfg (λ s', idleResolvers s' = idleResolvers s
    ∧ lastRefill s' = lastRefill s ∧ refillTimeoutId s' = refillTimeoutId s
    ∧ idleResolved s' = idleResolved s ∧ nextOp s' = nextOp s
    ∧ nextIdle s' = nextIdle s)); [| |done].
  - intros s1 op rest _ _ HP _. frame.
    by destruct (shift_fields op rest s1) as (_ & -> & _ & -> & -> & _ & _ & -> & -> & ->).
  - intros s1 op rest _ _ HP _.
    destruct (dispatch_fields cfg op (shift op rest s1))
      as (_ & _ & -> & -> & -> & _ & _ & _ & -> & -> & ->).
    by destruct (shift_fields op rest s1) as (_ & -> & _ & -> & -> & _ & _ & -> & -> & ->).
Qed.

(** The three ways a submission can go. *)
Lemma enqueue_unfold cfg prio sg now later s :
  enqueue cfg prio sg now later s
  = if signal_aborted sg s then
      settle (nextOp s) (Rejected AbortError) (newPromise s)
    else if num_leb (maxQueueSize cfg) (Fin (Z.of_nat (length (queue s)))) then
      settle (nextOp s) (Rejected QueueFullError) (newPromise s)
    else processQueue cfg now later (accepted prio sg s).
Proof.
  unfold enqueue.
  by assert (signal_aborted sg (newPromise s) = signal_aborted sg s)
    as -> by (by destruct sg).
Qed.

Lemma accepted_fields prio sg s :
  queue (accepted prio sg s)
  = insertByPriority {| opId := nextOp s; priority := prio; signal := sg |} (queue s)
  ∧ activeCount (accepted prio sg s) = activeCount s
  ∧ idleResolvers (accepted prio sg s) = idleResolvers s
  ∧ tokens (accepted prio sg s) = tokens s
  ∧ lastRefill (accepted prio sg s) = lastRefill s
  ∧ refillTimeoutId (accepted prio sg s) = refillTimeoutId s
  ∧ promises (accepted prio sg s) = promises s
  ∧ inflight (accepted prio sg s) = inflight s
  ∧ idleResolved (accepted prio sg s) = idleResolved s
  ∧ nextOp (accepted prio sg s) = S (nextOp s)
  ∧ nextIdle (accepted prio sg s) = nextIdle s.
Proof. unfold accepted, addEventListener. by destruct sg. Qed.

(** ** C1: the concurrency gate *)

Lemma num_leb_succ a c : num_ltb (Fin a) c = true → num_leb (Fin (a + 1)) c = true.
Proof. destruct c; simpl; [|done]. lia. Qed.

Lemma num_leb_pred a c : num_leb (Fin a) c = true → num_leb (Fin (a - 1)) c = true.
Proof. destruct c; simpl; [|done]. lia. Qed.

Lemma admission_conc_ok cfg s : conc_ok cfg s → conc_ok cfg (admission cfg (queue s) s).
Proof.
  apply (admission_preserves cfg (conc_ok cfg)); unfold conc_ok.
  - intros s1 op rest _ _ HP _. frame.
    by destruct (shift_fields op rest s1) as (-> & _).
  - intros s1 op rest _ Hcap _ _.
    destruct (dispatch_fields cfg op (shift op rest s1)) as (_ & -> & _).
    destruct (shift_fields op rest s1) as (-> & _).
    apply num_leb_succ. unfold has_capacity in Hcap. by apply andb_prop in Hcap as [? _].
Qed.

Lemma processQueue_activeCount cfg now later s :
  activeCount (processQueue cfg now later s)
  = activeCount (admission cfg (queue (refillTokens cfg now s)) (refillTokens cfg now s)).
Proof. unfold processQueue. case_match; by frame. Qed.

Lemma processQueue_conc_ok cfg now later s :
  conc_ok cfg s → conc_ok cfg (processQueue cfg now later s).
Proof.
  intros H. unfold conc_ok. rewrite processQueue_activeCount.
  apply admission_conc_ok. unfold conc_ok. by frame.
Qed.

Lemma onAbort_fields id s :
  activeCount (onAbort id s) = activeCount s
  ∧ idleResolvers (onAbort id s) = idleResolvers s
  ∧ tokens (onAbort id s) = tokens s
  ∧ lastRefill (onAbort id s) = lastRefill s
  ∧ refillTimeoutId (onAbort id s) = refillTimeoutId s
  ∧ signals (onAbort id s) = signals s
  ∧ inflight (onAbort id s) = inflight s
  ∧ idleResolved (onAbort id s) = idleResolved s
  ∧ nextOp (onAbort id s) = nextOp s
  ∧ nextIdle (onAbort id s) = nextIdle s.
Proof. unfold onAbort. case_match; by frame. Qed.

(** Aborting a signal changes the queue, the promises and the signal, and
    nothing else: no admission pass, no idle check, no timer. *)
Lemma fire_fields ls s :
  activeCount (fire ls s) = activeCount s
  ∧ idleResolvers (fire ls s) = idleResolvers s
  ∧ tokens (fire ls s) = tokens s
  ∧ lastRefill (fire ls s) = lastRefill s
  ∧ refillTimeoutId (fire ls s) = refillTimeoutId s
  ∧ inflight (fire ls s) = inflight s
  ∧ idleResolved (fire ls s) = idleResolved s
  ∧ nextOp (fire ls s) = nextOp s
  ∧ nextIdle (fire ls s) = nextIdle s.
Proof.
  revert s. induction ls as [|id ls IH]; intros s; [done|].
  change (fire (id :: ls) s) with (fire ls (onAbort id s)).
  destruct (IH (onAbort id s)) as (-> & -> & -> & -> & -> & -> & -> & -> & ->).
  by destruct (onAbort_fields id s) as (-> & -> & -> & -> & -> & _ & -> & -> & -> & ->).
Qed.

(** Aborting a signal changes the queue, the promises and the signal, and
    nothing else: no admission pass, no idle check, no timer. *)
Lemma abort_fields g s :
  activeCount (abort g s) = activeCount s
  ∧ idleResolvers (abort g s) = idleResolvers s
  ∧ tokens (abort g s) = tokens s
  ∧ lastRefill (abort g s) = lastRefill s
  ∧ refillTimeoutId (abort g s) = refillTimeoutId s
  ∧ inflight (abort g s) = inflight s
  ∧ idleResolved (abort g s) = idleResolved s
  ∧ nextOp (abort g s) = nextOp s
  ∧ nextIdle (abort g s) = nextIdle s.
Proof.
  unfold abort. case_match; [done|].
  match goal with |- context [fire ?ls ?s0] => by destruct (fire_fields ls s0)
    as (-> & -> & -> & -> & -> & -> & -> & -> & ->) end.
Qed.

Lemma abortBegin_fields g s :
  queue (abortBegin g s) = queue s
  ∧ activeCount (abortBegin g s) = activeCount s
  ∧ idleResolvers (abortBegin g s) = idleResolvers s
  ∧ tokens (abortBegin g s) = tokens s
  ∧ lastRefill (abortBegin g s) = lastRefill s
  ∧ refillTimeoutId (abortBegin g s) = refillTimeoutId s
  ∧ promises (abortBegin g s) = promises s
  ∧ inflight (abortBegin g s) = inflight s
  ∧ idleResolved (abortBegin g s) = idleResolved s
  ∧ nextOp (abortBegin g s) = nextOp s
  ∧ nextIdle (abortBegin g s) = nextIdle s.
Proof. unfold abortBegin. by case_match. Qed.

Lemma abortNext_unfold g s :
  abortNext g s = s
  ∨ ∃ id ls, aborted (signal_of s g) = true ∧ listeners (signal_of s g) = id :: ls
      ∧ abortNext g s
        = onAbort id (set_signals (<[g := {| aborted := true; listeners := ls |}]> (signals s)) s).
Proof.
  unfold abortNext. destruct (aborted (signal_of s g)); [|by left].
  destruct (listeners (signal_of s g)) as [|id ls]; [by left|]. right. by exists id, ls.
Qed.

Lemma abortNext_fields g s :
  activeCount (abortNext g s) = activeCount s
  ∧ idleResolvers (abortNext g s) = idleResolvers s
  ∧ tokens (abortNext g s) = tokens s
  ∧ lastRefill (abortNext g s) = lastRefill s
  ∧ refillTimeoutId (abortNext g s) = refillTimeoutId s
  ∧ inflight (abortNext g s) = inflight s
  ∧ idleResolved (abortNext g s) = idleResolved s
  ∧ nextOp (abortNext g s) = nextOp s
  ∧ nextIdle (abortNext g s) = nextIdle s.
Proof.
  destruct (abortNext_unfold g s) as [->|(id & ls & _ & _ & ->)]; [done|].
  match goal with |- context [onAbort id ?s0] =>
    by destruct (onAbort_fields id s0) as (-> & -> & -> & -> & -> & _ & -> & -> & -> & ->) end.
Qed.

Lemma drain_fields reject q s :
  queue (drain reject q s) = []
  ∧ activeCount (drain reject q s) = activeCount s
  ∧ idleResolvers (drain reject q s) = idleResolvers s
  ∧ tokens (drain reject q s) = tokens s
  ∧ lastRefill (drain reject q s) = lastRefill s
  ∧ refillTimeoutId (drain reject q s) = refillTimeoutId s
  ∧ inflight (drain reject q s) = inflight s
  ∧ idleResolved (drain reject q s) = idleResolved s
  ∧ nextOp (drain reject q s) = nextOp s
  ∧ nextIdle (drain reject q s) = nextIdle s.
Proof.
  revert s. induction q as [|op rest IH]; intros s; [done|]. simpl.
  destruct (IH (if reject then settle (opId op) (Rejected QueueClearedError) (shift op rest s)
                else shift op rest s))
    as (-> & -> & -> & -> & -> & -> & -> & -> & -> & ->).
  destruct (shift_fields op rest s) as (? & ? & ? & ? & ? & ? & ? & ? & ? & ?).
  destruct reject; by frame.
Qed.

Lemma clearQueue_fields reject s :
  queue (clearQueue reject s) = []
  ∧ activeCount (clearQueue reject s) = activeCount s
  ∧ tokens (clearQueue reject s) = tokens s
  ∧ lastRefill (clearQueue reject s) = lastRefill s
  ∧ refillTimeoutId (clearQueue reject s) = None
  ∧ inflight (clearQueue reject s) = inflight s
  ∧ nextOp (clearQueue reject s) = nextOp s
  ∧ nextIdle (clearQueue reject s) = nextIdle s.
Proof.
  unfold clearQueue. frame.
  match goal with |- context [drain reject ?q ?s1] =>
    destruct (drain_fields reject q s1) as (-> & -> & _ & -> & -> & -> & -> & _ & -> & ->) end.
  by destruct (refillTimeoutId s) eqn:E.
Qed.

Lemma step_conc_ok cfg s e : conc_ok cfg s → conc_ok cfg (step cfg s e).
Proof.
  intros H. destruct e as [prio sg now later|id res now later|g|g|g|fired now later|reject|]; simpl.
  - rewrite enqueue_unfold. repeat case_match; try (unfold conc_ok, newPromise; by frame).
    apply processQueue_conc_ok. unfold conc_ok.
    by destruct (accepted_fields prio sg s) as (_ & -> & _).
  - unfold complete. repeat case_match; [|done]. unfold conc_ok. frame.
    fold (conc_ok cfg (processQueue cfg now later
      (settle id res (set_activeCount (activeCount s - 1)
         (set_inflight (delete n (inflight s)) s))))).
    apply processQueue_conc_ok. unfold conc_ok. frame. by apply num_leb_pred.
  - unfold conc_ok. by destruct (abort_fields g s) as (-> & _).
  - unfold conc_ok. by destruct (abortBegin_fields g s) as (_ & -> & _).
  - unfold conc_ok. by destruct (abortNext_fields g s) as (-> & _).
  - unfold timerFire. case_match; [|done].
    apply processQueue_conc_ok. unfold conc_ok. by frame.
  - unfold conc_ok. by destruct (clearQueue_fields reject s) as (_ & -> & _).
  - unfold onIdle. case_match; [done|]. unfold conc_ok. by frame.
Qed.

Lemma reachable_run cfg now evs :
  valid_options cfg = true → reachable cfg (run cfg now evs).
Proof.
  intros Hv. unfold run. induction evs as [|e evs IH] using rev_ind.
  - apply (reach_init cfg now). unfold createLimit. by rewrite Hv.
  - rewrite foldl_app. simpl. by apply reach_step.
Qed.

(** C1.  On every state a limiter passes through, whatever the submissions,
    completions, aborts, timer fires, [clearQueue] and [onIdle] calls that led
    there, [activeCount] is at most [concurrency]; a dispatch raises it by
    one and happens only under [activeCount < concurrency], and aborts,
    [clearQueue] and [onIdle] leave it alone. *)
Theorem activeCount_le_concurrency (cfg : LimitOptions) (s : Limiter) :
  reachable cfg s →
  num_leb (Fin (activeCount s)) (concurrency cfg) = true
  ∧ (∀ op, has_capacity cfg s = true →
       num_ltb (Fin (activeCount s)) (concurrency cfg) = true
       ∧ activeCount (dispatch cfg op s) = activeCount s + 1)
  ∧ (∀ g, activeCount (abort g s) = activeCount s)
  ∧ (∀ reject, activeCount (clearQueue reject s) = activeCount s)
  ∧ activeCount (onIdle s).2 = activeCount s.
Proof.
  intros Hr. split; [|split; [|split; [|split]]].
  - induction Hr as [now s Hc|s e _ IH].
    + unfold createLimit in Hc. destruct (valid_options cfg) eqn:Hv; [|done].
      injection Hc as <-. simpl. unfold valid_options in Hv.
      destruct (concurrency cfg); simpl in *; [|done]. lia.
    + by apply step_conc_ok.
  - intros op Hcap. split.
    + unfold has_capacity in Hcap. by apply andb_prop in Hcap as [? _].
    + by destruct (dispatch_fields cfg op s) as (_ & -> & _).
  - intros g. by destruct (abort_fields g s) as (-> & _).
  - intros reject. by destruct (clearQueue_fields reject s) as (_ & -> & _).
  - unfold onIdle. by case_match.
Qed.

Lemma activeCount_le_concurrency_witness :
  let cfg := {| concurrency := Fin 5; rate := None; interval := 1000; maxQueueSize := Inf |} in
  let s := run cfg 0 (replicate 20 (Submit 0 None 0 0)) in
  reachable cfg s ∧ activeCount s = 5 ∧ length (queue s) = 15%nat
  ∧ num_leb (Fin (activeCount s)) (concurrency cfg) = true.
Proof.
  intros cfg s.
  assert (Hr : reachable cfg s) by (by apply reachable_run).
  split; [exact Hr|]. split; [reflexivity|]. split; [reflexivity|].
  exact (proj1 (activeCount_le_concurrency cfg s Hr)).
Defined.

(** ** C4: the lazy refill *)

Lemma valid_options_inv cfg :
  valid_options cfg = true →
  0 < interval cfg ∧ (∀ r, rate cfg = Some r → 0 < r)
  ∧ (∀ c, concurrency cfg = Fin c → 0 < c) ∧ (∀ m, maxQueueSize cfg = Fin m → 0 < m).
Proof.
  unfold valid_options. intros Hv.
  apply andb_prop in Hv as [Hv Hm]. apply andb_prop in Hv as [Hv Hi].
  apply andb_prop in Hv as [Hc Hr].
  split; [lia|]. split; [|split].
  - intros r E. rewrite E in Hr. lia.
  - intros c E. rewrite E in Hc. lia.
  - intros m E. rewrite E in Hm. lia.
Qed.

Lemma refillTokens_tokens_ok cfg now s :
  valid_options cfg = true → tokens_ok cfg s → tokens_ok cfg (refillTokens cfg now s).
Proof.
  intros (Hi & Hr0 & _)%valid_options_inv. unfold tokens_ok, refillTokens.
  destruct (rate cfg) as [r|]; [|done]. specialize (Hr0 r eq_refl).
  intros (k & Hk & Hr). destruct (interval cfg <=? now - lastRefill s) eqn:E; [|by exists k].
  simpl. rewrite Hk. simpl. eexists; split; [done|].
  assert (1 ≤ (now - lastRefill s) / interval cfg).
  { apply Z.div_le_lower_bound; lia. }
  nia.
Qed.

Lemma dispatch_tokens cfg op s :
  tokens (dispatch cfg op s)
  = match rate cfg, tokens s with
    | Some _, Fin t => Fin (t - 1)
    | _, _ => tokens s
    end.
Proof.
  unfold dispatch. destruct s as [? ? ? tk ? ? ? ? ? ? ? ?]. simpl.
  destruct (rate cfg), tk; reflexivity.
Qed.

Lemma admission_tokens_ok cfg s : tokens_ok cfg s → tokens_ok cfg (admission cfg (queue s) s).
Proof.
  apply (admission_preserves cfg (tokens_ok cfg)); unfold tokens_ok.
  - intros s1 op rest _ _ HP _. frame.
    by destruct (shift_fields op rest s1) as (_ & _ & -> & _).
  - intros s1 op rest _ Hcap HP _. unfold has_capacity in Hcap.
    apply andb_prop in Hcap as [_ Hcap]. rewrite dispatch_tokens.
    destruct (shift_fields op rest s1) as (_ & _ & -> & _).
    destruct (rate cfg) as [r|].
    + destruct HP as (k & Hk & Hr). rewrite Hk in *. simpl in *.
      eexists; split; [done|]. lia.
    + by rewrite HP.
Qed.

Lemma processQueue_tokens cfg now later s :
  tokens (processQueue cfg now later s)
  = tokens (admission cfg (queue (refillTokens cfg now s)) (refillTokens cfg now s)).
Proof. unfold processQueue. case_match; by frame. Qed.

Lemma processQueue_tokens_ok cfg now later s :
  valid_options cfg = true → tokens_ok cfg s → tokens_ok cfg (processQueue cfg now later s).
Proof.
  intros Hv H. pose proof (admission_tokens_ok cfg _ (refillTokens_tokens_ok cfg now s Hv H)) as H'.
  unfold tokens_ok in *. by rewrite processQueue_tokens.
Qed.

Lemma step_tokens_ok cfg s e :
  valid_options cfg = true → tokens_ok cfg s → tokens_ok cfg (step cfg s e).
Proof.
  intros Hv H.
  destruct e as [prio sg now later|id res now later|g|g|g|fired now later|reject|]; simpl.
  - rewrite enqueue_unfold. repeat case_match; try (unfold tokens_ok, newPromise; by frame).
    apply processQueue_tokens_ok; [done|]. unfold tokens_ok.
    by destruct (accepted_fields prio sg s) as (_ & _ & _ & -> & _).
  - unfold complete. repeat case_match; [|done]. unfold tokens_ok. frame.
    fold (tokens_ok cfg (processQueue cfg now later
      (settle id res (set_activeCount (activeCount s - 1)
         (set_inflight (delete n (inflight s)) s))))).
    apply processQueue_tokens_ok; [done|]. unfold tokens_ok. by frame.
  - unfold tokens_ok. by destruct (abort_fields g s) as (_ & _ & -> & _).
  - unfold tokens_ok. by destruct (abortBegin_fields g s) as (_ & _ & _ & -> & _).
  - unfold tokens_ok. by destruct (abortNext_fields g s) as (_ & _ & -> & _).
  - unfold timerFire. case_match; [|done].
    apply processQueue_tokens_ok; [done|]. apply refillTokens_tokens_ok; [done|].
    unfold tokens_ok. by frame.
  - unfold tokens_ok. by destruct (clearQueue_fields reject s) as (_ & _ & -> & _).
  - unfold onIdle. case_match; [done|]. unfold tokens_ok. by frame.
Qed.

Lemma reachable_valid cfg s : reachable cfg s → valid_options cfg = true.
Proof.
  induction 1 as [now s Hc|]; [|done]. unfold createLimit in Hc. by case_match.
Qed.

Lemma reachable_tokens_ok cfg s : reachable cfg s → tokens_ok cfg s.
Proof.
  intros Hr. pose proof (reachable_valid _ _ Hr) as Hv.
  induction Hr as [now s Hc|s e _ IH]; [|by apply step_tokens_ok; auto].
  unfold createLimit in Hc. rewrite Hv in Hc. injection Hc as <-.
  unfold tokens_ok, init. simpl. apply valid_options_inv in Hv as (_ & Hr0 & _).
  destruct (rate cfg) as [r|]; [|done]. exists r. split; [done|].
  specialize (Hr0 r eq_refl). lia.
Qed.

(** C4.  With [elapsed = now - lastRefill] and
    [periods = floor(elapsed / interval)]: [periods >= 1] exactly when
    [elapsed >= interval]; in that case, under rate [r], the bucket becomes
    [min(r, tokens + r * periods)] and [lastRefill] moves forward by
    [periods * interval], a whole number of intervals, which puts it on the
    last grid point not after [now] rather than on [now]; when
    [elapsed < interval] nothing changes; and without a rate the refill does
    nothing and the bucket of every reachable state is [Infinity]. *)
Theorem refillTokens_anchored (cfg : LimitOptions) (now : Z) (s : Limiter) :
  0 < interval cfg →
  let elapsed := now - lastRefill s in
  let periods := elapsed / interval cfg in
  let s' := refillTokens cfg now s in
  (1 ≤ periods ↔ interval cfg ≤ elapsed)
  ∧ (∀ r, rate cfg = Some r → 1 ≤ periods →
       tokens s' = num_min (Fin r) (num_add (tokens s) (Fin (r * periods)))
       ∧ lastRefill s' = lastRefill s + periods * interval cfg
       ∧ (lastRefill s' - lastRefill s) mod interval cfg = 0
       ∧ lastRefill s' ≤ now < lastRefill s' + interval cfg)
  ∧ (elapsed < interval cfg → s' = s)
  ∧ (rate cfg = None → s' = s ∧ (reachable cfg s → tokens s = Inf)).
Proof.
  intros Hi elapsed periods s'.
  assert (Hp : 1 ≤ periods ↔ interval cfg ≤ elapsed).
  { subst periods. split; intros H.
    - destruct (Z.le_gt_cases (interval cfg) elapsed) as [|Hlt]; [done|].
      destruct (Z.le_gt_cases 0 elapsed).
      + rewrite Z.div_small in H; lia.
      + assert (elapsed / interval cfg < 0) by (apply Z.div_lt_upper_bound; lia). lia.
    - apply Z.div_le_lower_bound; lia. }
  split; [done|]. split; [|split].
  - intros r Hr Hper. apply Hp in Hper. subst s'. unfold refillTokens. rewrite Hr.
    fold elapsed. destruct (interval cfg <=? elapsed) eqn:E; [|lia]. simpl.
    fold periods. split; [done|]. split; [done|]. split.
    + replace (lastRefill s + periods * interval cfg - lastRefill s)
        with (periods * interval cfg) by lia.
      by apply Z.mod_mul; lia.
    + pose proof (Z.mul_div_le elapsed (interval cfg) Hi).
      pose proof (Z.mul_succ_div_gt elapsed (interval cfg) Hi).
      unfold periods. lia.
  - intros Hlt. subst s'. unfold refillTokens. destruct (rate cfg); [|done].
    fold elapsed. destruct (interval cfg <=? elapsed) eqn:E; [lia|done].
  - intros Hr. split.
    + subst s'. unfold refillTokens. by rewrite Hr.
    + intros Hreach. apply reachable_tokens_ok in Hreach. unfold tokens_ok in Hreach.
      by rewrite Hr in Hreach.
Qed.

Lemma refillTokens_anchored_witness :
  let cfg := {| concurrency := Inf; rate := Some 3; interval := 100; maxQueueSize := Inf |} in
  let s := set_bucket (Fin 1) 40 (init cfg 40) in
  let s' := refillTokens cfg 395 s in
  0 < interval cfg ∧ (395 - lastRefill s) / interval cfg = 3
  ∧ tokens s' = Fin 3 ∧ lastRefill s' = 340.
Proof.
  intros cfg s s'.
  assert (Hi : 0 < interval cfg) by reflexivity.
  destruct (refillTokens_anchored cfg 395 s Hi) as (_ & H & _).
  destruct (H 3 eq_refl ltac:(by vm_compute)) as (Ht & Hl & _).
  split; [exact Hi|]. split; [reflexivity|]. split; [exact Ht|exact Hl].
Defined.

(** ** C3: the refill timer *)

Lemma num_leb_zero cfg s :
  tokens_ok cfg s → num_leb (tokens s) (Fin 0) = true → tokens s = Fin 0 ∧ is_Some (rate cfg).
Proof.
  unfold tokens_ok. destruct (rate cfg) as [r|].
  - intros (k & -> & Hk) H. simpl in H. split; [f_equal; lia|done].
  - by intros ->.
Qed.

(** What the admission pass leaves in the three fields the timer depends on,
    in terms of the state [s2] at the exit of the loop. *)
Lemma processQueue_timer_view cfg now later s :
  let s2 := admission cfg (queue (refillTokens cfg now s)) (refillTokens cfg now s) in
  let s' := processQueue cfg now later s in
  queue s' = queue s2 ∧ tokens s' = tokens s2
  ∧ refillTimeoutId s2 = refillTimeoutId s
  ∧ refillTimeoutId s'
    = if negb (bool_decide (queue s2 = [])) && num_leb (tokens s2) (Fin 0)
      then refillTimeoutId (scheduleRefill cfg later s2) else refillTimeoutId s.
Proof.
  intros s2 s'. subst s'. unfold processQueue. fold s2.
  assert (refillTimeoutId s2 = refillTimeoutId s) as Ht.
  { subst s2. destruct (admission_fields cfg (refillTokens cfg now s)) as (_ & _ & -> & _).
    by frame. }
  destruct (negb (bool_decide (queue s2 = [])) && num_leb (tokens s2) (Fin 0)); by frame.
Qed.

Lemma processQueue_timer_ok cfg now later s :
  valid_options cfg = true → tokens_ok cfg s →
  (rate cfg = None → refillTimeoutId s = None) →
  timer_ok cfg (processQueue cfg now later s).
Proof.
  intros Hv Htok Hnone.
  pose proof (admission_tokens_ok cfg _ (refillTokens_tokens_ok cfg now s Hv Htok)) as Htok2.
  destruct (processQueue_timer_view cfg now later s) as (Hq & Ht & Hid2 & Hid).
  set (s2 := admission cfg _ _) in *. unfold timer_ok. rewrite Hq, Ht, Hid. split.
  - intros Hne H0. rewrite H0. rewrite bool_decide_eq_false_2 by done. simpl.
    unfold scheduleRefill. rewrite Hid2.
    unfold tokens_ok in Htok2. destruct (rate cfg) as [r|]; [|congruence].
    destruct (refillTimeoutId s); [done|]. by destruct (queue s2).
  - intros Hr. unfold scheduleRefill. rewrite Hr. rewrite Hid2. by case_match; apply Hnone.
Qed.

(** A pass that starts without a timer ends with one exactly when it leaves
    operations queued in front of an empty bucket. *)
Lemma processQueue_arms_iff cfg now later s :
  valid_options cfg = true → tokens_ok cfg s → refillTimeoutId s = None →
  is_Some (refillTimeoutId (processQueue cfg now later s))
  ↔ queue (processQueue cfg now later s) ≠ [] ∧ tokens (processQueue cfg now later s) = Fin 0.
Proof.
  intros Hv Htok Hnone.
  pose proof (admission_tokens_ok cfg _ (refillTokens_tokens_ok cfg now s Hv Htok)) as Htok2.
  destruct (processQueue_timer_view cfg now later s) as (Hq & Ht & Hid2 & Hid).
  set (s2 := admission cfg _ _) in *. rewrite Hq, Ht, Hid, Hnone. split.
  - destruct (bool_decide (queue s2 = [])) eqn:Eq; simpl; [by intros [? ?]|].
    destruct (num_leb (tokens s2) (Fin 0)) eqn:El; [|by intros [? ?]].
    intros _. apply bool_decide_eq_false in Eq.
    by destruct (num_leb_zero cfg s2 Htok2 El).
  - intros [Hne H0]. rewrite H0. rewrite bool_decide_eq_false_2 by done. simpl.
    unfold scheduleRefill. rewrite Hid2, Hnone.
    unfold tokens_ok in Htok2. destruct (rate cfg) as [r|]; [|congruence].
    by destruct (queue s2).
Qed.

Lemma onAbort_queue_nil id s : queue s = [] → queue (onAbort id s) = [].
Proof. unfold onAbort, indexOf. intros H. by rewrite H. Qed.

Lemma abort_queue_nil g s : queue s = [] → queue (abort g s) = [].
Proof.
  unfold abort. case_match; [done|]. intros Hq.
  set (s0 := set_signals _ s). assert (queue s0 = []) as H0 by done.
  revert H0. generalize s0. clear.
  induction (listeners (signal_of s g)) as [|id ls IH]; intros s0 H0; [done|].
  change (fire (id :: ls) s0) with (fire ls (onAbort id s0)).
  apply IH. by apply onAbort_queue_nil.
Qed.

Lemma abortNext_queue_nil g s : queue s = [] → queue (abortNext g s) = [].
Proof.
  intros Hq. destruct (abortNext_unfold g s) as [->|(id & ls & _ & _ & ->)]; [done|].
  by apply onAbort_queue_nil.
Qed.

Lemma step_timer_ok cfg s e :
  valid_options cfg = true → tokens_ok cfg s → timer_ok cfg s → timer_ok cfg (step cfg s e).
Proof.
  intros Hv Htok Htim. pose proof Htim as [H1 H2].
  destruct e as [prio sg now later|id res now later|g|g|g|fired now later|reject|]; simpl.
  - rewrite enqueue_unfold. repeat case_match; try (unfold timer_ok, newPromise; by frame).
    destruct (accepted_fields prio sg s) as (_ & _ & _ & Ht & _ & Hid & _).
    apply processQueue_timer_ok; [done| |]; unfold tokens_ok; by rewrite ?Ht, ?Hid.
  - unfold complete. repeat case_match; [|done]. unfold timer_ok. frame.
    fold (timer_ok cfg (processQueue cfg now later
      (settle id res (set_activeCount (activeCount s - 1)
         (set_inflight (delete n (inflight s)) s))))).
    apply processQueue_timer_ok; [done| |]; unfold tokens_ok; by frame.
  - unfold timer_ok. destruct (abort_fields g s) as (_ & _ & -> & _ & -> & _).
    split; [|done]. intros Hne H0. apply H1; [|done].
    intros Hq. by apply Hne, abort_queue_nil.
  - unfold timer_ok.
    by destruct (abortBegin_fields g s) as (-> & _ & _ & -> & _ & -> & _).
  - unfold timer_ok. destruct (abortNext_fields g s) as (_ & _ & -> & _ & -> & _).
    split; [|done]. intros Hne H0. apply H1; [|done].
    intros Hq. by apply Hne, abortNext_queue_nil.
  - unfold timerFire. case_match; [|done].
    apply processQueue_timer_ok; [done| |by frame].
    apply refillTokens_tokens_ok; [done|]. unfold tokens_ok. by frame.
  - unfold timer_ok. by destruct (clearQueue_fields reject s) as (-> & _ & _ & _ & -> & _).
  - unfold onIdle. case_match; [done|]. unfold timer_ok. by frame.
Qed.

Lemma reachable_timer_ok cfg s : reachable cfg s → timer_ok cfg s.
Proof.
  intros Hr. pose proof (reachable_valid _ _ Hr) as Hv.
  induction Hr as [now s Hc|s e Hr IH].
  - unfold createLimit in Hc. rewrite Hv in Hc. by injection Hc as <-.
  - apply step_timer_ok; auto using reachable_tokens_ok.
Qed.

(** A state without a timer, and what differs from it in neither the queue,
    nor the bucket, nor the timer. *)
Lemma unarmed_iff cfg s s' :
  timer_ok cfg s → refillTimeoutId s = None →
  queue s' = queue s → tokens s' = tokens s → refillTimeoutId s' = refillTimeoutId s →
  is_Some (refillTimeoutId s') ↔ queue s' ≠ [] ∧ tokens s' = Fin 0.
Proof.
  intros [Harm _] Hnone -> -> ->. rewrite Hnone. split.
  - by intros [? ?].
  - intros [Hq Ht]. rewrite <- Hnone. by apply Harm.
Qed.

(** C3, as the code has it.  On every reachable state a non-empty queue in
    front of an empty bucket has the refill timer armed, and without a rate
    no timer is ever armed.  The timer is armed exactly when the queue is
    non-empty and the bucket empty after every admission pass that starts
    with no timer armed, on whatever state with a bucket within its bounds;
    so it is after every submission and every completion that find no timer
    armed, and after every timer fire; [clearQueue] leaves the queue empty
    and no timer. *)
Theorem refill_timer_armed_when_starved (cfg : LimitOptions) (s : Limiter) :
  reachable cfg s →
  (queue s ≠ [] → tokens s = Fin 0 → is_Some (refillTimeoutId s))
  ∧ (rate cfg = None → refillTimeoutId s = None)
  ∧ (∀ t now later, tokens_ok cfg t → refillTimeoutId t = None →
       let t' := processQueue cfg now later t in
       is_Some (refillTimeoutId t') ↔ queue t' ≠ [] ∧ tokens t' = Fin 0)
  ∧ (∀ prio sg now later, refillTimeoutId s = None →
       let s' := enqueue cfg prio sg now later s in
       is_Some (refillTimeoutId s') ↔ queue s' ≠ [] ∧ tokens s' = Fin 0)
  ∧ (∀ id res now later, refillTimeoutId s = None →
       let s' := complete cfg id res now later s in
       is_Some (refillTimeoutId s') ↔ queue s' ≠ [] ∧ tokens s' = Fin 0)
  ∧ (∀ fired now later, is_Some (refillTimeoutId s) →
       let s' := timerFire cfg fired now later s in
       is_Some (refillTimeoutId s') ↔ queue s' ≠ [] ∧ tokens s' = Fin 0)
  ∧ (∀ reject, let s' := clearQueue reject s in
       refillTimeoutId s' = None ∧ queue s' = []).
Proof.
  intros Hr. pose proof (reachable_valid _ _ Hr) as Hv.
  pose proof (reachable_tokens_ok _ _ Hr) as Htok.
  pose proof (reachable_timer_ok _ _ Hr) as Htim. destruct Htim as [H1 H2].
  split; [done|]. split; [done|]. split; [|split; [|split; [|split]]].
  - intros t now later Ht Hnone. by apply processQueue_arms_iff.
  - intros prio sg now later Hnone. cbv zeta. rewrite enqueue_unfold.
    destruct (signal_aborted sg s);
      [apply (unarmed_iff cfg s); [done|done|unfold newPromise; by frame..]|].
    destruct (num_leb _ _);
      [apply (unarmed_iff cfg s); [done|done|unfold newPromise; by frame..]|].
    destruct (accepted_fields prio sg s) as (_ & _ & _ & Ht & _ & Hid & _).
    apply processQueue_arms_iff; [done| |by rewrite Hid].
    unfold tokens_ok in *. by rewrite Ht.
  - intros id res now later Hnone. cbv zeta. unfold complete.
    destruct (list_find (λ o, opId o = id) (inflight s)) as [[i op]|];
      [|by apply (unarmed_iff cfg s)].
    match goal with |- context [processQueue cfg now later ?m] =>
      pose proof (processQueue_arms_iff cfg now later m Hv) as Hiff end.
    revert Hiff. frame. intros Hiff. apply Hiff; [|done].
    unfold tokens_ok in *. by frame.
  - intros fired now later [d Hd]. unfold timerFire. rewrite Hd.
    apply processQueue_arms_iff; [done| |by frame].
    apply refillTokens_tokens_ok; [done|]. unfold tokens_ok. by frame.
  - intros reject. cbv zeta.
    by destruct (clearQueue_fields reject s) as (-> & _ & _ & _ & -> & _).
Qed.

Lemma refill_timer_armed_when_starved_witness :
  let cfg := {| concurrency := Inf; rate := Some 1; interval := 100; maxQueueSize := Inf |} in
  let s := run cfg 0 [Submit 0 None 0 0] in
  let s' := enqueue cfg 0 None 20 25 s in
  reachable cfg s ∧ queue s = [] ∧ tokens s = Fin 0 ∧ refillTimeoutId s = None
  ∧ length (queue s') = 1%nat ∧ tokens s' = Fin 0 ∧ refillTimeoutId s' = Some 75
  ∧ (is_Some (refillTimeoutId s') ↔ queue s' ≠ [] ∧ tokens s' = Fin 0)
  ∧ (queue s' ≠ [] → tokens s' = Fin 0 → is_Some (refillTimeoutId s')).
Proof.
  intros cfg s s'.
  assert (Hr : reachable cfg s) by (apply reachable_run; reflexivity).
  assert (Hr' : reachable cfg s') by exact (reach_step cfg s (Submit 0 None 20 25) Hr).
  split; [exact Hr|]. do 6 (split; [reflexivity|]). split.
  - exact (proj1 (proj2 (proj2 (proj2 (refill_timer_armed_when_starved cfg s Hr))))
             0 None 20 25 eq_refl).
  - exact (proj1 (refill_timer_armed_when_starved cfg s' Hr')).
Defined.

(** The timer outlives the condition it was armed under.  First run: three
    submissions at time 0 under rate 2 arm the timer for time 100; a fourth
    submission at time 103, made before the host gets to run the timer
    callback, refills the bucket in its own admission pass and empties the
    queue.  Second run: the only queued operation is aborted.  Both end with
    the timer armed and the queue empty. *)
Lemma refill_timer_iff_fails :
  let cfg := {| concurrency := Inf; rate := Some 2; interval := 100; maxQueueSize := Inf |} in
  let s := run cfg 0 [Submit 0 None 0 0; Submit 0 None 0 0;
                      Submit 0 None 0 0; Submit 0 None 103 103] in
  let cfg' := {| concurrency := Inf; rate := Some 1; interval := 100; maxQueueSize := Inf |} in
  let s' := run cfg' 0 [Submit 0 None 0 0; Submit 0 (Some 7%nat) 0 0; Abort 7] in
  (reachable cfg s ∧ refillTimeoutId s = Some 100 ∧ queue s = []
   ∧ ¬ (is_Some (refillTimeoutId s) ↔ queue s ≠ [] ∧ tokens s = Fin 0))
  ∧ (reachable cfg' s' ∧ refillTimeoutId s' = Some 100 ∧ queue s' = []
     ∧ ¬ (is_Some (refillTimeoutId s') ↔ queue s' ≠ [] ∧ tokens s' = Fin 0)).
Proof.
  intros cfg s cfg' s'. split.
  - split; [apply reachable_run; reflexivity|].
    split; [vm_compute; reflexivity|]. split; [vm_compute; reflexivity|].
    intros [H _]. assert (is_Some (refillTimeoutId s)) as Hs by (exists 100; vm_compute; reflexivity).
    destruct (H Hs) as [Hq _]. apply Hq. vm_compute. reflexivity.
  - split; [apply reachable_run; reflexivity|].
    split; [vm_compute; reflexivity|]. split; [vm_compute; reflexivity|].
    intros [H _]. assert (is_Some (refillTimeoutId s')) as Hs by (exists 100; vm_compute; reflexivity).
    destruct (H Hs) as [Hq _]. apply Hq. vm_compute. reflexivity.
Qed.

(** ** The queue, the promises and the listeners stay consistent *)

Lemma StronglySorted_sublist {A} (R : relation A) (l1 l2 : list A) :
  StronglySorted R l2 → l1 `sublist_of` l2 → StronglySorted R l1.
Proof.
  intros Hs Hsub. induction Hsub as [|x l1 l2 Hsub IH|x l1 l2 Hsub IH]; [done| |].
  - apply StronglySorted_cons in Hs as [Hall Hs]. apply StronglySorted_cons. split; [|auto].
    rewrite Forall_forall in *. intros y Hy. apply Hall. by eapply elem_of_sublist.
  - apply StronglySorted_cons in Hs as [_ Hs]. auto.
Qed.

Lemma Forall_sublist {A} (P : A → Prop) (l1 l2 : list A) :
  Forall P l2 → l1 `sublist_of` l2 → Forall P l1.
Proof.
  rewrite !Forall_forall. intros H Hsub x Hx. apply H. by eapply elem_of_sublist.
Qed.

Lemma NoDup_ids_sublist (l1 l2 : list QueuedOperation) :
  NoDup (opId <$> l2) → l1 `sublist_of` l2 → NoDup (opId <$> l1).
Proof. intros H Hsub. eapply sublist_NoDup; [done|]. by apply fmap_sublist. Qed.

(** Two operations of a list without duplicate identities are the same
    operation as soon as their identities agree. *)
Lemma NoDup_ids_eq (l : list QueuedOperation) a b :
  NoDup (opId <$> l) → a ∈ l → b ∈ l → opId a = opId b → a = b.
Proof.
  induction l as [|x l IH]; [by intros _ ?%elem_of_nil|].
  rewrite fmap_cons, NoDup_cons. intros [Hx Hl] Ha Hb Hid.
  apply elem_of_cons in Ha as [->|Ha]; apply elem_of_cons in Hb as [->|Hb]; auto.
  - exfalso. apply Hx. rewrite Hid. by apply list_elem_of_fmap_2.
  - exfalso. apply Hx. rewrite <- Hid. by apply list_elem_of_fmap_2.
Qed.

(** What [list_find] finds splits the list around it. *)
Lemma list_find_split {A} (P : A → Prop) `{∀ x, Decision (P x)} (l : list A) i x :
  list_find P l = Some (i, x) →
  ∃ l1 l2, l = l1 ++ x :: l2 ∧ delete i l = l1 ++ l2 ∧ P x ∧ Forall (λ y, ¬ P y) l1.
Proof.
  intros (Hi & Hx & Hbefore)%list_find_Some.
  exists (take i l), (drop (S i) l). split; [by rewrite take_drop_middle|].
  split; [apply delete_take_drop|]. split; [done|].
  apply Forall_forall. intros y Hy. apply list_elem_of_lookup in Hy as [j Hj].
  pose proof (lookup_lt_Some _ _ _ Hj) as Hlen. rewrite length_take in Hlen.
  rewrite lookup_take_lt in Hj by lia. apply (Hbefore j); [done|lia].
Qed.

Lemma signal_of_removeEventListener op s g :
  aborted (signal_of (removeEventListener op s) g) = aborted (signal_of s g)
  ∧ listeners (signal_of (removeEventListener op s) g)
    = if decide (signal op = Some g)
      then filter (λ i, i ≠ opId op) (listeners (signal_of s g))
      else listeners (signal_of s g).
Proof.
  unfold removeEventListener, signal_of. destruct (signal op) as [g'|] eqn:Hs.
  - cbn [signals set_signals]. destruct (decide (g' = g)) as [->|Hne].
    + rewrite lookup_insert_eq. simpl. by rewrite decide_True.
    + rewrite lookup_insert_ne by done. rewrite decide_False; [done|congruence].
  - by rewrite decide_False.
Qed.

Lemma signal_of_addEventListener g id s g' :
  aborted (signal_of (addEventListener g id s) g') = aborted (signal_of s g')
  ∧ listeners (signal_of (addEventListener g id s) g')
    = if decide (g = g') then listeners (signal_of s g') ++ [id]
      else listeners (signal_of s g').
Proof.
  unfold addEventListener, signal_of. cbn [signals set_signals].
  destruct (decide (g = g')) as [->|Hne].
  - by rewrite lookup_insert_eq.
  - by rewrite lookup_insert_ne.
Qed.

Lemma signal_of_agree s' s g : signals s' = signals s → signal_of s' g = signal_of s g.
Proof. unfold signal_of. by intros ->. Qed.

Lemma shift_signals op rest s :
  signals (shift op rest s) = signals (removeEventListener op s).
Proof. unfold shift, removeEventListener. by destruct (signal op). Qed.

(** [wf] reads the queue, the dispatched operations, the promises, the
    signals and two counters, and nothing else. *)
Lemma wf_agree s s' :
  queue s' = queue s → inflight s' = inflight s → nextOp s' = nextOp s →
  promises s' = promises s → signals s' = signals s → activeCount s' = activeCount s →
  wf s → wf s'.
Proof.
  intros Hq Hf Hn Hp Hg Ha [].
  constructor; unfold signal_of; rewrite ?Hq, ?Hf, ?Hn, ?Hp, ?Hg, ?Ha; done.
Qed.

Lemma settle_pending p o s :
  promises s !! p = None → promises (settle p o s) = <[p := o]> (promises s).
Proof. unfold settle. by intros ->. Qed.

(** Settling a promise that belongs to no queued or dispatched operation. *)
Lemma wf_settle_gone p o s :
  wf s → p ∉ opId <$> (queue s ++ inflight s) → (p < nextOp s)%nat → wf (settle p o s).
Proof.
  intros Hwf Hp Hlt. unfold settle. destruct (promises s !! p) eqn:E; [done|].
  destruct Hwf as [Hsort Hnd Hfresh Hpend Hunborn Hlis Hact].
  constructor; cbn [queue inflight nextOp promises activeCount set_promises]; try done.
  - rewrite Forall_forall in *. intros x Hx. rewrite lookup_insert_ne; [by apply Hpend|].
    intros ->. apply Hp. by apply list_elem_of_fmap_2.
  - intros p' Hp'. rewrite lookup_insert_ne by lia. by apply Hunborn.
Qed.

(** [queue.shift()] and the removal of the listener. *)
Lemma wf_shift op rest s : wf s → queue s = op :: rest → wf (shift op rest s).
Proof.
  intros [Hsort Hnd Hfresh Hpend Hunborn Hlis Hact] Hq. rewrite Hq in *.
  simpl in Hnd, Hfresh, Hpend. apply NoDup_cons in Hnd as [Hop Hnd].
  apply Forall_cons in Hfresh as [Hopf Hfresh]. apply Forall_cons in Hpend as [Hopp Hpend].
  destruct (shift_fields op rest s) as (Ha & _ & _ & _ & _ & Hp & Hf & _ & Hn & _).
  constructor; rewrite ?shift_queue, ?Hf, ?Hn, ?Ha, ?Hp; try done.
  - by apply StronglySorted_cons in Hsort as [_ ?].
  - intros o g Ho Hsig.
    rewrite (signal_of_agree _ (removeEventListener op s)) by apply shift_signals.
    destruct (signal_of_removeEventListener op s g) as [_ ->].
    pose proof (Hlis o g ltac:(by apply elem_of_cons; right) Hsig) as Hin.
    case_decide; [|done]. apply list_elem_of_filter. split; [|done].
    intros Heq. apply Hop. rewrite <- Heq.
    apply list_elem_of_fmap_2, elem_of_app. by left.
Qed.

Lemma shift_gone op rest s :
  wf s → queue s = op :: rest →
  (opId op ∉ opId <$> (queue (shift op rest s) ++ inflight (shift op rest s)))
  ∧ (opId op < nextOp (shift op rest s))%nat
  ∧ promises (shift op rest s) !! opId op = None.
Proof.
  intros [Hsort Hnd Hfresh Hpend Hunborn Hlis Hact] Hq. rewrite Hq in *.
  simpl in Hnd, Hfresh, Hpend. apply NoDup_cons in Hnd as [Hop Hnd].
  apply Forall_cons in Hfresh as [Hopf Hfresh]. apply Forall_cons in Hpend as [Hopp Hpend].
  destruct (shift_fields op rest s) as (Ha & _ & _ & _ & _ & Hp & Hf & _ & Hn & _).
  by rewrite shift_queue, Hf, Hn, Hp.
Qed.

(** The iteration that finds the signal aborted, and the iteration of
    [clearQueue] that rejects. *)
Lemma wf_shift_reject op rest o s :
  wf s → queue s = op :: rest → wf (settle (opId op) o (shift op rest s)).
Proof.
  intros Hwf Hq. destruct (shift_gone op rest s Hwf Hq) as (? & ? & _).
  apply wf_settle_gone; [by apply wf_shift|done|done].
Qed.

(** The iteration that dispatches. *)
Lemma wf_shift_dispatch cfg op rest s :
  wf s → queue s = op :: rest → wf (dispatch cfg op (shift op rest s)).
Proof.
  intros [Hsort Hnd Hfresh Hpend Hunborn Hlis Hact] Hq. rewrite Hq in *.
  destruct (dispatch_fields cfg op (shift op rest s))
    as (Hdq & Hda & _ & _ & _ & Hds & Hdp & Hdf & _ & Hdn & _).
  destruct (shift_fields op rest s) as (Ha & _ & _ & _ & _ & Hp & Hf & _ & Hn & _).
  assert (rest ++ inflight s ++ [op] ≡ₚ (op :: rest) ++ inflight s) as Hperm.
  { rewrite app_assoc. by rewrite <- Permutation_cons_append. }
  constructor; unfold signal_of; rewrite ?Hdq, ?Hda, ?Hds, ?Hdp, ?Hdf, ?Hdn, ?shift_queue,
    ?Ha, ?Hp, ?Hf, ?Hn.
  - by apply StronglySorted_cons in Hsort as [_ ?].
  - by rewrite Hperm.
  - by rewrite Hperm.
  - by rewrite Hperm.
  - done.
  - intros o g Ho Hsig. fold (signal_of (shift op rest s) g).
    rewrite (signal_of_agree _ (removeEventListener op s)) by apply shift_signals.
    destruct (signal_of_removeEventListener op s g) as [_ ->].
    pose proof (Hlis o g ltac:(by apply elem_of_cons; right) Hsig) as Hin.
    case_decide; [|done]. apply list_elem_of_filter. split; [|done].
    simpl in Hnd. apply NoDup_cons in Hnd as [Hop Hnd].
    intros Heq. apply Hop. rewrite <- Heq.
    apply list_elem_of_fmap_2, elem_of_app. by left.
  - rewrite length_app. simpl. lia.
Qed.

Lemma admission_wf cfg s : wf s → wf (admission cfg (queue s) s).
Proof.
  apply (admission_preserves cfg wf).
  - intros s1 op rest Hq _ Hwf _. by apply wf_shift_reject.
  - intros s1 op rest Hq _ Hwf _. by apply wf_shift_dispatch.
Qed.

Lemma processQueue_wf cfg now later s : wf s → wf (processQueue cfg now later s).
Proof.
  intros Hwf. unfold processQueue.
  assert (wf (refillTokens cfg now s)) as H1 by (eapply wf_agree; [..|done]; by frame).
  apply (admission_wf cfg) in H1. set (s2 := admission cfg _ _) in *.
  case_match; (eapply wf_agree; [..|exact H1]); by frame.
Qed.

(** *** Insertion *)

Lemma insertByPriority_perm op q : insertByPriority op q ≡ₚ op :: q.
Proof.
  induction q as [|x q IH]; [done|]. simpl. case_match; [done|].
  rewrite IH. apply Permutation_swap.
Qed.

(** The new operation goes right before the first operation of strictly
    lower priority, and to the end when there is none. *)
Lemma insertByPriority_split op q :
  ∃ l1 l2, q = l1 ++ l2 ∧ insertByPriority op q = l1 ++ op :: l2
    ∧ Forall (λ x, priority op ≤ priority x) l1
    ∧ match l2 with [] => True | y :: _ => priority y < priority op end.
Proof.
  induction q as [|x q (l1 & l2 & Hq & Hins & Hl1 & Hl2)]; simpl.
  - by exists [], [].
  - destruct (priority x <? priority op) eqn:E.
    + exists [], (x :: q). repeat split; [done|]. lia.
    + exists (x :: l1), l2. rewrite Hq at 1. rewrite Hins. repeat split; [|done].
      constructor; [lia|done].
Qed.

Lemma insertByPriority_sorted op q :
  StronglySorted precedes q → Forall (λ x, (opId x < opId op)%nat) q →
  StronglySorted precedes (insertByPriority op q).
Proof.
  induction q as [|x q IH]; intros Hs Hf; simpl.
  - apply StronglySorted_cons. split; constructor.
  - apply StronglySorted_cons in Hs as [Hx Hs]. apply Forall_cons in Hf as [Hxf Hf].
    destruct (priority x <? priority op) eqn:E.
    + apply StronglySorted_cons. split; [|by apply StronglySorted_cons].
      constructor; [left; lia|]. rewrite Forall_forall in *. intros y Hy.
      left. destruct (Hx y Hy) as [?|[? ?]]; lia.
    + apply StronglySorted_cons. split; [|by apply IH].
      rewrite insertByPriority_perm. constructor; [|done].
      unfold precedes. destruct (decide (priority op = priority x)); [right|left]; lia.
Qed.

Lemma signal_of_accepted prio sg s g :
  aborted (signal_of (accepted prio sg s) g) = aborted (signal_of s g)
  ∧ listeners (signal_of (accepted prio sg s) g)
    = if decide (sg = Some g) then listeners (signal_of s g) ++ [nextOp s]
      else listeners (signal_of s g).
Proof.
  unfold accepted. destruct sg as [g'|].
  - rewrite (signal_of_agree _ (addEventListener g' (nextOp s) (newPromise s))) by done.
    destruct (signal_of_addEventListener g' (nextOp s) (newPromise s) g) as [-> ->].
    rewrite (signal_of_agree (newPromise s) s) by done.
    split; [done|]. destruct (decide (g' = g)) as [->|Hne].
    + by rewrite decide_True.
    + rewrite decide_False; [done|congruence].
  - rewrite (signal_of_agree _ s) by done. by rewrite decide_False.
Qed.

Lemma wf_accepted prio sg s : wf s → wf (accepted prio sg s).
Proof.
  intros [Hsort Hnd Hfresh Hpend Hunborn Hlis Hact].
  destruct (accepted_fields prio sg s)
    as (Hq & Ha & _ & _ & _ & _ & Hp & Hf & _ & Hn & _).
  set (op := {| opId := nextOp s; priority := prio; signal := sg |}) in *.
  assert (Forall (λ x, (opId x < opId op)%nat) (queue s ++ inflight s)) as Hlt by done.
  assert (opId op ∉ opId <$> (queue s ++ inflight s)) as Hnew.
  { intros (x & Hx & Hin)%list_elem_of_fmap. rewrite Forall_forall in Hlt.
    specialize (Hlt x Hin). simpl in Hlt, Hx. lia. }
  assert (queue (accepted prio sg s) ++ inflight s ≡ₚ op :: (queue s ++ inflight s)) as Hperm.
  { by rewrite Hq, insertByPriority_perm. }
  constructor; rewrite ?Hf, ?Hn, ?Hp, ?Ha; try done.
  - rewrite Hq. apply insertByPriority_sorted; [done|].
    apply Forall_app in Hlt. tauto.
  - rewrite Hperm. rewrite fmap_cons. by apply NoDup_cons.
  - rewrite Hperm. constructor; [simpl; lia|].
    eapply Forall_impl; [exact Hfresh|]. intros x Hx. simpl in Hx. lia.
  - rewrite Hperm. constructor; [|done]. by apply Hunborn.
  - intros p Hle. apply Hunborn. lia.
  - intros o g Ho Hsig. destruct (signal_of_accepted prio sg s g) as [_ ->].
    rewrite Hq, insertByPriority_perm in Ho. apply elem_of_cons in Ho as [->|Ho].
    + simpl in Hsig. subst sg. rewrite decide_True by done.
      apply elem_of_app. right. by apply list_elem_of_singleton.
    + pose proof (Hlis o g Ho Hsig). case_decide; [|done]. apply elem_of_app. by left.
Qed.

Lemma wf_newPromise s : wf s → wf (newPromise s).
Proof.
  intros [Hsort Hnd Hfresh Hpend Hunborn Hlis Hact]. constructor; try done.
  - eapply Forall_impl; [exact Hfresh|]. intros x Hx. simpl in *. lia.
  - intros p Hle. apply Hunborn. simpl in Hle. lia.
Qed.

(** A submission rejected on the spot settles its own promise and nothing
    else. *)
Lemma wf_rejected o s :
  wf s → wf (settle (nextOp s) o (newPromise s)).
Proof.
  intros Hwf. apply wf_settle_gone; [by apply wf_newPromise| |simpl; lia].
  simpl. intros (x & Hx & Hin)%list_elem_of_fmap.
  pose proof (wf_fresh _ Hwf) as Hf. rewrite Forall_forall in Hf.
  specialize (Hf x Hin). simpl in Hf. lia.
Qed.

Lemma enqueue_wf cfg prio sg now later s : wf s → wf (enqueue cfg prio sg now later s).
Proof.
  intros Hwf. rewrite enqueue_unfold. destruct (signal_aborted sg s) eqn:Hab.
  - by apply wf_rejected.
  - case_match; [by apply wf_rejected|]. by apply processQueue_wf, wf_accepted.
Qed.

(** *** Aborting *)

Lemma filter_all {A} (P : A → Prop) `{∀ x, Decision (P x)} (l : list A) :
  Forall P l → filter P l = l.
Proof.
  induction 1 as [|x l Hx _ IH]; [done|]. by rewrite filter_cons_True, IH.
Qed.

(** With distinct identities in the queue, [indexOf] and [splice] remove
    the operation and nothing else. *)
Lemma onAbort_queue id s :
  NoDup (opId <$> queue s) →
  queue (onAbort id s) = filter (λ o, opId o ≠ id) (queue s).
Proof.
  intros Hnd. unfold onAbort, indexOf.
  destruct (list_find (λ o, opId o = id) (queue s)) as [[i x]|] eqn:E; simpl.
  - apply list_find_split in E as (l1 & l2 & Hq & Hdel & Hx & Hl1).
    frame. rewrite Hdel, Hq. rewrite Hq in Hnd.
    rewrite filter_app, filter_cons_False by (intros ?; done).
    rewrite fmap_app, fmap_cons in Hnd.
    apply NoDup_app in Hnd as (_ & _ & Hnd). apply NoDup_cons in Hnd as [Hx2 _].
    rewrite !filter_all; [done| |].
    + apply Forall_forall. intros y Hy Heq. apply Hx2. rewrite Hx, <- Heq.
      by apply list_elem_of_fmap_2.
    + eapply Forall_impl; [done|]. by intros y Hy ?.
  - apply list_find_None in E. by rewrite filter_all.
Qed.

Lemma onAbort_absent id s : id ∉ opId <$> queue s → onAbort id s = s.
Proof.
  intros Hid. unfold onAbort, indexOf.
  destruct (list_find (λ o, opId o = id) (queue s)) as [[i x]|] eqn:E; [|done].
  apply list_find_Some in E as (Hi & Hx & _). exfalso. apply Hid. rewrite <- Hx.
  by eapply list_elem_of_fmap_2, list_elem_of_lookup_2.
Qed.

Lemma onAbort_present id s :
  id ∈ opId <$> queue s →
  promises (onAbort id s) = promises (settle id (Rejected AbortError) s).
Proof.
  intros (x & -> & Hin)%list_elem_of_fmap. unfold onAbort, indexOf.
  destruct (list_find (λ o, opId o = opId x) (queue s)) as [[i y]|] eqn:E; simpl.
  - unfold settle. frame. by case_match.
  - apply list_find_None in E. rewrite Forall_forall in E. by destruct (E x Hin).
Qed.

Lemma settle_monotone p o s q r :
  promises s !! q = Some r → promises (settle p o s) !! q = Some r.
Proof.
  intros Hq. unfold settle. destruct (promises s !! p) eqn:E; [done|]. simpl.
  rewrite lookup_insert_ne; [done|]. intros ->. congruence.
Qed.

Lemma settle_other p o s q : q ≠ p → promises (settle p o s) !! q = promises s !! q.
Proof.
  intros Hne. unfold settle. destruct (promises s !! p); [done|]. simpl.
  by rewrite lookup_insert_ne.
Qed.

Lemma fire_cons id ls s : fire (id :: ls) s = fire ls (onAbort id s).
Proof. done. Qed.

Lemma fire_queue ls s :
  NoDup (opId <$> queue s) →
  queue (fire ls s) = filter (λ o, opId o ∉ ls) (queue s).
Proof.
  revert s. induction ls as [|id ls IH]; intros s Hnd.
  - rewrite filter_all; [done|]. apply Forall_forall. intros x _. apply not_elem_of_nil.
  - rewrite fire_cons, IH.
    + rewrite onAbort_queue by done. rewrite list_filter_filter.
      apply list_filter_iff. intros x. rewrite not_elem_of_cons. tauto.
    + rewrite onAbort_queue by done. eapply NoDup_ids_sublist; [done|]. apply sublist_filter.
Qed.

Lemma fire_signals ls s : signals (fire ls s) = signals s.
Proof.
  revert s. induction ls as [|id ls IH]; intros s; [done|].
  rewrite fire_cons, IH.
  by destruct (onAbort_fields id s) as (_ & _ & _ & _ & _ & -> & _).
Qed.

(** Only promises of operations that leave the queue are touched. *)
Lemma fire_promises_other ls s p :
  NoDup (opId <$> queue s) →
  p ∉ opId <$> queue s ∨ p ∈ opId <$> queue (fire ls s) →
  promises (fire ls s) !! p = promises s !! p.
Proof.
  revert s. induction ls as [|id ls IH]; intros s Hnd Hp; [done|].
  rewrite fire_cons in *.
  assert (NoDup (opId <$> queue (onAbort id s))) as Hnd'.
  { rewrite onAbort_queue by done. eapply NoDup_ids_sublist; [done|]. apply sublist_filter. }
  assert (queue (onAbort id s) `sublist_of` queue s) as Hsub.
  { rewrite onAbort_queue by done. apply sublist_filter. }
  rewrite IH; [|done|].
  - destruct (decide (id ∈ opId <$> queue s)) as [Hin|Hout]; [|by rewrite onAbort_absent].
    rewrite onAbort_present by done. apply settle_other. intros ->.
    destruct Hp as [Hp|Hp]; [done|].
    apply list_elem_of_fmap in Hp as (x & Hx & Hxin).
    rewrite fire_queue in Hxin by done. rewrite onAbort_queue in Hxin by done.
    apply list_elem_of_filter in Hxin as [_ Hxin].
    apply list_elem_of_filter in Hxin as [Hne _]. done.
  - destruct Hp as [Hp|Hp]; [left|by right].
    intros Hin. apply Hp. eapply elem_of_sublist; [done|]. by apply fmap_sublist.
Qed.

Lemma fire_monotone ls s q r :
  promises s !! q = Some r → promises (fire ls s) !! q = Some r.
Proof.
  revert s. induction ls as [|id ls IH]; intros s Hq; [done|].
  rewrite fire_cons. apply IH.
  destruct (decide (id ∈ opId <$> queue s)) as [Hin|Hout]; [|by rewrite onAbort_absent].
  rewrite onAbort_present by done. by apply settle_monotone.
Qed.

(** A queued, pending operation whose listener runs is rejected with
    [AbortError]. *)
Lemma fire_promises_aborted ls s p :
  NoDup (opId <$> queue s) → p ∈ ls → p ∈ opId <$> queue s → promises s !! p = None →
  promises (fire ls s) !! p = Some (Rejected AbortError).
Proof.
  revert s. induction ls as [|id ls IH]; intros s Hnd Hp Hin Hpend; [by apply elem_of_nil in Hp|].
  rewrite fire_cons.
  destruct (decide (p = id)) as [->|Hne].
  - apply fire_monotone. rewrite onAbort_present by done.
    rewrite settle_pending by done. cbn. by rewrite lookup_insert_eq.
  - apply elem_of_cons in Hp as [?|Hp]; [done|].
    assert (queue (onAbort id s) = filter (λ o, opId o ≠ id) (queue s)) as Hq
      by (by apply onAbort_queue).
    apply IH; [| done | |].
    + rewrite Hq. eapply NoDup_ids_sublist; [done|]. apply sublist_filter.
    + rewrite Hq. apply list_elem_of_fmap in Hin as (x & -> & Hx).
      apply list_elem_of_fmap_2, list_elem_of_filter. done.
    + destruct (decide (id ∈ opId <$> queue s)) as [Hi|Ho]; [|by rewrite onAbort_absent].
      rewrite onAbort_present by done. by rewrite settle_other.
Qed.

Lemma abort_unfold g s :
  abort g s
  = if aborted (signal_of s g) then s
    else fire (listeners (signal_of s g))
              (set_signals (<[g := {| aborted := true; listeners := [] |}]> (signals s)) s).
Proof. done. Qed.

(** The abort in one piece is the abort in steps when nothing comes in
    between: the flag, then one [abortNext] per registered listener. *)
Lemma set_signals_twice m m' s : set_signals m (set_signals m' s) = set_signals m s.
Proof. done. Qed.

Lemma onAbort_set_signals m id s :
  onAbort id (set_signals m s) = set_signals m (onAbort id s).
Proof.
  unfold onAbort. cbn [queue set_signals]. destruct (indexOf id (queue s)); [|done].
  unfold settle. cbn [promises set_queue set_signals]. by destruct (promises s !! id).
Qed.

Lemma abortNext_all g ls s :
  aborted (signal_of s g) = true → listeners (signal_of s g) = ls →
  Nat.iter (length ls) (abortNext g) s
  = fire ls (set_signals (<[g := {| aborted := true; listeners := [] |}]> (signals s)) s).
Proof.
  revert s. induction ls as [|id ls IH]; intros s Hab Hls.
  - simpl. unfold signal_of in *. destruct (signals s !! g) as [[a l]|] eqn:E; [|done].
    simpl in *. subst. rewrite insert_id by done. by destruct s.
  - simpl length. rewrite Nat.iter_succ_r.
    assert (abortNext g s
            = onAbort id (set_signals (<[g := {| aborted := true; listeners := ls |}]>
                                         (signals s)) s)) as ->.
    { unfold abortNext. by rewrite Hab, Hls. }
    rewrite IH.
    + rewrite onAbort_set_signals.
      cbn [signals set_signals]. rewrite insert_insert_eq.
      rewrite set_signals_twice. rewrite fire_cons. by rewrite onAbort_set_signals.
    + rewrite onAbort_set_signals. unfold signal_of. cbn [signals set_signals].
      by rewrite lookup_insert_eq.
    + rewrite onAbort_set_signals. unfold signal_of. cbn [signals set_signals].
      by rewrite lookup_insert_eq.
Qed.

Lemma abort_stepwise g s :
  aborted (signal_of s g) = false →
  abort g s = Nat.iter (length (listeners (signal_of s g))) (abortNext g) (abortBegin g s).
Proof.
  intros Hab. rewrite abort_unfold, Hab. unfold abortBegin. rewrite Hab.
  rewrite (abortNext_all g (listeners (signal_of s g))).
  - cbn [signals set_signals]. by rewrite insert_insert_eq.
  - unfold signal_of at 1. cbn [signals set_signals]. by rewrite lookup_insert_eq.
  - unfold signal_of at 1. cbn [signals set_signals]. by rewrite lookup_insert_eq.
Qed.

Lemma abort_wf g s : wf s → wf (abort g s).
Proof.
  intros Hwf. rewrite abort_unfold. destruct (aborted (signal_of s g)) eqn:Hab; [done|].
  set (ls := listeners (signal_of s g)). set (s0 := set_signals _ s).
  pose proof Hwf as [Hsort Hnd Hfresh Hpend Hunborn Hlis Hact].
  assert (NoDup (opId <$> queue s0)) as Hndq.
  { rewrite fmap_app in Hnd. by apply NoDup_app in Hnd as [? _]. }
  pose proof (fire_queue ls s0 Hndq) as Hq. change (queue s0) with (queue s) in Hq.
  destruct (fire_fields ls s0) as (Ha & _ & _ & _ & _ & Hf & _ & Hn & _).
  change (activeCount s0) with (activeCount s) in Ha.
  change (inflight s0) with (inflight s) in Hf. change (nextOp s0) with (nextOp s) in Hn.
  assert (queue (fire ls s0) `sublist_of` queue s) as Hsubq.
  { rewrite Hq. apply sublist_filter. }
  assert (queue (fire ls s0) ++ inflight s `sublist_of` queue s ++ inflight s) as Hsub.
  { by apply sublist_app. }
  assert (∀ p : nat, p ∈ opId <$> (queue (fire ls s0) ++ inflight s) ∨ (nextOp s ≤ p)%nat →
            promises (fire ls s0) !! p = promises s !! p) as Hprom.
  { intros p Hp. rewrite fire_promises_other; [done|done|].
    change (queue s0) with (queue s). destruct Hp as [Hp|Hp].
    - rewrite fmap_app in Hp. apply elem_of_app in Hp as [Hp|Hp]; [by right|left].
      rewrite fmap_app in Hnd. apply NoDup_app in Hnd as (_ & Hdisj & _).
      intros Hin. by apply (Hdisj p).
    - left. intros (x & -> & Hx)%list_elem_of_fmap. rewrite Forall_forall in Hfresh.
      assert (x ∈ queue s ++ inflight s) as Hx' by (apply elem_of_app; by left).
      specialize (Hfresh x Hx'). simpl in Hfresh. lia. }
  constructor; rewrite ?Hf, ?Hn, ?Ha; try done.
  - by eapply StronglySorted_sublist.
  - eapply NoDup_ids_sublist; [exact Hnd|done].
  - eapply Forall_sublist; [exact Hfresh|done].
  - apply Forall_forall. intros o Ho. rewrite Hprom by (left; by apply list_elem_of_fmap_2).
    rewrite Forall_forall in Hpend. apply Hpend. by eapply elem_of_sublist.
  - intros p Hp. rewrite Hprom by (by right). by apply Hunborn.
  - intros o g' Ho Hsig. rewrite Hq in Ho. apply list_elem_of_filter in Ho as [Hout Ho].
    pose proof (Hlis o g' Ho Hsig) as Hin.
    destruct (decide (g' = g)) as [->|Hne]; [done|].
    rewrite (signal_of_agree _ s0) by apply fire_signals.
    unfold signal_of, s0. cbn [signals set_signals]. by rewrite lookup_insert_ne.
Qed.

(** *** Clearing, completing, and every step *)

Lemma drain_wf reject s : wf s → wf (drain reject (queue s) s).
Proof.
  remember (queue s) as q eqn:Hq. revert s Hq.
  induction q as [|op rest IH]; intros s Hq Hwf; simpl.
  - by rewrite Hq, set_queue_same.
  - symmetry in Hq. apply IH.
    + destruct reject; frame; by rewrite shift_queue.
    + destruct reject; [by apply wf_shift_reject|by apply wf_shift].
Qed.

Lemma clearQueue_wf reject s : wf s → wf (clearQueue reject s).
Proof.
  intros Hwf. unfold clearQueue.
  set (s1 := match refillTimeoutId s with Some _ => _ | None => s end).
  assert (wf s1) as H1.
  { subst s1. case_match; [|done]. by eapply wf_agree; [..|exact Hwf]. }
  assert (queue s1 = queue s) as Hq by (subst s1; by case_match).
  apply (drain_wf reject) in H1. eapply wf_agree; [..|exact H1]; by frame.
Qed.

Lemma complete_wf cfg id res now later s : wf s → wf (complete cfg id res now later s).
Proof.
  intros Hwf. unfold complete.
  destruct (list_find (λ o, opId o = id) (inflight s)) as [[i op]|] eqn:E; [|done].
  apply list_find_split in E as (l1 & l2 & Hfl & Hdel & Hid & _). rewrite Hdel.
  eapply wf_agree; [| | | | | |apply (processQueue_wf cfg now later)]; [by frame..|].
  destruct Hwf as [Hsort Hnd Hfresh Hpend Hunborn Hlis Hact]. rewrite Hfl in *.
  assert (queue s ++ l1 ++ op :: l2 ≡ₚ op :: (queue s ++ l1 ++ l2)) as Hperm.
  { rewrite !app_assoc. by rewrite <- Permutation_middle. }
  rewrite Hperm in Hnd, Hfresh, Hpend. rewrite fmap_cons in Hnd.
  apply NoDup_cons in Hnd as [Hop Hnd]. apply Forall_cons in Hfresh as [Hopf Hfresh].
  apply Forall_cons in Hpend as [_ Hpend]. subst id.
  apply wf_settle_gone; [|done|done].
  constructor; cbn [queue inflight nextOp promises activeCount
                    set_inflight set_activeCount]; try done.
  rewrite length_app in *. simpl in Hact. lia.
Qed.

(** The state a completion hands to [processQueue]. *)
Lemma completed_wf s i op res :
  wf s → list_find (λ o, opId o = opId op) (inflight s) = Some (i, op) →
  let s3 := settle (opId op) res
              (set_activeCount (activeCount s - 1) (set_inflight (delete i (inflight s)) s)) in
  wf s3 ∧ promises s3 = <[opId op := res]> (promises s) ∧ queue s3 = queue s
  ∧ (op ∉ inflight s3)
  ∧ (∀ op', op' ∈ inflight s → op' ≠ op → op' ∈ inflight s3).
Proof.
  intros Hwf E. cbv zeta.
  apply list_find_split in E as (l1 & l2 & Hfl & Hdel & _ & _). rewrite Hdel.
  pose proof Hwf as [Hsort Hnd Hfresh Hpend Hunborn Hlis Hact]. rewrite Hfl in *.
  assert (queue s ++ l1 ++ op :: l2 ≡ₚ op :: (queue s ++ l1 ++ l2)) as Hperm.
  { rewrite !app_assoc. by rewrite <- Permutation_middle. }
  rewrite Hperm in Hnd, Hfresh, Hpend. rewrite fmap_cons in Hnd.
  apply NoDup_cons in Hnd as [Hop Hnd]. apply Forall_cons in Hfresh as [Hopf Hfresh].
  apply Forall_cons in Hpend as [Hopp Hpend].
  split; [|split; [|split; [|split]]].
  - apply wf_settle_gone; [|done|done].
    constructor; cbn [queue inflight nextOp promises activeCount
                      set_inflight set_activeCount]; try done.
    rewrite length_app in *. simpl in Hact. lia.
  - by rewrite settle_pending.
  - by frame.
  - frame. intros Hin. apply Hop. apply list_elem_of_fmap_2, elem_of_app. by right.
  - frame. intros op' Hin Hne.
    apply elem_of_app in Hin as [?|Hin]; [apply elem_of_app; by left|].
    apply elem_of_cons in Hin as [?|?]; [done|]. apply elem_of_app. by right.
Qed.

Lemma timerFire_wf cfg fired now later s : wf s → wf (timerFire cfg fired now later s).
Proof.
  intros Hwf. unfold timerFire. case_match; [|done].
  apply processQueue_wf. eapply wf_agree; [..|exact Hwf]; by frame.
Qed.

Lemma abortBegin_wf g s : wf s → wf (abortBegin g s).
Proof.
  intros Hwf. unfold abortBegin. destruct (aborted (signal_of s g)) eqn:Hab; [done|].
  destruct Hwf as [Hsort Hnd Hfresh Hpend Hunborn Hlis Hact]. constructor; try done.
  intros op g' Hop Hsig. unfold signal_of. cbn [signals set_signals queue] in *.
  destruct (decide (g = g')) as [->|Hne].
  - rewrite lookup_insert_eq. by apply Hlis.
  - rewrite lookup_insert_ne by done. by apply Hlis.
Qed.

Lemma abortNext_wf g s : wf s → wf (abortNext g s).
Proof.
  intros Hwf. destruct (abortNext_unfold g s) as [->|(id & ls & Hab & Hls & ->)]; [done|].
  set (s0 := set_signals _ s).
  pose proof Hwf as [Hsort Hnd Hfresh Hpend Hunborn Hlis Hact].
  assert (NoDup (opId <$> queue s0)) as Hndq.
  { rewrite fmap_app in Hnd. by apply NoDup_app in Hnd as [? _]. }
  change (onAbort id s0) with (fire [id] s0).
  pose proof (fire_queue [id] s0 Hndq) as Hq. change (queue s0) with (queue s) in Hq.
  destruct (fire_fields [id] s0) as (Ha & _ & _ & _ & _ & Hf & _ & Hn & _).
  change (activeCount s0) with (activeCount s) in Ha.
  change (inflight s0) with (inflight s) in Hf. change (nextOp s0) with (nextOp s) in Hn.
  assert (queue (fire [id] s0) `sublist_of` queue s) as Hsubq.
  { rewrite Hq. apply sublist_filter. }
  assert (queue (fire [id] s0) ++ inflight s `sublist_of` queue s ++ inflight s) as Hsub.
  { by apply sublist_app. }
  assert (∀ p : nat, p ∈ opId <$> (queue (fire [id] s0) ++ inflight s) ∨ (nextOp s ≤ p)%nat →
            promises (fire [id] s0) !! p = promises s !! p) as Hprom.
  { intros p Hp. rewrite fire_promises_other; [done|done|].
    change (queue s0) with (queue s). destruct Hp as [Hp|Hp].
    - rewrite fmap_app in Hp. apply elem_of_app in Hp as [Hp|Hp]; [by right|left].
      rewrite fmap_app in Hnd. apply NoDup_app in Hnd as (_ & Hdisj & _).
      intros Hin. by apply (Hdisj p).
    - left. intros (x & -> & Hx)%list_elem_of_fmap. rewrite Forall_forall in Hfresh.
      assert (x ∈ queue s ++ inflight s) as Hx' by (apply elem_of_app; by left).
      specialize (Hfresh x Hx'). simpl in Hfresh. lia. }
  constructor; rewrite ?Hf, ?Hn, ?Ha; try done.
  - by eapply StronglySorted_sublist.
  - eapply NoDup_ids_sublist; [exact Hnd|done].
  - eapply Forall_sublist; [exact Hfresh|done].
  - apply Forall_forall. intros o Ho. rewrite Hprom by (left; by apply list_elem_of_fmap_2).
    rewrite Forall_forall in Hpend. apply Hpend. by eapply elem_of_sublist.
  - intros p Hp. rewrite Hprom by (by right). by apply Hunborn.
  - intros o g' Ho Hsig. rewrite Hq in Ho. apply list_elem_of_filter in Ho as [Hout Ho].
    pose proof (Hlis o g' Ho Hsig) as Hin.
    rewrite (signal_of_agree _ s0) by apply fire_signals.
    unfold signal_of, s0. cbn [signals set_signals].
    destruct (decide (g = g')) as [->|Hne].
    + rewrite lookup_insert_eq. simpl. rewrite Hls in Hin.
      apply elem_of_cons in Hin as [Heq|?]; [|done].
      exfalso. apply Hout. rewrite Heq. by left.
    + by rewrite lookup_insert_ne.
Qed.

Lemma step_wf cfg s e : wf s → wf (step cfg s e).
Proof.
  intros Hwf.
  destruct e as [prio sg now later|id res now later|g|g|g|fired now later|reject|]; simpl.
  - by apply enqueue_wf.
  - by apply complete_wf.
  - by apply abort_wf.
  - by apply abortBegin_wf.
  - by apply abortNext_wf.
  - by apply timerFire_wf.
  - by apply clearQueue_wf.
  - unfold onIdle. case_match; [done|]. by eapply wf_agree; [..|exact Hwf].
Qed.

Lemma init_wf cfg now : wf (init cfg now).
Proof.
  constructor; simpl; try done; try by constructor.
  intros op g Hop. by apply elem_of_nil in Hop.
Qed.

Lemma reachable_wf cfg s : reachable cfg s → wf s.
Proof.
  induction 1 as [now s Hc|s e _ IH]; [|by apply step_wf].
  unfold createLimit in Hc. case_match; [|done]. injection Hc as <-. apply init_wf.
Qed.

(** ** C9: what one admission loop does to the operations it pops *)

Lemma signal_aborted_agree sg s s' :
  (∀ g, aborted (signal_of s' g) = aborted (signal_of s g)) →
  signal_aborted sg s' = signal_aborted sg s.
Proof. intros H. destruct sg as [g|]; [apply H|done]. Qed.

Lemma shift_aborted op rest s g :
  aborted (signal_of (shift op rest s) g) = aborted (signal_of s g).
Proof.
  rewrite (signal_of_agree _ (removeEventListener op s)) by apply shift_signals.
  by destruct (signal_of_removeEventListener op s g) as [-> _].
Qed.

Lemma admission_outcome cfg s :
  wf s → admission_post cfg s (admission cfg (queue s) s).
Proof.
  intros Hwf. apply (admission_preserves cfg (admission_post cfg s)).
  - (* the popped operation is found aborted *)
    intros s1 x rest Hq Hcap (Hwf1 & Hab & Hoth & popped & Hpop & Hfl & Hac & Htok & Hops) Habx.
    destruct (shift_gone x rest s1 Hwf1 Hq) as (Hgone & Hlt & Hpx).
    destruct (shift_fields x rest s1) as (Ha & _ & Ht & _ & _ & Hp & Hf & _ & _ & _).
    assert (promises (settle (opId x) (Rejected AbortError) (shift x rest s1))
            = <[opId x := Rejected AbortError]> (promises s1)) as Hprom.
    { rewrite settle_pending by done. cbn. by rewrite Hp. }
    assert (signal_aborted (signal x) s = true) as Hxab.
    { rewrite <- Habx. symmetry. apply signal_aborted_agree. intros g.
      by rewrite shift_aborted. }
    rewrite Hq in Hpop.
    pose proof (wf_nodup _ Hwf) as Hnd. rewrite Hpop, fmap_app, fmap_app, fmap_cons in Hnd.
    apply NoDup_app in Hnd as [Hnd _]. apply NoDup_app in Hnd as (_ & Hdisj & _).
    split; [by apply wf_shift_reject|]. split; [|split].
    + intros g. rewrite (signal_of_agree _ (shift x rest s1)) by (by frame).
      by rewrite shift_aborted.
    + intros p Hp'. rewrite Hprom. rewrite lookup_insert_ne; [by apply Hoth|].
      intros <-. apply Hp'. rewrite Hpop. apply list_elem_of_fmap_2, elem_of_app.
      right. by left.
    + exists (popped ++ [x]). cbv zeta. frame. rewrite shift_queue, Hf, Ha, Ht.
      rewrite filter_app, filter_cons_False, filter_nil, app_nil_r by (by rewrite Hxab).
      split; [by rewrite <- app_assoc|]. split; [done|]. split; [done|]. split; [done|].
      intros op Hop. rewrite Hprom. apply elem_of_app in Hop as [Hop|Hop].
      * rewrite lookup_insert_ne; [by apply Hops|].
        intros Heq. apply (Hdisj (opId op)); [by apply list_elem_of_fmap_2|].
        rewrite <- Heq. by left.
      * apply list_elem_of_singleton in Hop as ->. by rewrite lookup_insert_eq, Hxab.
  - (* the popped operation is dispatched *)
    intros s1 x rest Hq Hcap (Hwf1 & Hab & Hoth & popped & Hpop & Hfl & Hac & Htok & Hops) Habx.
    destruct (shift_gone x rest s1 Hwf1 Hq) as (Hgone & Hlt & Hpx).
    destruct (shift_fields x rest s1) as (Ha & _ & Ht & _ & _ & Hp & Hf & _ & _ & _).
    destruct (dispatch_fields cfg x (shift x rest s1))
      as (Hdq & Hda & _ & _ & _ & Hds & Hdp & Hdf & _).
    assert (signal_aborted (signal x) s = false) as Hxab.
    { rewrite <- Habx. symmetry. apply signal_aborted_agree. intros g.
      by rewrite shift_aborted. }
    rewrite Hq in Hpop.
    split; [by apply wf_shift_dispatch|]. split; [|split].
    + intros g. rewrite (signal_of_agree _ (shift x rest s1)) by done.
      by rewrite shift_aborted.
    + intros p Hp'. rewrite Hdp, Hp. by apply Hoth.
    + exists (popped ++ [x]). cbv zeta. rewrite Hdq, Hda, Hdf, Hdp, dispatch_tokens.
      rewrite shift_queue, Hf, Ha, Ht, Hp.
      rewrite filter_app, filter_cons_True, filter_nil by done.
      split; [by rewrite <- app_assoc|]. split; [by rewrite Hfl, <- app_assoc|].
      rewrite !length_app. simpl. split; [lia|]. split.
      * rewrite Htok. destruct (rate cfg), (tokens s); try done. f_equal. lia.
      * intros op Hop. apply elem_of_app in Hop as [Hop|Hop]; [by apply Hops|].
        apply list_elem_of_singleton in Hop as ->. rewrite Hxab.
        by rewrite <- Hp.
  - split; [done|]. split; [done|]. split; [done|]. exists []. simpl.
    rewrite app_nil_r, Z.add_0_r. repeat split; try done.
    + destruct (rate cfg), (tokens s); try done. f_equal. lia.
    + by intros op ?%elem_of_nil.
Qed.

(** C9.  On a consistent state whose queue starts with [op] and which has
    capacity, the iteration of the loop does one of two things.  If the
    signal of [op] is aborted, the promise of [op] is rejected with
    [AbortError], [activeCount], the bucket and the dispatched operations
    stay as they are, and the loop goes on with the rest of the queue.
    Otherwise [op] is dispatched: [activeCount] goes up by one, the bucket
    down by one token when a rate is set, and the loop goes on with the
    rest.  Over the whole loop, [activeCount] grows by the number of
    dispatched operations, the bucket shrinks by that number, and the popped
    operations with an aborted signal are rejected with [AbortError]. *)
Theorem admission_skips_aborted (cfg : LimitOptions) (s : Limiter) :
  wf s →
  (∀ op rest, queue s = op :: rest → has_capacity cfg s = true →
     let s1 := shift op rest s in
     signal_aborted (signal op) s1 = signal_aborted (signal op) s
     ∧ (signal_aborted (signal op) s = true →
          let s2 := settle (opId op) (Rejected AbortError) s1 in
          admission cfg (queue s) s = admission cfg rest s2
          ∧ promises s2 !! opId op = Some (Rejected AbortError)
          ∧ activeCount s2 = activeCount s ∧ tokens s2 = tokens s
          ∧ inflight s2 = inflight s)
     ∧ (signal_aborted (signal op) s = false →
          let s2 := dispatch cfg op s1 in
          admission cfg (queue s) s = admission cfg rest s2
          ∧ promises s2 = promises s
          ∧ activeCount s2 = activeCount s + 1
          ∧ tokens s2 = match rate cfg, tokens s with
                        | Some _, Fin t => Fin (t - 1)
                        | _, _ => tokens s
                        end
          ∧ inflight s2 = inflight s ++ [op]))
  ∧ admission_post cfg s (admission cfg (queue s) s).
Proof.
  intros Hwf. split; [|by apply admission_outcome].
  intros op rest Hq Hcap. cbv zeta.
  assert (signal_aborted (signal op) (shift op rest s) = signal_aborted (signal op) s)
    as Hsame.
  { apply signal_aborted_agree. intros g. apply shift_aborted. }
  destruct (shift_fields op rest s) as (Ha & _ & Ht & _ & _ & Hp & Hf & _ & _ & _).
  destruct (shift_gone op rest s Hwf Hq) as (_ & _ & Hpend).
  split; [done|]. split; intros Hab.
  - split; [rewrite Hq; simpl; by rewrite Hcap, Hsame, Hab|].
    destruct (settle_fields (opId op) (Rejected AbortError) (shift op rest s))
      as (_ & -> & _ & -> & _ & _ & _ & -> & _).
    rewrite settle_pending by done. by rewrite lookup_insert_eq, Ha, Ht, Hf.
  - split; [rewrite Hq; simpl; by rewrite Hcap, Hsame, Hab|].
    rewrite dispatch_tokens.
    destruct (dispatch_fields cfg op (shift op rest s))
      as (_ & -> & _ & _ & _ & _ & -> & -> & _).
    by rewrite Ha, Ht, Hf, Hp.
Qed.

Lemma admission_skips_aborted_witness :
  let cfg := {| concurrency := Inf; rate := Some 1; interval := 100; maxQueueSize := Inf |} in
  let s0 := run cfg 0 [Submit 0 None 0 0; Submit 0 (Some 7%nat) 0 0; AbortBegin 7] in
  let s := refillTokens cfg 150 (accepted 0 None s0) in
  let s' := admission cfg (queue s) s in
  wf s
  ∧ (opId <$> queue s) = [1; 2]%nat ∧ activeCount s = 1 ∧ tokens s = Fin 1
  ∧ ((λ op, signal_aborted (signal op) s) <$> queue s) = [true; false]
  ∧ queue s' = [] ∧ activeCount s' = 2 ∧ tokens s' = Fin 0
  ∧ promises s' !! 1%nat = Some (Rejected AbortError)
  ∧ admission_post cfg s s'.
Proof.
  intros cfg s0 s s'.
  assert (Hwf : wf s).
  { eapply wf_agree; [..|apply (wf_accepted 0 None), (reachable_wf cfg), (reachable_run cfg 0);
                         reflexivity]; reflexivity. }
  split; [exact Hwf|]. do 3 (split; [reflexivity|]). split; [vm_compute; reflexivity|].
  do 3 (split; [reflexivity|]). split; [vm_compute; reflexivity|].
  exact (proj2 (admission_skips_aborted cfg s Hwf)).
Defined.

(** ** C2: priority order, first in first out within a priority *)

Lemma StronglySorted_lookup {A} (R : relation A) (l : list A) i j a b :
  StronglySorted R l → l !! i = Some a → l !! j = Some b → (i < j)%nat → R a b.
Proof.
  intros Hs Hi Hj Hlt.
  rewrite <- (take_drop_middle l j b Hj) in Hs.
  eapply StronglySorted_app_1_elem_of; [done| |by left].
  apply list_elem_of_lookup. exists i. by rewrite lookup_take_lt.
Qed.

(** What a pass takes from the queue is a prefix of it, whose operations come
    before all those that stay; it starts, in queue order, those of them
    whose signal is not aborted. *)
Lemma processQueue_pops cfg now later t :
  wf t →
  let t' := processQueue cfg now later t in
  ∃ popped,
    queue t = popped ++ queue t'
    ∧ inflight t' = inflight t ++ filter (λ op, signal_aborted (signal op) t = false) popped
    ∧ ∀ a b, a ∈ popped → b ∈ queue t' → precedes a b.
Proof.
  intros Hwf. cbv zeta.
  assert (wf (refillTokens cfg now t)) as H1 by (eapply wf_agree; [..|done]; by frame).
  destruct (admission_outcome cfg _ H1) as (_ & _ & _ & popped & Hpop & Hfl & _).
  cbv zeta in *. set (t1 := refillTokens cfg now t) in *.
  set (t2 := admission cfg (queue t1) t1) in *.
  assert (queue (processQueue cfg now later t) = queue t2
          ∧ inflight (processQueue cfg now later t) = inflight t2) as (-> & ->).
  { unfold processQueue. fold t1 t2. case_match; by frame. }
  assert (queue t1 = queue t ∧ inflight t1 = inflight t) as [Hq1 Hf1] by (subst t1; by frame).
  exists popped. rewrite <- Hq1, <- Hf1. split; [done|]. split.
  - rewrite Hfl. f_equal. apply list_filter_iff. intros op.
    by rewrite (signal_aborted_agree (signal op) t t1)
      by (intros g; by rewrite (signal_of_agree t1 t) by (subst t1; by frame)).
  - intros a b Ha Hb. pose proof (wf_sorted _ H1) as Hs. rewrite Hpop in Hs.
    by eapply StronglySorted_app_1_elem_of.
Qed.

(** C2.  [insertByPriority], which is what a submission does to the queue,
    puts the operation right before the first queued operation of strictly
    lower priority, at the end when there is none.  Consequently, on every
    reachable state: of two queued operations [a], submitted first, and [b],
    with [priority a >= priority b], [a] stands before [b] (so equal
    priorities keep submission order), and the head of the queue has the
    highest priority and is the earliest submitted among those of that
    priority.  The admission loop runs on the consistent states that a
    submission, a completion and the refill timeout hand to it: on such a
    state the head comes before all the others and is what an iteration
    shifts, and a pass takes a prefix of the queue, starts its operations in
    queue order, and leaves behind only operations that come after all of
    them.  So whatever a callback starts comes before whatever it leaves
    queued. *)
Theorem queue_priority_fifo (cfg : LimitOptions) (s : Limiter) :
  reachable cfg s →
  (∀ op q, ∃ l1 l2,
     q = l1 ++ l2 ∧ insertByPriority op q = l1 ++ op :: l2
     ∧ Forall (λ x, priority op ≤ priority x) l1
     ∧ match l2 with [] => True | y :: _ => priority y < priority op end)
  ∧ (∀ prio sg,
       queue (accepted prio sg s)
       = insertByPriority {| opId := nextOp s; priority := prio; signal := sg |} (queue s)
       ∧ Forall (λ x, (opId x < nextOp s)%nat) (queue s)
       ∧ wf (accepted prio sg s))
  ∧ (∀ i j a b, queue s !! i = Some a → queue s !! j = Some b →
       (opId a < opId b)%nat → priority b ≤ priority a → (i < j)%nat)
  ∧ (∀ a rest, queue s = a :: rest →
       Forall (λ b, priority b ≤ priority a
                    ∧ (priority b = priority a → (opId a < opId b)%nat)) rest)
  ∧ (∀ t a rest, wf t → queue t = a :: rest →
       Forall (λ b, priority b ≤ priority a
                    ∧ (priority b = priority a → (opId a < opId b)%nat)) rest
       ∧ queue (shift a rest t) = rest
       ∧ (has_capacity cfg t = true →
          admission cfg (queue t) t
          = admission cfg rest
              (if signal_aborted (signal a) (shift a rest t)
               then settle (opId a) (Rejected AbortError) (shift a rest t)
               else dispatch cfg a (shift a rest t))))
  ∧ (∀ t now later, wf t →
       let t' := processQueue cfg now later t in
       ∃ popped,
         queue t = popped ++ queue t'
         ∧ inflight t' = inflight t
                         ++ filter (λ op, signal_aborted (signal op) t = false) popped
         ∧ ∀ a b, a ∈ popped → b ∈ queue t' → precedes a b)
  ∧ (∀ e, let s' := step cfg s e in
       ∀ a b, a ∈ inflight s' → (a ∉ inflight s) → b ∈ queue s' → precedes a b).
Proof.
  intros Hwf%reachable_wf. pose proof Hwf as [Hsort Hnd Hfresh Hpend Hunborn Hlis Hact].
  split; [apply insertByPriority_split|]. split; [|split; [|split; [|split; [|split]]]].
  - intros prio sg. split; [by destruct (accepted_fields prio sg s) as (-> & _)|].
    split; [|by apply wf_accepted]. apply Forall_app in Hfresh. tauto.
  - intros i j a b Hi Hj Hid Hprio.
    destruct (Nat.lt_trichotomy i j) as [?|[->|Hji]]; [done| |].
    + rewrite Hi in Hj. injection Hj as ->. lia.
    + destruct (StronglySorted_lookup _ _ _ _ _ _ Hsort Hj Hi Hji) as [?|[? ?]]; lia.
  - intros a rest Hq. rewrite Hq in Hsort. apply StronglySorted_cons in Hsort as [Ha _].
    eapply Forall_impl; [done|]. intros b [?|[? ?]]; split; lia.
  - intros t a rest Ht Hq. split; [|split].
    + pose proof (wf_sorted _ Ht) as Hs. rewrite Hq in Hs.
      apply StronglySorted_cons in Hs as [Ha _].
      eapply Forall_impl; [done|]. intros b [?|[? ?]]; split; lia.
    + apply shift_queue.
    + intros Hcap. rewrite Hq. simpl. rewrite Hcap. by case_match.
  - intros t now later Ht. by apply processQueue_pops.
  - intros e. cbv zeta. intros a b Ha Hnew Hb.
    assert (∀ t now later, wf t → (∀ x, x ∈ inflight t → x ∈ inflight s) →
              a ∈ inflight (processQueue cfg now later t) →
              b ∈ queue (processQueue cfg now later t) → precedes a b) as Hpass.
    { intros t now later Ht Hsub Ha' Hb'.
      destruct (processQueue_pops cfg now later t Ht) as (popped & _ & Hfl & Hprec).
      rewrite Hfl in Ha'. apply elem_of_app in Ha' as [Ha'|Ha']; [by apply Hsub in Ha'|].
      apply list_elem_of_filter in Ha' as [_ Ha']. by apply Hprec. }
    destruct e as [prio sg now later|id res now later|g|g|g|fired now later|reject|];
      simpl in Ha, Hb.
    + rewrite enqueue_unfold in Ha, Hb.
      destruct (signal_aborted sg s); [by unfold newPromise in Ha; revert Ha; frame|].
      destruct (num_leb _ _); [by unfold newPromise in Ha; revert Ha; frame|].
      apply (Hpass (accepted prio sg s) now later); [by apply wf_accepted| |done|done].
      by destruct (accepted_fields prio sg s) as (_ & _ & _ & _ & _ & _ & _ & -> & _).
    + unfold complete in Ha, Hb.
      destruct (list_find (λ o, opId o = id) (inflight s)) as [[i op]|] eqn:E; [|done].
      pose proof E as (_ & <- & _)%list_find_Some.
      destruct (completed_wf s i op res Hwf E) as (Hwf3 & _).
      revert Ha Hb. frame. intros Ha Hb.
      match type of Ha with a ∈ inflight (processQueue cfg now later ?m) =>
        apply (Hpass m now later); [exact Hwf3| |done|done] end.
      frame. intros x Hx. eapply sublist_subseteq; [apply sublist_delete|exact Hx].
    + by destruct (abort_fields g s) as (_ & _ & _ & _ & _ & Hf & _); rewrite Hf in Ha.
    + by destruct (abortBegin_fields g s) as (_ & _ & _ & _ & _ & _ & _ & Hf & _);
        rewrite Hf in Ha.
    + by destruct (abortNext_fields g s) as (_ & _ & _ & _ & _ & Hf & _); rewrite Hf in Ha.
    + unfold timerFire in Ha, Hb. destruct (refillTimeoutId s); [|done].
      match type of Ha with a ∈ inflight (processQueue cfg now later ?m) =>
        apply (Hpass m now later); [| |done|done] end.
      * eapply wf_agree; [..|exact Hwf]; by frame.
      * by frame.
    + by destruct (clearQueue_fields reject s) as (_ & _ & _ & _ & _ & Hf & _);
        rewrite Hf in Ha.
    + unfold onIdle in Ha. by destruct (_ && _).
Qed.

Lemma queue_priority_fifo_witness :
  let cfg := {| concurrency := Fin 1; rate := None; interval := 1000; maxQueueSize := Inf |} in
  let s := run cfg 0 [Submit 0 None 0 0; Submit 1 None 0 0; Submit 10 None 0 0;
                      Submit 5 None 0 0; Submit 10 None 0 0] in
  let s' := step cfg s (Complete 0 (Fulfilled 1) 7 7) in
  let t := settle 0 (Fulfilled 1)
             (set_activeCount (activeCount s - 1)
                (set_inflight (delete 0%nat (inflight s)) s)) in
  let a := {| opId := 2; priority := 10; signal := None |} in
  let rest := [{| opId := 4; priority := 10; signal := None |};
               {| opId := 3; priority := 5; signal := None |};
               {| opId := 1; priority := 1; signal := None |}] in
  reachable cfg s
  ∧ (priority <$> queue s) = [10; 10; 5; 1]
  ∧ (opId <$> queue s) = [2; 4; 3; 1]%nat ∧ (opId <$> inflight s) = [0%nat]
  ∧ (opId <$> queue s') = [4; 3; 1]%nat ∧ (opId <$> inflight s') = [2%nat]
  ∧ s' = checkIdle (processQueue cfg 7 7 t)
  ∧ wf t ∧ queue t = a :: rest ∧ has_capacity cfg t = true
  ∧ queue (shift a rest t) = rest
  ∧ (∀ i j a b, queue s !! i = Some a → queue s !! j = Some b →
       (opId a < opId b)%nat → priority b ≤ priority a → (i < j)%nat)
  ∧ (∀ a b, a ∈ inflight s' → (a ∉ inflight s) → b ∈ queue s' → precedes a b).
Proof.
  intros cfg s s' t a rest.
  assert (Hr : reachable cfg s) by (apply reachable_run; reflexivity).
  assert (Ht : wf t).
  { apply (completed_wf s 0 {| opId := 0; priority := 0; signal := None |} (Fulfilled 1));
      [exact (reachable_wf cfg s Hr)|vm_compute; reflexivity]. }
  assert (Hq : queue t = a :: rest) by reflexivity.
  split; [exact Hr|]. do 6 (split; [reflexivity|]). split; [exact Ht|].
  split; [exact Hq|]. split; [reflexivity|]. split; [|split].
  - exact (proj1 (proj2 (proj1 (proj2 (proj2 (proj2 (proj2 (queue_priority_fifo cfg s Hr)))))
                          t a rest Ht Hq))).
  - exact (proj1 (proj2 (proj2 (queue_priority_fifo cfg s Hr)))).
  - exact (proj2 (proj2 (proj2 (proj2 (proj2 (proj2 (queue_priority_fifo cfg s Hr))))))
             (Complete 0 (Fulfilled 1) 7 7)).
Defined.

(** ** C10 and the abort in one piece *)

(** A submission rejected on the spot: only its own promise and the counter
    that names promises change. *)
Lemma rejected_fields o s :
  wf s →
  let s' := settle (nextOp s) o (newPromise s) in
  promises s' = <[nextOp s := o]> (promises s)
  ∧ queue s' = queue s ∧ activeCount s' = activeCount s
  ∧ idleResolvers s' = idleResolvers s ∧ tokens s' = tokens s
  ∧ lastRefill s' = lastRefill s ∧ refillTimeoutId s' = refillTimeoutId s
  ∧ signals s' = signals s ∧ inflight s' = inflight s
  ∧ idleResolved s' = idleResolved s.
Proof.
  intros Hwf. cbv zeta. rewrite settle_pending by (apply (wf_unborn _ Hwf); simpl; lia).
  unfold newPromise. by frame.
Qed.

Lemma abort_queue g s :
  wf s → aborted (signal_of s g) = false →
  queue (abort g s) = filter (λ o, opId o ∉ listeners (signal_of s g)) (queue s).
Proof.
  intros Hwf Hab. rewrite abort_unfold, Hab. rewrite fire_queue; [done|].
  pose proof (wf_nodup _ Hwf) as Hnd. rewrite fmap_app in Hnd.
  by apply NoDup_app in Hnd as [? _].
Qed.

Lemma abort_removes g op s :
  wf s → aborted (signal_of s g) = false → op ∈ queue s → signal op = Some g →
  (op ∉ queue (abort g s))
  ∧ promises (abort g s) !! opId op = Some (Rejected AbortError)
  ∧ queue (abort g s) `sublist_of` queue s.
Proof.
  intros Hwf Hab Hop Hsig. pose proof (wf_listening _ Hwf op g Hop Hsig) as Hin.
  rewrite abort_queue by done. split; [|split; [|apply sublist_filter]].
  - intros [Hout _]%list_elem_of_filter. done.
  - rewrite abort_unfold, Hab. pose proof (wf_nodup _ Hwf) as Hnd. rewrite fmap_app in Hnd.
    apply NoDup_app in Hnd as [Hnd _]. apply fire_promises_aborted; [done|done| |].
    + by apply list_elem_of_fmap_2.
    + pose proof (wf_pending _ Hwf) as Hpend. rewrite Forall_forall in Hpend.
      apply Hpend, elem_of_app. by left.
Qed.

Lemma abort_promises_other g s p :
  wf s → (p ∉ opId <$> queue s) → promises (abort g s) !! p = promises s !! p.
Proof.
  intros Hwf Hp. rewrite abort_unfold. case_match; [done|].
  rewrite fire_promises_other; [done| |by left].
  pose proof (wf_nodup _ Hwf) as Hnd. rewrite fmap_app in Hnd.
  by apply NoDup_app in Hnd as [? _].
Qed.

Lemma inflight_not_queued s op : wf s → op ∈ inflight s → opId op ∉ opId <$> queue s.
Proof.
  intros Hwf Hop Hin. pose proof (wf_nodup _ Hwf) as Hnd. rewrite fmap_app in Hnd.
  apply NoDup_app in Hnd as (_ & Hdisj & _). apply (Hdisj _ Hin).
  by apply list_elem_of_fmap_2.
Qed.

(** C10.  On every reachable state, a submission whose signal is already
    aborted and which finds the queue at [maxQueueSize] is rejected with
    [AbortError], not with [QueueFullError]: the test of the signal comes
    first. *)
Theorem aborted_before_queue_full (cfg : LimitOptions) (s : Limiter) (prio : Z) (g : nat)
    (now later : Z) :
  reachable cfg s →
  aborted (signal_of s g) = true →
  num_leb (maxQueueSize cfg) (Fin (Z.of_nat (length (queue s)))) = true →
  let s' := enqueue cfg prio (Some g) now later s in
  promises s' !! nextOp s = Some (Rejected AbortError)
  ∧ promises s' !! nextOp s ≠ Some (Rejected QueueFullError)
  ∧ queue s' = queue s.
Proof.
  intros Hwf%reachable_wf Hab Hfull. cbv zeta. rewrite enqueue_unfold. simpl. rewrite Hab.
  destruct (rejected_fields (Rejected AbortError) s Hwf) as (-> & -> & _).
  by rewrite lookup_insert_eq.
Qed.

Lemma aborted_before_queue_full_witness :
  let cfg := {| concurrency := Fin 1; rate := None; interval := 1000; maxQueueSize := Fin 1 |} in
  let s := run cfg 0 [Submit 0 None 0 0; Submit 0 None 0 0; Abort 7] in
  let s' := enqueue cfg 0 (Some 7%nat) 5 5 s in
  reachable cfg s ∧ aborted (signal_of s 7%nat) = true ∧ length (queue s) = 1%nat
  ∧ nextOp s = 2%nat
  ∧ promises s' !! 2%nat = Some (Rejected AbortError).
Proof.
  intros cfg s s'.
  assert (Hr : reachable cfg s) by (apply reachable_run; reflexivity).
  assert (Hab : aborted (signal_of s 7%nat) = true) by (vm_compute; reflexivity).
  assert (Hfull : num_leb (maxQueueSize cfg) (Fin (Z.of_nat (length (queue s)))) = true)
    by (vm_compute; reflexivity).
  split; [exact Hr|]. split; [exact Hab|]. split; [reflexivity|]. split; [reflexivity|].
  exact (proj1 (aborted_before_queue_full cfg s 0 7%nat 5 5 Hr Hab Hfull)).
Defined.

(** ** C6: a full queue *)

(** An operation that is queued with a signal that is not aborted is, after
    an admission pass, still queued or dispatched. *)
Lemma processQueue_keeps cfg now later s op :
  wf s → op ∈ queue s → signal_aborted (signal op) s = false →
  let s' := processQueue cfg now later s in
  (op ∈ queue s' ∨ op ∈ inflight s') ∧ promises s' !! opId op = None.
Proof.
  intros Hwf Hop Hab. cbv zeta.
  assert (wf (refillTokens cfg now s)) as H1 by (eapply wf_agree; [..|done]; by frame).
  destruct (admission_outcome cfg _ H1)
    as (Hwf2 & _ & _ & popped & Hpop & Hfl & _ & _ & Hprom).
  cbv zeta in *. set (s1 := refillTokens cfg now s) in *.
  set (s2 := admission cfg (queue s1) s1) in *.
  assert (signal_aborted (signal op) s1 = false) as Hab1.
  { rewrite <- Hab. apply signal_aborted_agree. intros g. by rewrite (signal_of_agree s1 s) by (subst s1; by frame). }
  assert (queue (processQueue cfg now later s) = queue s2
          ∧ inflight (processQueue cfg now later s) = inflight s2
          ∧ promises (processQueue cfg now later s) = promises s2) as (-> & -> & ->).
  { unfold processQueue. fold s1 s2. case_match; by frame. }
  assert (op ∈ queue s1) as Hop1 by (subst s1; by frame).
  rewrite Hpop in Hop1. apply elem_of_app in Hop1 as [Hin|Hin].
  - split.
    + right. rewrite Hfl. apply elem_of_app. right. by apply list_elem_of_filter.
    + by rewrite (Hprom op Hin), Hab1.
  - split; [by left|]. pose proof (wf_pending _ Hwf2) as Hpend.
    rewrite Forall_forall in Hpend. apply Hpend, elem_of_app. by left.
Qed.

(** C6, as the code has it.  Under [maxQueueSize = N], a submission that
    finds [N] or more operations queued is rejected, alone: with
    [QueueFullError], or with [AbortError] when its signal is already
    aborted; no other promise, and nothing else of the limiter, changes.  A
    submission that finds fewer than [N] queued, and whose signal is not
    aborted, is inserted and an admission pass runs, after which the
    operation is queued or dispatched and its promise pending. *)
Theorem queue_full_rejects (cfg : LimitOptions) (s : Limiter) (N : Z) :
  reachable cfg s → maxQueueSize cfg = Fin N →
  ∀ prio sg now later,
    let s' := enqueue cfg prio sg now later s in
    let op := {| opId := nextOp s; priority := prio; signal := sg |} in
    (N ≤ Z.of_nat (length (queue s)) →
       promises s' = <[nextOp s := Rejected (if signal_aborted sg s then AbortError
                                             else QueueFullError)]> (promises s)
       ∧ queue s' = queue s ∧ activeCount s' = activeCount s
       ∧ idleResolvers s' = idleResolvers s ∧ tokens s' = tokens s
       ∧ lastRefill s' = lastRefill s ∧ refillTimeoutId s' = refillTimeoutId s
       ∧ signals s' = signals s ∧ inflight s' = inflight s
       ∧ idleResolved s' = idleResolved s)
    ∧ (Z.of_nat (length (queue s)) < N → signal_aborted sg s = false →
         s' = processQueue cfg now later (accepted prio sg s)
         ∧ (op ∈ queue s' ∨ op ∈ inflight s')
         ∧ promises s' !! nextOp s = None).
Proof.
  intros Hwf%reachable_wf HN prio sg now later. cbv zeta. rewrite enqueue_unfold, HN. simpl.
  split.
  - intros Hfull. destruct (signal_aborted sg s).
    + by apply rejected_fields.
    + destruct (N <=? Z.of_nat (length (queue s))) eqn:E; [|lia]. by apply rejected_fields.
  - intros Hroom Hab. rewrite Hab.
    destruct (N <=? Z.of_nat (length (queue s))) eqn:E; [lia|]. split; [done|].
    apply (processQueue_keeps cfg now later (accepted prio sg s)
             {| opId := nextOp s; priority := prio; signal := sg |}).
    + by apply wf_accepted.
    + destruct (accepted_fields prio sg s) as (-> & _).
      rewrite insertByPriority_perm. by left.
    + simpl. rewrite <- Hab. apply signal_aborted_agree. intros g.
      by destruct (signal_of_accepted prio sg s g) as [-> _].
Qed.

Lemma queue_full_rejects_witness :
  let cfg := {| concurrency := Fin 1; rate := None; interval := 1000; maxQueueSize := Fin 2 |} in
  let s := run cfg 0 [Submit 0 None 0 0; Submit 0 None 10 10; Submit 0 None 10 10] in
  let s' := enqueue cfg 0 None 10 10 s in
  reachable cfg s ∧ maxQueueSize cfg = Fin 2 ∧ length (queue s) = 2%nat
  ∧ nextOp s = 3%nat
  ∧ promises s' = <[3%nat := Rejected QueueFullError]> (promises s)
  ∧ queue s' = queue s.
Proof.
  intros cfg s s'.
  assert (Hr : reachable cfg s) by (apply reachable_run; reflexivity).
  assert (HN : maxQueueSize cfg = Fin 2) by reflexivity.
  assert (Hfull : 2 ≤ Z.of_nat (length (queue s))) by (vm_compute; discriminate).
  destruct (queue_full_rejects cfg s 2 Hr HN 0 None 10 10) as [H _].
  destruct (H Hfull) as (Hp & Hq & _).
  split; [exact Hr|]. split; [exact HN|]. split; [reflexivity|]. split; [reflexivity|].
  split; [exact Hp|exact Hq].
Defined.

(** A submission that finds the queue full, or with room, but carries a
    signal that is already aborted: rejected with [AbortError] in the first
    run, and not queued in the second. *)
Lemma queue_full_not_always_QueueFull :
  let cfg := {| concurrency := Fin 1; rate := None; interval := 1000; maxQueueSize := Fin 1 |} in
  let s := run cfg 0 [Submit 0 None 0 0; Submit 0 None 0 0; Abort 7] in
  let s' := step cfg s (Submit 0 (Some 7%nat) 5 5) in
  let cfg2 := {| concurrency := Fin 1; rate := None; interval := 1000; maxQueueSize := Fin 5 |} in
  let r := run cfg2 0 [Submit 0 None 0 0; Submit 0 None 0 0; Abort 7] in
  let r' := step cfg2 r (Submit 0 (Some 7%nat) 5 5) in
  (reachable cfg s ∧ length (queue s) = 1%nat ∧ nextOp s = 2%nat
   ∧ promises s' !! 2%nat = Some (Rejected AbortError)
   ∧ promises s' !! 2%nat ≠ Some (Rejected QueueFullError))
  ∧ (reachable cfg2 r ∧ length (queue r) = 1%nat ∧ nextOp r = 2%nat
     ∧ (opId <$> queue r') = [1%nat] ∧ inflight r' = inflight r
     ∧ promises r' !! 2%nat = Some (Rejected AbortError)).
Proof.
  intros cfg s s' cfg2 r r'. split.
  - split; [apply reachable_run; reflexivity|]. split; [reflexivity|]. split; [reflexivity|].
    assert (promises s' !! 2%nat = Some (Rejected AbortError)) as H
      by (vm_compute; reflexivity).
    split; [exact H|]. rewrite H. discriminate.
  - split; [apply reachable_run; reflexivity|]. split; [reflexivity|]. split; [reflexivity|].
    split; [reflexivity|]. split; [reflexivity|]. vm_compute. reflexivity.
Qed.

(** ** C7: [clearQueue] *)

Lemma shift_listeners op rest s g :
  listeners (signal_of (shift op rest s) g)
  = if decide (signal op = Some g)
    then filter (λ i, i ≠ opId op) (listeners (signal_of s g))
    else listeners (signal_of s g).
Proof.
  rewrite (signal_of_agree _ (removeEventListener op s)) by apply shift_signals.
  by destruct (signal_of_removeEventListener op s g) as [_ ->].
Qed.

Lemma drain_step reject op rest s :
  drain reject (op :: rest) s
  = drain reject rest (if reject then settle (opId op) (Rejected QueueClearedError)
                                        (shift op rest s)
                       else shift op rest s).
Proof. done. Qed.

Lemma drain_step_signal_of (reject : bool) op rest s g :
  signal_of (if reject then settle (opId op) (Rejected QueueClearedError) (shift op rest s)
             else shift op rest s) g
  = signal_of (shift op rest s) g.
Proof. destruct reject; [|done]. apply signal_of_agree. by frame. Qed.

Lemma drain_promises_false q s : promises (drain false q s) = promises s.
Proof.
  revert s. induction q as [|op rest IH]; intros s; [done|].
  rewrite drain_step, IH. by destruct (shift_fields op rest s) as (_ & _ & _ & _ & _ & -> & _).
Qed.

Lemma drain_signals r1 r2 q s1 s2 :
  signals s1 = signals s2 → signals (drain r1 q s1) = signals (drain r2 q s2).
Proof.
  revert s1 s2. induction q as [|op rest IH]; intros s1 s2 Hs; [done|].
  rewrite !drain_step. apply IH.
  assert (signals (shift op rest s1) = signals (shift op rest s2)) as Hsh.
  { rewrite !shift_signals. unfold removeEventListener, signal_of.
    destruct (signal op); by rewrite ?Hs. }
  destruct r1, r2; by frame.
Qed.

Lemma drain_aborted reject q s g :
  aborted (signal_of (drain reject q s) g) = aborted (signal_of s g).
Proof.
  revert s. induction q as [|op rest IH]; intros s; [done|].
  by rewrite drain_step, IH, drain_step_signal_of, shift_aborted.
Qed.

Lemma drain_listeners_subset reject q s g id :
  id ∈ listeners (signal_of (drain reject q s) g) → id ∈ listeners (signal_of s g).
Proof.
  revert s. induction q as [|op rest IH]; intros s; [done|].
  rewrite drain_step. intros Hin. apply IH in Hin.
  rewrite drain_step_signal_of, shift_listeners in Hin.
  case_decide; [|done]. by apply list_elem_of_filter in Hin as [_ ?].
Qed.

(** Every drained operation has lost its listener. *)
Lemma drain_listeners reject q s op g :
  op ∈ q → signal op = Some g → opId op ∉ listeners (signal_of (drain reject q s) g).
Proof.
  revert s. induction q as [|x rest IH]; intros s Hop Hsig; [by apply elem_of_nil in Hop|].
  rewrite drain_step. apply elem_of_cons in Hop as [->|Hop]; [|by apply IH].
  intros Hin. apply drain_listeners_subset in Hin.
  rewrite drain_step_signal_of, shift_listeners in Hin.
  rewrite decide_True in Hin by done. by apply list_elem_of_filter in Hin as [? _].
Qed.

Lemma drain_promises_other reject q s p :
  (p ∉ opId <$> q) → promises (drain reject q s) !! p = promises s !! p.
Proof.
  revert s. induction q as [|op rest IH]; intros s Hp; [done|].
  rewrite fmap_cons, not_elem_of_cons in Hp. destruct Hp as [Hne Hp].
  rewrite drain_step, IH by done.
  destruct (shift_fields op rest s) as (_ & _ & _ & _ & _ & Hpr & _).
  destruct reject; [|by rewrite Hpr]. by rewrite settle_other, Hpr.
Qed.

Lemma drain_rejects q s op :
  NoDup (opId <$> q) → op ∈ q → promises s !! opId op = None →
  promises (drain true q s) !! opId op = Some (Rejected QueueClearedError).
Proof.
  revert s. induction q as [|x rest IH]; intros s Hnd Hop Hpend; [by apply elem_of_nil in Hop|].
  rewrite fmap_cons in Hnd. apply NoDup_cons in Hnd as [Hx Hnd].
  destruct (shift_fields x rest s) as (_ & _ & _ & _ & _ & Hpr & _).
  rewrite drain_step. apply elem_of_cons in Hop as [->|Hop].
  - rewrite drain_promises_other by done.
    rewrite settle_pending by (by rewrite Hpr). cbn. by rewrite lookup_insert_eq.
  - apply IH; [done|done|]. rewrite settle_other, Hpr; [done|].
    intros Heq. apply Hx. rewrite <- Heq. by apply list_elem_of_fmap_2.
Qed.

(** The state [clearQueue] drains: [s] with the refill timer cancelled. *)
Lemma clearQueue_unfold reject s :
  ∃ s1, clearQueue reject s = checkIdle (drain reject (queue s) s1)
    ∧ promises s1 = promises s ∧ signals s1 = signals s.
Proof.
  unfold clearQueue. destruct (refillTimeoutId s); by eexists.
Qed.

(** C7.  On every reachable state, [clearQueue], with [true] or [false],
    empties the queue, removes the abort listener of every operation that was
    queued, and leaves [activeCount], the dispatched operations and their
    pending promises, the bucket and every promise of an operation that was
    not queued as they were; [clearQueue(true)] rejects the promise of every
    operation that was queued with [QueueClearedError]; [clearQueue(false)]
    settles no promise at all, and leaves the signals as [clearQueue(true)]
    does. *)
Theorem clearQueue_rejects_all (cfg : LimitOptions) (s : Limiter) :
  reachable cfg s →
  (∀ reject,
     let s' := clearQueue reject s in
     queue s' = [] ∧ activeCount s' = activeCount s ∧ inflight s' = inflight s
     ∧ tokens s' = tokens s
     ∧ (∀ op g, op ∈ queue s → signal op = Some g →
          opId op ∉ listeners (signal_of s' g))
     ∧ (∀ g, aborted (signal_of s' g) = aborted (signal_of s g))
     ∧ (∀ op, op ∈ inflight s → promises s' !! opId op = None)
     ∧ (∀ p, (p ∉ opId <$> queue s) → promises s' !! p = promises s !! p))
  ∧ (∀ op, op ∈ queue s →
       promises (clearQueue true s) !! opId op = Some (Rejected QueueClearedError))
  ∧ promises (clearQueue false s) = promises s
  ∧ signals (clearQueue false s) = signals (clearQueue true s).
Proof.
  intros Hwf%reachable_wf.
  pose proof (wf_nodup _ Hwf) as Hnd. rewrite fmap_app in Hnd.
  apply NoDup_app in Hnd as (Hndq & Hdisj & _).
  pose proof (wf_pending _ Hwf) as Hpend. rewrite Forall_forall in Hpend.
  split; [|split; [|split]].
  - intros reject. cbv zeta.
    destruct (clearQueue_fields reject s) as (-> & -> & -> & _ & _ & -> & _).
    destruct (clearQueue_unfold reject s) as (s1 & -> & Hp1 & Hs1).
    do 4 (split; [done|]).
    assert (∀ p, (p ∉ opId <$> queue s) →
              promises (checkIdle (drain reject (queue s) s1)) !! p = promises s !! p)
      as Hother.
    { intros p Hp. frame. by rewrite drain_promises_other, Hp1. }
    split; [|split; [|split; [|done]]].
    + intros op g Hop Hsig. rewrite (signal_of_agree _ (drain reject (queue s) s1)) by (by frame).
      by apply drain_listeners.
    + intros g. rewrite (signal_of_agree _ (drain reject (queue s) s1)) by (by frame).
      by rewrite drain_aborted, (signal_of_agree s1 s).
    + intros op Hop. rewrite Hother by (by apply inflight_not_queued).
      apply Hpend, elem_of_app. by right.
  - intros op Hop. destruct (clearQueue_unfold true s) as (s1 & -> & Hp1 & Hs1). frame.
    apply drain_rejects; [done|done|]. rewrite Hp1. apply Hpend, elem_of_app. by left.
  - destruct (clearQueue_unfold false s) as (s1 & -> & Hp1 & Hs1). frame.
    by rewrite drain_promises_false.
  - destruct (clearQueue_unfold false s) as (s1 & -> & Hp1 & Hs1).
    destruct (clearQueue_unfold true s) as (s2 & -> & Hp2 & Hs2). frame.
    apply drain_signals. by rewrite Hs1, Hs2.
Qed.

Lemma clearQueue_rejects_all_witness :
  let cfg := {| concurrency := Fin 1; rate := None; interval := 1000; maxQueueSize := Inf |} in
  let s := run cfg 0 [Submit 0 None 0 0; Submit 0 (Some 7%nat) 0 0; Submit 3 None 0 0] in
  reachable cfg s
  ∧ (opId <$> queue s) = [2; 1]%nat ∧ (opId <$> inflight s) = [0%nat]
  ∧ listeners (signal_of s 7%nat) = [1%nat]
  ∧ listeners (signal_of (clearQueue true s) 7%nat) = []
  ∧ queue (clearQueue true s) = [] ∧ activeCount (clearQueue true s) = 1
  ∧ (∀ op, op ∈ queue s →
       promises (clearQueue true s) !! opId op = Some (Rejected QueueClearedError)).
Proof.
  intros cfg s.
  assert (Hr : reachable cfg s) by (apply reachable_run; reflexivity).
  split; [exact Hr|]. do 2 (split; [reflexivity|]). do 2 (split; [vm_compute; reflexivity|]).
  do 2 (split; [reflexivity|]).
  exact (proj1 (proj2 (clearQueue_rejects_all cfg s Hr))).
Defined.

(** ** C8: [onIdle] *)

Lemma onIdle_idle s :
  activeCount s = 0 → queue s = [] → onIdle s = (AlreadyResolved, s).
Proof. intros Ha Hq. unfold onIdle. by rewrite Ha, Hq. Qed.

Lemma onIdle_busy s :
  ¬ (activeCount s = 0 ∧ queue s = []) →
  (onIdle s).1 = Waiting (nextIdle s)
  ∧ idleResolvers (onIdle s).2 = idleResolvers s ++ [nextIdle s]
  ∧ idleResolved (onIdle s).2 = idleResolved s
  ∧ nextIdle (onIdle s).2 = S (nextIdle s).
Proof.
  intros Hbusy. unfold onIdle.
  destruct (activeCount s =? 0) eqn:Ea; [|done].
  destruct (bool_decide (queue s = [])) eqn:Eq; [|done].
  exfalso. apply Hbusy. split; [lia|]. by apply bool_decide_eq_true in Eq.
Qed.

(** The waiters registered so far leave together, as one batch. *)
Lemma checkIdle_release s :
  activeCount s = 0 → queue s = [] → idleResolvers s ≠ [] →
  idleResolvers (checkIdle s) = []
  ∧ idleResolved (checkIdle s) = idleResolved s ++ [idleResolvers s].
Proof.
  intros Ha Hq Hw. unfold checkIdle. rewrite Ha, Hq. simpl.
  by rewrite bool_decide_eq_false_2.
Qed.

Lemma checkIdle_busy s : ¬ (activeCount s = 0 ∧ queue s = []) → checkIdle s = s.
Proof.
  intros Hbusy. unfold checkIdle.
  destruct (activeCount s =? 0) eqn:Ea; [|done].
  destruct (bool_decide (queue s = [])) eqn:Eq; [|done].
  exfalso. apply Hbusy. split; [lia|]. by apply bool_decide_eq_true in Eq.
Qed.

Lemma checkIdle_idle_ok s : idle_ok (checkIdle s).
Proof.
  unfold idle_ok. frame. intros Ha Hq. unfold checkIdle. rewrite Ha, Hq. simpl.
  destruct (bool_decide (idleResolvers s = [])) eqn:E; simpl; [|done].
  by apply bool_decide_eq_true in E.
Qed.

(** Every callback but an abort listener leaves no waiter on an idle
    limiter. *)
Lemma step_idle_ok cfg s e :
  checks_idle e = true → idle_ok s → idle_ok (step cfg s e).
Proof.
  intros He Hok.
  destruct e as [prio sg now later|id res now later|g|g|g|fired now later|reject|]; simpl; try done.
  - rewrite enqueue_unfold.
    repeat case_match; try (unfold idle_ok, newPromise in *; by frame).
    apply checkIdle_idle_ok.
  - unfold complete. repeat case_match; [|done]. apply checkIdle_idle_ok.
  - unfold idle_ok in *.
    by destruct (abortBegin_fields g s) as (-> & -> & -> & _).
  - unfold timerFire. case_match; [|done]. apply checkIdle_idle_ok.
  - apply checkIdle_idle_ok.
  - unfold onIdle. destruct (activeCount s =? 0) eqn:Ea; simpl.
    + destruct (bool_decide (queue s = [])) eqn:Eq; simpl; [done|].
      intros _ Hq. simpl in Hq. apply bool_decide_eq_false in Eq. done.
    + intros Ha. simpl in Ha. lia.
Qed.

(** C8, where the code departs from it.  Rate 1 per 1000 ms: the first
    operation is dispatched and completes at time 1, the second, submitted
    with signal 7, waits for a token; [onIdle] is called and has to wait;
    then signal 7 is aborted.  Both counts are now zero, and the waiter is
    still waiting: the abort listener does not call [checkIdle].  The waiter
    is released by the admission pass of the refill timer, at time 1000. *)
Theorem onIdle_waiter_outlives_idleness :
  let cfg := {| concurrency := Inf; rate := Some 1; interval := 1000; maxQueueSize := Inf |} in
  let busy := run cfg 0 [Submit 0 None 0 0; Submit 0 (Some 7%nat) 0 0;
                         Complete 0 (Fulfilled 5) 1 1] in
  let s := run cfg 0 [Submit 0 None 0 0; Submit 0 (Some 7%nat) 0 0; Complete 0 (Fulfilled 5) 1 1;
                      OnIdle; Abort 7] in
  reachable cfg s
  ∧ (onIdle busy).1 = Waiting 0
  ∧ activeCount s = 0 ∧ queue s = []
  ∧ idleResolvers s = [0%nat] ∧ idleResolved s = []
  ∧ refillTimeoutId s = Some 1000
  ∧ idleResolvers (timerFire cfg 1000 1000 1000 s) = []
  ∧ idleResolved (timerFire cfg 1000 1000 1000 s) = [[0%nat]].
Proof.
  intros cfg busy s. split; [apply reachable_run; reflexivity|].
  repeat (split; [vm_compute; reflexivity|]). vm_compute. reflexivity.
Qed.

(** * Further properties of the limiter *)

(** ** Capacity is used as soon as there is work *)

Lemma processQueue_view cfg now later s :
  let s2 := admission cfg (queue (refillTokens cfg now s)) (refillTokens cfg now s) in
  let s' := processQueue cfg now later s in
  queue s' = queue s2 ∧ activeCount s' = activeCount s2 ∧ tokens s' = tokens s2
  ∧ lastRefill s' = lastRefill s2 ∧ signals s' = signals s2
  ∧ promises s' = promises s2 ∧ inflight s' = inflight s2
  ∧ nextOp s' = nextOp s2 ∧ nextIdle s' = nextIdle s2.
Proof.
  intros s2 s'. subst s'. unfold processQueue. fold s2.
  destruct (negb (bool_decide (queue s2 = [])) && num_leb (tokens s2) (Fin 0)); by frame.
Qed.

Lemma processQueue_saturated cfg now later s : saturated cfg (processQueue cfg now later s).
Proof.
  destruct (processQueue_view cfg now later s) as (Hq & Ha & Ht & _).
  unfold saturated, has_capacity. rewrite Hq, Ha, Ht.
  destruct (admission_exit cfg (queue (refillTokens cfg now s)) (refillTokens cfg now s))
    as [Hnil|Hcap]; [by intros ?|]. by intros _.
Qed.

Lemma checkIdle_saturated cfg s : saturated cfg s → saturated cfg (checkIdle s).
Proof. unfold saturated, has_capacity. by frame. Qed.

Lemma step_saturated cfg s e : saturated cfg s → saturated cfg (step cfg s e).
Proof.
  intros Hs.
  destruct e as [prio sg now later|id res now later|g|g|g|fired now later|reject|]; simpl.
  - rewrite enqueue_unfold.
    repeat case_match; try (unfold saturated, has_capacity, newPromise in *; by frame).
    apply processQueue_saturated.
  - unfold complete. repeat case_match; [|done].
    apply checkIdle_saturated, processQueue_saturated.
  - unfold saturated, has_capacity in *.
    destruct (abort_fields g s) as (-> & _ & -> & _).
    intros Hne. apply Hs. intros Hq. by apply Hne, abort_queue_nil.
  - unfold saturated, has_capacity in *.
    by destruct (abortBegin_fields g s) as (-> & -> & _ & -> & _).
  - unfold saturated, has_capacity in *.
    destruct (abortNext_fields g s) as (-> & _ & -> & _).
    intros Hne. apply Hs. intros Hq. by apply Hne, abortNext_queue_nil.
  - unfold timerFire. case_match; [|done]. apply processQueue_saturated.
  - unfold saturated. by destruct (clearQueue_fields reject s) as (-> & _).
  - unfold onIdle. case_match; [done|]. unfold saturated, has_capacity in *. by frame.
Qed.

Lemma reachable_conc_ok cfg s : reachable cfg s → conc_ok cfg s.
Proof.
  intros Hr. pose proof (reachable_valid _ _ Hr) as Hv.
  induction Hr as [now s Hc|s e _ IH]; [|by apply step_conc_ok; auto].
  unfold createLimit in Hc. rewrite Hv in Hc. injection Hc as <-.
  apply valid_options_inv in Hv as (_ & _ & Hc & _). unfold conc_ok. simpl.
  destruct (concurrency cfg) as [c|] eqn:E; simpl; [|done]. specialize (Hc c eq_refl). lia.
Qed.

(** X1.  On every reachable state with operations queued, the limiter is at
    its limit: [activeCount] equals [concurrency], or the bucket holds no
    token.  No operation waits while both a slot and a token are free. *)
Theorem queued_only_when_saturated (cfg : LimitOptions) (s : Limiter) :
  reachable cfg s → queue s ≠ [] →
  concurrency cfg = Fin (activeCount s) ∨ tokens s = Fin 0.
Proof.
  intros Hr Hne.
  assert (saturated cfg s) as Hsat.
  { clear Hne. induction Hr as [now s Hc|s e _ IH]; [|by apply step_saturated].
    unfold createLimit in Hc. case_match; [|done]. injection Hc as <-. by intros ?. }
  specialize (Hsat Hne). unfold has_capacity in Hsat.
  pose proof (reachable_conc_ok cfg s Hr) as Hle.
  pose proof (reachable_tokens_ok _ _ Hr) as Htok. unfold tokens_ok in Htok.
  apply andb_false_iff in Hsat as [Hc|Ht].
  - left. unfold conc_ok in Hle. destruct (concurrency cfg) as [c|]; simpl in *; [|done].
    f_equal. lia.
  - right. destruct (rate cfg) as [r|].
    + destruct Htok as (k & Hk & Hb). rewrite Hk in *. simpl in Ht. f_equal. lia.
    + by rewrite Htok in Ht.
Qed.

Lemma queued_only_when_saturated_witness :
  let cfg := {| concurrency := Fin 1; rate := Some 3; interval := 100; maxQueueSize := Inf |} in
  let s := run cfg 0 [Submit 0 None 0 0; Submit 0 None 0 0] in
  reachable cfg s ∧ length (queue s) = 1%nat ∧ activeCount s = 1 ∧ tokens s = Fin 2
  ∧ (concurrency cfg = Fin (activeCount s) ∨ tokens s = Fin 0).
Proof.
  intros cfg s.
  assert (Hr : reachable cfg s) by (apply reachable_run; reflexivity).
  assert (Hne : queue s ≠ []) by (vm_compute; discriminate).
  split; [exact Hr|]. do 3 (split; [reflexivity|]).
  exact (queued_only_when_saturated cfg s Hr Hne).
Defined.

(** ** The bucket *)

(** X2.  Under rate [r] the bucket of every reachable state holds between
    [0] and [r] tokens, and a refill, whenever one full interval or more has
    elapsed, leaves exactly [r] tokens: unused windows give no credit. *)
Theorem bucket_bounded_and_refilled_full (cfg : LimitOptions) (s : Limiter) (r : Z) :
  reachable cfg s → rate cfg = Some r →
  (∃ k, tokens s = Fin k ∧ 0 ≤ k ≤ r)
  ∧ (∀ now, interval cfg ≤ now - lastRefill s → tokens (refillTokens cfg now s) = Fin r).
Proof.
  intros Hr Hrate. pose proof (reachable_tokens_ok _ _ Hr) as Htok.
  pose proof (reachable_valid _ _ Hr) as (Hi & Hr0 & _)%valid_options_inv.
  specialize (Hr0 r Hrate). unfold tokens_ok in Htok. rewrite Hrate in Htok.
  split; [done|]. intros now Hel. destruct Htok as (k & Hk & Hb).
  unfold refillTokens. rewrite Hrate. destruct (interval cfg <=? now - lastRefill s) eqn:E; [|lia].
  simpl. rewrite Hk. simpl. f_equal.
  assert (1 ≤ (now - lastRefill s) / interval cfg) by (apply Z.div_le_lower_bound; lia).
  nia.
Qed.

Lemma bucket_bounded_and_refilled_full_witness :
  let cfg := {| concurrency := Inf; rate := Some 3; interval := 100; maxQueueSize := Inf |} in
  let s := run cfg 0 [Submit 0 None 10 10] in
  reachable cfg s ∧ rate cfg = Some 3 ∧ tokens s = Fin 2
  ∧ tokens (refillTokens cfg 950 s) = Fin 3.
Proof.
  intros cfg s.
  assert (Hr : reachable cfg s) by (apply reachable_run; reflexivity).
  assert (Hrate : rate cfg = Some 3) by reflexivity.
  split; [exact Hr|]. split; [exact Hrate|]. split; [reflexivity|].
  apply (proj2 (bucket_bounded_and_refilled_full cfg s 3 Hr Hrate) 950).
  vm_compute. discriminate.
Defined.

(** X3.  Every dispatch costs one token.  On a consistent state, an
    admission pass under rate [r] takes [k - k'] tokens from a bucket that
    the refill left at [k], with [0 <= k' <= k <= r], and raises
    [activeCount] and the number of dispatched operations by exactly that
    amount: at most [r] operations start in one pass. *)
Theorem admission_pass_pays_tokens (cfg : LimitOptions) (now later : Z) (s : Limiter) (r : Z) :
  valid_options cfg = true → wf s → tokens_ok cfg s → rate cfg = Some r →
  let s' := processQueue cfg now later s in
  ∃ k k', tokens (refillTokens cfg now s) = Fin k ∧ tokens s' = Fin k'
    ∧ 0 ≤ k' ≤ k ∧ k ≤ r
    ∧ activeCount s' = activeCount s + (k - k')
    ∧ Z.of_nat (length (inflight s')) = Z.of_nat (length (inflight s)) + (k - k').
Proof.
  intros Hv Hwf Htok Hrate. cbv zeta.
  pose proof (refillTokens_tokens_ok cfg now s Hv Htok) as Htok1.
  set (s1 := refillTokens cfg now s) in *.
  assert (wf s1) as Hwf1 by (eapply wf_agree; [..|exact Hwf]; subst s1; by frame).
  pose proof (admission_tokens_ok cfg s1 Htok1) as Htok2.
  destruct (admission_outcome cfg s1 Hwf1)
    as (_ & _ & _ & popped & _ & Hfl & Hac & Ht & _). cbv zeta in *.
  destruct (processQueue_view cfg now later s) as (_ & -> & -> & _ & _ & _ & -> & _).
  fold s1. set (s2 := admission cfg (queue s1) s1) in *.
  set (d := filter _ popped) in *.
  unfold tokens_ok in Htok1, Htok2. rewrite Hrate in *.
  destruct Htok1 as (k & Hk & Hkb). destruct Htok2 as (k' & Hk' & Hkb').
  rewrite Hk in Ht. rewrite Hk' in Ht. injection Ht as Ht.
  exists k, k'. rewrite Hfl, Hac, length_app.
  assert (activeCount s1 = activeCount s ∧ inflight s1 = inflight s) as [-> ->]
    by (subst s1; by frame).
  repeat split; try done; lia.
Qed.

Lemma admission_pass_pays_tokens_witness :
  let cfg := {| concurrency := Inf; rate := Some 2; interval := 100; maxQueueSize := Inf |} in
  let s := run cfg 0 [Submit 0 None 0 0; Submit 0 None 0 0; Submit 0 None 0 0; Submit 0 None 0 0;
                      Submit 0 None 0 0] in
  let s' := processQueue cfg 130 130 s in
  valid_options cfg = true ∧ wf s ∧ tokens_ok cfg s
  ∧ length (queue s) = 3%nat ∧ activeCount s = 2 ∧ tokens s = Fin 0
  ∧ length (queue s') = 1%nat ∧ activeCount s' = 4 ∧ tokens s' = Fin 0
  ∧ ∃ k k', tokens (refillTokens cfg 130 s) = Fin k ∧ tokens s' = Fin k'
      ∧ 0 ≤ k' ≤ k ∧ k ≤ 2
      ∧ activeCount s' = activeCount s + (k - k')
      ∧ Z.of_nat (length (inflight s')) = Z.of_nat (length (inflight s)) + (k - k').
Proof.
  intros cfg s s'.
  assert (Hv : valid_options cfg = true) by reflexivity.
  assert (Hr : reachable cfg s) by (apply reachable_run; reflexivity).
  pose proof (reachable_wf cfg s Hr) as Hwf.
  pose proof (reachable_tokens_ok cfg s Hr) as Htok.
  split; [exact Hv|]. split; [exact Hwf|]. split; [exact Htok|].
  do 6 (split; [reflexivity|]).
  exact (admission_pass_pays_tokens cfg 130 130 s 2 Hv Hwf Htok eq_refl).
Defined.

(** ** The counters and the promises *)

(** X4.  On every reachable state [activeCount] is the number of dispatched
    operations whose continuation has not run yet, so it is never negative;
    no operation is queued twice, dispatched twice, or queued and dispatched
    at once; and the promise of every queued or dispatched operation is
    still pending. *)
Theorem activeCount_counts_dispatched (cfg : LimitOptions) (s : Limiter) :
  reachable cfg s →
  activeCount s = Z.of_nat (length (inflight s)) ∧ 0 ≤ activeCount s
  ∧ NoDup (opId <$> queue s ++ inflight s)
  ∧ (∀ op, op ∈ queue s ++ inflight s →
       promises s !! opId op = None ∧ (opId op < nextOp s)%nat).
Proof.
  intros [Hsort Hnd Hfresh Hpend Hunborn Hlis Hact]%reachable_wf.
  split; [done|]. split; [lia|]. split; [done|].
  rewrite Forall_forall in Hfresh, Hpend. intros op Hop. split; auto.
Qed.

Lemma activeCount_counts_dispatched_witness :
  let cfg := {| concurrency := Fin 2; rate := None; interval := 1000; maxQueueSize := Inf |} in
  let s := run cfg 0 [Submit 0 None 0 0; Submit 0 None 0 0; Submit 0 None 0 0;
                      Complete 0 (Fulfilled 1) 5 5] in
  reachable cfg s ∧ (opId <$> inflight s) = [1; 2]%nat
  ∧ activeCount s = Z.of_nat (length (inflight s)).
Proof.
  intros cfg s.
  assert (Hr : reachable cfg s) by (apply reachable_run; reflexivity).
  split; [exact Hr|]. split; [reflexivity|].
  exact (proj1 (activeCount_counts_dispatched cfg s Hr)).
Defined.

(** ** Completion *)

Lemma processQueue_promises_other cfg now later s p :
  wf s → (p ∉ opId <$> queue s) →
  promises (processQueue cfg now later s) !! p = promises s !! p.
Proof.
  intros Hwf Hp.
  assert (wf (refillTokens cfg now s)) as H1 by (eapply wf_agree; [..|done]; by frame).
  destruct (admission_outcome cfg _ H1) as (_ & _ & Hoth & _).
  destruct (processQueue_view cfg now later s) as (_ & _ & _ & _ & _ & -> & _).
  rewrite Hoth by (by frame). by frame.
Qed.

(** X5.  The continuation of a dispatched operation forwards what [fn]
    produced, value or error, unchanged to the promise of the operation;
    the operation is no longer counted as dispatched, the other dispatched
    operations still are, and no promise of an operation outside the queue
    changes. *)
Theorem completion_forwards_result (cfg : LimitOptions) (s : Limiter)
    (op : QueuedOperation) (res : Outcome) (now later : Z) :
  reachable cfg s → op ∈ inflight s →
  let s' := complete cfg (opId op) res now later s in
  promises s' !! opId op = Some res
  ∧ (op ∉ inflight s')
  ∧ (∀ op', op' ∈ inflight s → op' ≠ op → op' ∈ inflight s')
  ∧ (∀ p, p ≠ opId op → (p ∉ opId <$> queue s) → promises s' !! p = promises s !! p).
Proof.
  intros Hwf%reachable_wf Hop. cbv zeta. unfold complete.
  destruct (list_find_elem_of (λ o, opId o = opId op) (inflight s) op Hop eq_refl)
    as [[i x] E].
  pose proof E as (Hx & Hid & _)%list_find_Some.
  assert (x = op) as ->.
  { pose proof (wf_nodup _ Hwf) as Hnd. rewrite fmap_app in Hnd.
    apply NoDup_app in Hnd as (_ & _ & Hnd).
    eapply NoDup_ids_eq; [done| |done|done]. by eapply list_elem_of_lookup_2. }
  rewrite E.
  destruct (completed_wf s i op res Hwf E) as (Hwf3 & Hp3 & Hq3 & Hout & Hkeep).
  set (s3 := settle _ _ _) in *.
  assert (opId op ∉ opId <$> queue s3) as Hnq.
  { rewrite Hq3. by apply inflight_not_queued. }
  assert (wf (refillTokens cfg now s3)) as H1 by (eapply wf_agree; [..|done]; by frame).
  destruct (admission_outcome cfg _ H1) as (_ & _ & _ & popped & Hpop & Hfl & _).
  cbv zeta in Hpop, Hfl.
  destruct (processQueue_view cfg now later s3) as (_ & _ & _ & _ & _ & _ & Hinf & _).
  split; [|split; [|split]].
  - frame. rewrite processQueue_promises_other by done. by rewrite Hp3, lookup_insert_eq.
  - frame. rewrite Hinf, Hfl. intros [Hin|Hin]%elem_of_app.
    + apply Hout. revert Hin. by frame.
    + apply list_elem_of_filter in Hin as [_ Hin]. apply Hnq.
      assert (queue (refillTokens cfg now s3) = queue s3) as Hqr by (by frame).
      rewrite <- Hqr, Hpop. apply list_elem_of_fmap_2, elem_of_app. by left.
  - intros op' Hin Hne. frame. rewrite Hinf, Hfl. apply elem_of_app. left.
    frame. by apply Hkeep.
  - intros p Hne Hp. frame. rewrite processQueue_promises_other by (done || by rewrite Hq3).
    by rewrite Hp3, lookup_insert_ne.
Qed.

Lemma completion_forwards_result_witness :
  let cfg := {| concurrency := Fin 1; rate := None; interval := 1000; maxQueueSize := Inf |} in
  let s := run cfg 0 [Submit 0 None 0 0; Submit 0 None 0 0] in
  let op := {| opId := 0; priority := 0; signal := None |} in
  let s' := complete cfg 0 (Rejected (FnError 42)) 7 7 s in
  reachable cfg s ∧ op ∈ inflight s
  ∧ (opId <$> inflight s') = [1%nat]
  ∧ promises s' !! 0%nat = Some (Rejected (FnError 42)).
Proof.
  intros cfg s op s'.
  assert (Hr : reachable cfg s) by (apply reachable_run; reflexivity).
  assert (Hop : op ∈ inflight s) by (vm_compute; left).
  split; [exact Hr|]. split; [exact Hop|]. split; [reflexivity|].
  exact (proj1 (completion_forwards_result cfg s op (Rejected (FnError 42)) 7 7 Hr Hop)).
Defined.

(** ** What a submission does at once *)

Lemma refillTokens_bucket_agree cfg now s s' :
  tokens s' = tokens s → lastRefill s' = lastRefill s →
  tokens (refillTokens cfg now s') = tokens (refillTokens cfg now s)
  ∧ lastRefill (refillTokens cfg now s') = lastRefill (refillTokens cfg now s).
Proof.
  intros Ht Hl. unfold refillTokens. destruct (rate cfg); [|done]. rewrite Hl.
  destruct (interval cfg <=? now - lastRefill s); [|by rewrite ?Hl]. simpl. by rewrite Ht.
Qed.

Lemma has_capacity_accepted cfg now prio sg s :
  has_capacity cfg (refillTokens cfg now (accepted prio sg s))
  = has_capacity cfg (refillTokens cfg now s).
Proof.
  destruct (accepted_fields prio sg s) as (_ & Ha & _ & Ht & Hl & _).
  destruct (refillTokens_bucket_agree cfg now s (accepted prio sg s) Ht Hl) as [Ht' _].
  unfold has_capacity. rewrite Ht'. frame. by rewrite Ha.
Qed.

Lemma admission_no_capacity cfg q s :
  has_capacity cfg s = false → admission cfg q s = set_queue q s.
Proof. intros H. destruct q; simpl; [done|]. by rewrite H. Qed.

Lemma admission_cons cfg op rest s :
  admission cfg (op :: rest) s
  = if has_capacity cfg s then
      if signal_aborted (signal op) (shift op rest s)
      then admission cfg rest (settle (opId op) (Rejected AbortError) (shift op rest s))
      else admission cfg rest (dispatch cfg op (shift op rest s))
    else set_queue (op :: rest) s.
Proof. done. Qed.

Lemma queue_has_room cfg : valid_options cfg = true → num_leb (maxQueueSize cfg) (Fin 0) = false.
Proof.
  intros (_ & _ & _ & Hm)%valid_options_inv. destruct (maxQueueSize cfg) as [m|]; [|done].
  specialize (Hm m eq_refl). simpl. lia.
Qed.

(** What [enqueue] does on an empty queue when there is capacity, whatever
    the rest of the state. *)
Lemma enqueue_on_empty_queue cfg s prio sg now later :
  valid_options cfg = true → queue s = [] → signal_aborted sg s = false →
  has_capacity cfg (refillTokens cfg now s) = true →
  let s' := enqueue cfg prio sg now later s in
  queue s' = []
  ∧ inflight s' = inflight s ++ [{| opId := nextOp s; priority := prio; signal := sg |}]
  ∧ activeCount s' = activeCount s + 1
  ∧ tokens s' = match rate cfg, tokens (refillTokens cfg now s) with
                | Some _, Fin t => Fin (t - 1)
                | _, _ => tokens (refillTokens cfg now s)
                end
  ∧ promises s' = promises s
  ∧ refillTimeoutId s' = refillTimeoutId s.
Proof.
  intros Hv Hq Hab Hcap. cbv zeta.
  rewrite enqueue_unfold, Hab, Hq.
  change (Z.of_nat (length (@nil QueuedOperation))) with 0.
  rewrite (queue_has_room cfg Hv).
  set (op := {| opId := nextOp s; priority := prio; signal := sg |}).
  set (a := accepted prio sg s).
  destruct (accepted_fields prio sg s) as (Haq & Ha & _ & Ht & Hl & Hid & Hp & Hf & _).
  fold a op in Haq, Ha, Ht, Hl, Hid, Hp, Hf. rewrite Hq in Haq. simpl in Haq.
  destruct (refillTokens_bucket_agree cfg now s a Ht Hl) as [Ht' _].
  set (s1 := refillTokens cfg now a) in *.
  assert (queue s1 = [op]) as Hq1 by (subst s1; by frame).
  assert (has_capacity cfg s1 = true) as Hcap1.
  { subst s1 a. by rewrite has_capacity_accepted. }
  assert (signal_aborted (signal op) (shift op [] s1) = false) as Hab1.
  { rewrite <- Hab. apply signal_aborted_agree. intros g. rewrite shift_aborted.
    rewrite (signal_of_agree s1 a) by (subst s1; by frame).
    unfold a. by destruct (signal_of_accepted prio sg s g) as [-> _]. }
  assert (admission cfg (queue s1) s1 = set_queue [] (dispatch cfg op (shift op [] s1)))
    as Hadm.
  { by rewrite Hq1, admission_cons, Hcap1, Hab1. }
  destruct (processQueue_view cfg now later a) as (-> & -> & -> & _ & _ & -> & -> & _).
  destruct (processQueue_timer_view cfg now later a) as (_ & _ & _ & ->).
  fold s1. rewrite Hadm. cbn [queue activeCount tokens promises inflight set_queue].
  rewrite dispatch_tokens.
  destruct (dispatch_fields cfg op (shift op [] s1))
    as (_ & -> & _ & _ & _ & _ & -> & -> & _).
  destruct (shift_fields op [] s1) as (-> & _ & -> & _ & _ & -> & -> & _).
  assert (activeCount s1 = activeCount s ∧ inflight s1 = inflight s
          ∧ promises s1 = promises s) as (-> & -> & ->).
  { subst s1. frame. by rewrite Ha, Hf, Hp. }
  rewrite Ht'. by rewrite bool_decide_eq_true_2.
Qed.

(** X6.  A submission that finds the queue empty, a free slot and, after
    the refill at its clock, a token, and whose signal is not aborted, is
    dispatched within the call: the queue stays empty, the operation joins
    the dispatched ones, [activeCount] goes up by one, one token is taken
    under a rate, and neither the promises nor the timer change. *)
Theorem submission_dispatched_at_once (cfg : LimitOptions) (s : Limiter)
    (prio : Z) (sg : option nat) (now later : Z) :
  reachable cfg s → queue s = [] → signal_aborted sg s = false →
  has_capacity cfg (refillTokens cfg now s) = true →
  let s' := enqueue cfg prio sg now later s in
  queue s' = []
  ∧ inflight s' = inflight s ++ [{| opId := nextOp s; priority := prio; signal := sg |}]
  ∧ activeCount s' = activeCount s + 1
  ∧ tokens s' = match rate cfg, tokens (refillTokens cfg now s) with
                | Some _, Fin t => Fin (t - 1)
                | _, _ => tokens (refillTokens cfg now s)
                end
  ∧ promises s' = promises s
  ∧ refillTimeoutId s' = refillTimeoutId s.
Proof.
  intros Hr. apply enqueue_on_empty_queue. by eapply reachable_valid.
Qed.

Lemma submission_dispatched_at_once_witness :
  let cfg := {| concurrency := Fin 2; rate := Some 2; interval := 100; maxQueueSize := Fin 1 |} in
  let s := run cfg 0 [Submit 0 None 0 0; Submit 0 None 0 0; Complete 0 (Fulfilled 1) 30 30] in
  let s' := enqueue cfg 5 (Some 7%nat) 120 120 s in
  reachable cfg s ∧ queue s = [] ∧ tokens s = Fin 0 ∧ activeCount s = 1
  ∧ queue s' = [] ∧ activeCount s' = 2 ∧ tokens s' = Fin 1.
Proof.
  intros cfg s s'.
  assert (Hr : reachable cfg s) by (apply reachable_run; reflexivity).
  destruct (submission_dispatched_at_once cfg s 5 (Some 7%nat) 120 120 Hr eq_refl)
    as (Hq & _ & Ha & Ht & _); [vm_compute; reflexivity|vm_compute; reflexivity|].
  split; [exact Hr|]. do 3 (split; [reflexivity|]).
  split; [exact Hq|]. split; [exact Ha|exact Ht].
Defined.

(** X7.  A submission that finds no capacity, after the refill at its
    clock, and room in the queue, and whose signal is not aborted, waits:
    the operation goes into the queue at its priority's place, nothing is
    dispatched, its promise stays pending, and if the bucket is what is
    empty the refill timer is armed when the call returns. *)
Theorem submission_waits_without_capacity (cfg : LimitOptions) (s : Limiter)
    (prio : Z) (sg : option nat) (now later : Z) :
  reachable cfg s → signal_aborted sg s = false →
  num_leb (maxQueueSize cfg) (Fin (Z.of_nat (length (queue s)))) = false →
  has_capacity cfg (refillTokens cfg now s) = false →
  let s' := enqueue cfg prio sg now later s in
  queue s' = insertByPriority {| opId := nextOp s; priority := prio; signal := sg |} (queue s)
  ∧ inflight s' = inflight s ∧ activeCount s' = activeCount s
  ∧ tokens s' = tokens (refillTokens cfg now s)
  ∧ promises s' = promises s
  ∧ (tokens s' = Fin 0 → is_Some (refillTimeoutId s')).
Proof.
  intros Hr Hab Hroom Hcap. cbv zeta. pose proof (reachable_valid _ _ Hr) as Hv.
  rewrite enqueue_unfold, Hab, Hroom.
  set (op := {| opId := nextOp s; priority := prio; signal := sg |}).
  set (a := accepted prio sg s).
  destruct (accepted_fields prio sg s) as (Haq & Ha & _ & Ht & Hl & Hid & Hp & Hf & _).
  fold a op in Haq, Ha, Ht, Hl, Hid, Hp, Hf.
  destruct (refillTokens_bucket_agree cfg now s a Ht Hl) as [Ht' _].
  assert (has_capacity cfg (refillTokens cfg now a) = false) as Hcap1.
  { subst a. by rewrite has_capacity_accepted. }
  assert (timer_ok cfg (processQueue cfg now later a)) as [Htim _].
  { destruct (reachable_timer_ok _ _ Hr) as [_ Hnone].
    apply processQueue_timer_ok; [done| |by rewrite Hid].
    pose proof (reachable_tokens_ok _ _ Hr) as Htok. unfold tokens_ok in *. by rewrite Ht. }
  destruct (processQueue_view cfg now later a) as (Hq' & Ha' & Htk' & _ & _ & Hp' & Hf' & _).
  rewrite admission_no_capacity in Hq', Ha', Htk', Hp', Hf' by done.
  revert Hq' Ha' Htk' Hp' Hf'. frame. intros Hq' Ha' Htk' Hp' Hf'.
  rewrite Hq', Ha', Htk', Hp', Hf', Haq, Ha, Hp, Hf, Ht'.
  do 5 (split; [done|]). intros H0. apply Htim; [|by rewrite Htk', Ht'].
  rewrite Hq', Haq. intros Hnil.
  pose proof (insertByPriority_perm op (queue s)) as Hperm. rewrite Hnil in Hperm.
  by apply Permutation_nil_cons in Hperm.
Qed.

Lemma submission_waits_without_capacity_witness :
  let cfg := {| concurrency := Inf; rate := Some 1; interval := 100; maxQueueSize := Fin 2 |} in
  let s := run cfg 0 [Submit 0 None 0 0; Submit 1 None 10 10] in
  let s' := enqueue cfg 4 None 20 20 s in
  reachable cfg s ∧ (priority <$> queue s) = [1] ∧ tokens s = Fin 0
  ∧ (priority <$> queue s') = [4; 1] ∧ activeCount s' = 1
  ∧ is_Some (refillTimeoutId s').
Proof.
  intros cfg s s'.
  assert (Hr : reachable cfg s) by (apply reachable_run; reflexivity).
  destruct (submission_waits_without_capacity cfg s 4 None 20 20 Hr eq_refl)
    as (_ & _ & Ha & Ht & _ & Htim);
    [vm_compute; reflexivity|vm_compute; reflexivity|].
  split; [exact Hr|]. do 3 (split; [reflexivity|]). split; [exact Ha|].
  apply Htim. exact Ht.
Defined.

(** ** Idle waiters are released on an idle limiter only *)

Lemma checkIdle_cases s :
  checkIdle s = s
  ∨ (activeCount s = 0 ∧ queue s = [] ∧ idleResolvers s ≠ []
     ∧ idleResolvers (checkIdle s) = []
     ∧ idleResolved (checkIdle s) = idleResolved s ++ [idleResolvers s]).
Proof.
  unfold checkIdle. destruct (activeCount s =? 0) eqn:Ea; [|by left].
  destruct (bool_decide (queue s = [])) eqn:Eq; [|by left].
  destruct (bool_decide (idleResolvers s = [])) eqn:Ew; [by left|]. right.
  apply bool_decide_eq_true in Eq. apply bool_decide_eq_false in Ew.
  repeat split; try done. lia.
Qed.

Lemma checkIdle_twice s : checkIdle (checkIdle s) = checkIdle s.
Proof.
  destruct (checkIdle_cases s) as [Hs|(_ & _ & _ & Hw & _)]; [by rewrite !Hs|].
  unfold checkIdle at 1. rewrite Hw. simpl. by rewrite andb_false_r.
Qed.

(** What a call of [checkIdle] at the end of a callback amounts to, [s0]
    being the state before the callback and [s1] the state it is called on. *)
Lemma release_after s0 s1 :
  idleResolvers s1 = idleResolvers s0 → idleResolved s1 = idleResolved s0 →
  let s' := checkIdle s1 in
  (idleResolved s' = idleResolved s0 ∧ idleResolvers s' = idleResolvers s0)
  ∨ (idleResolved s' = idleResolved s0 ++ [idleResolvers s0] ∧ idleResolvers s0 ≠ []
     ∧ idleResolvers s' = [] ∧ activeCount s' = 0 ∧ queue s' = []).
Proof.
  intros Hw Hr. cbv zeta.
  destruct (checkIdle_cases s1) as [->|(Ha & Hq & Hne & Hw' & Hr')]; [by left|].
  right. frame. by rewrite Hw', Hr', Hw, Hr, <- Hw.
Qed.

Lemma processQueue_idle_view cfg now later s :
  ∃ s3, processQueue cfg now later s = checkIdle s3
    ∧ idleResolvers s3 = idleResolvers s ∧ idleResolved s3 = idleResolved s.
Proof.
  unfold processQueue. set (s1 := refillTokens cfg now s).
  set (s2 := admission cfg (queue s1) s1). eexists. split; [done|].
  assert (idleResolvers s2 = idleResolvers s ∧ idleResolved s2 = idleResolved s) as [Hw Hr].
  { subst s2. destruct (admission_fields cfg s1) as (-> & _ & _ & -> & _). subst s1.
    by frame. }
  case_match; [|done].
  by destruct (scheduleRefill_fields cfg later s2) as (_ & _ & -> & _ & _ & _ & _ & _ & -> & _).
Qed.

(** X8.  Whatever the state and the callback, the promises of [onIdle] are
    resolved in one way only: all those waiting are resolved together, and
    the callback leaves the limiter with [activeCount = 0] and an empty
    queue.  In every other case no [onIdle] promise is resolved, and the
    waiting ones keep waiting ([onIdle] itself may add one). *)
Theorem idle_waiters_released_only_when_idle (cfg : LimitOptions) (s : Limiter) (e : Event) :
  let s' := step cfg s e in
  (idleResolved s' = idleResolved s
   ∧ (idleResolvers s' = idleResolvers s
      ∨ (e = OnIdle ∧ idleResolvers s' = idleResolvers s ++ [nextIdle s]
         ∧ ¬ (activeCount s = 0 ∧ queue s = []))))
  ∨ (idleResolved s' = idleResolved s ++ [idleResolvers s] ∧ idleResolvers s ≠ []
     ∧ idleResolvers s' = [] ∧ activeCount s' = 0 ∧ queue s' = []).
Proof.
  cbv zeta.
  assert (∀ s1, idleResolvers s1 = idleResolvers s → idleResolved s1 = idleResolved s →
            (idleResolved (checkIdle s1) = idleResolved s
             ∧ (idleResolvers (checkIdle s1) = idleResolvers s
                ∨ (e = OnIdle ∧ idleResolvers (checkIdle s1) = idleResolvers s ++ [nextIdle s]
                   ∧ ¬ (activeCount s = 0 ∧ queue s = []))))
            ∨ (idleResolved (checkIdle s1) = idleResolved s ++ [idleResolvers s]
               ∧ idleResolvers s ≠ [] ∧ idleResolvers (checkIdle s1) = []
               ∧ activeCount (checkIdle s1) = 0 ∧ queue (checkIdle s1) = [])) as Hrel.
  { intros s1 Hw Hr. destruct (release_after s s1 Hw Hr) as [[? ?]|?]; [left|by right].
    split; [done|by left]. }
  assert (∀ s1, idleResolvers s1 = idleResolvers s → idleResolved s1 = idleResolved s →
            (idleResolved s1 = idleResolved s
             ∧ (idleResolvers s1 = idleResolvers s
                ∨ (e = OnIdle ∧ idleResolvers s1 = idleResolvers s ++ [nextIdle s]
                   ∧ ¬ (activeCount s = 0 ∧ queue s = []))))
            ∨ (idleResolved s1 = idleResolved s ++ [idleResolvers s]
               ∧ idleResolvers s ≠ [] ∧ idleResolvers s1 = []
               ∧ activeCount s1 = 0 ∧ queue s1 = [])) as Hsame.
  { intros s1 Hw Hr. left. split; [done|by left]. }
  destruct e as [prio sg now later|id res now later|g|g|g|fired now later|reject|]; simpl.
  - rewrite enqueue_unfold. repeat case_match; try (apply Hsame; unfold newPromise; by frame).
    destruct (processQueue_idle_view cfg now later (accepted prio sg s)) as (s3 & -> & Hw & Hr).
    destruct (accepted_fields prio sg s) as (_ & _ & Hw' & _ & _ & _ & _ & _ & Hr' & _).
    apply Hrel; congruence.
  - unfold complete. repeat case_match; [|by apply Hsame].
    match goal with |- context [processQueue cfg now later ?x] =>
      destruct (processQueue_idle_view cfg now later x) as (s3 & -> & Hw & Hr) end.
    rewrite checkIdle_twice. apply Hrel; [by rewrite Hw; frame|by rewrite Hr; frame].
  - destruct (abort_fields g s) as (_ & Hw & _ & _ & _ & _ & Hr & _). by apply Hsame.
  - destruct (abortBegin_fields g s) as (_ & _ & Hw & _ & _ & _ & _ & _ & Hr & _).
    by apply Hsame.
  - destruct (abortNext_fields g s) as (_ & Hw & _ & _ & _ & _ & Hr & _). by apply Hsame.
  - unfold timerFire. case_match; [|by apply Hsame].
    match goal with |- context [processQueue cfg now later ?x] =>
      destruct (processQueue_idle_view cfg now later x) as (s3 & -> & Hw & Hr) end.
    apply Hrel; [by rewrite Hw; frame|by rewrite Hr; frame].
  - unfold clearQueue.
    match goal with |- context [drain reject ?q ?x] =>
      destruct (drain_fields reject q x) as (_ & _ & Hw & _ & _ & _ & _ & Hr & _) end.
    apply Hrel; [rewrite Hw|rewrite Hr]; by case_match.
  - unfold onIdle. destruct (activeCount s =? 0) eqn:Ea; simpl.
    + destruct (bool_decide (queue s = [])) eqn:Eq; simpl; [by apply Hsame|].
      left. split; [done|]. right. apply bool_decide_eq_false in Eq. split; [done|].
      split; [done|]. by intros [_ ?].
    + left. split; [done|]. right. split; [done|]. split; [done|]. intros [? _]. lia.
Qed.

(** ** The delay of the refill timer *)

Lemma refillTokens_boundary cfg now s :
  0 < interval cfg → is_Some (rate cfg) → lastRefill s ≤ now →
  lastRefill (refillTokens cfg now s) ≤ now < lastRefill (refillTokens cfg now s) + interval cfg.
Proof.
  intros Hi [r Hr] Hle. unfold refillTokens. rewrite Hr.
  destruct (interval cfg <=? now - lastRefill s) eqn:E; simpl; [|lia].
  pose proof (Z.mul_div_le (now - lastRefill s) (interval cfg) Hi).
  pose proof (Z.mul_succ_div_gt (now - lastRefill s) (interval cfg) Hi). lia.
Qed.

(** X9.  An admission pass reads the clock in [refillTokens] ([now]) and
    again in [scheduleRefill] ([later]).  When the clock does not run
    backwards and the pass arms the refill timer, the delay [d] it passes to
    [setTimeout] is between [0] and one interval and makes the timer due at
    the next refill boundary, [lastRefill + interval], or at once when the
    second read has reached that boundary already. *)
Theorem refill_timer_fires_at_boundary (cfg : LimitOptions) (now later : Z) (s : Limiter) (d : Z) :
  valid_options cfg = true → refillTimeoutId s = None → lastRefill s ≤ now → now ≤ later →
  let s' := processQueue cfg now later s in
  refillTimeoutId s' = Some d →
  0 ≤ d ≤ interval cfg
  ∧ later + d = Z.max later (lastRefill s' + interval cfg)
  ∧ (later < lastRefill s' + interval cfg → 0 < d).
Proof.
  intros (Hi & _)%valid_options_inv Hnone Hle Hlater. cbv zeta.
  destruct (processQueue_timer_view cfg now later s) as (_ & _ & Hid2 & ->).
  destruct (processQueue_view cfg now later s) as (_ & _ & _ & -> & _).
  set (s1 := refillTokens cfg now s) in *. set (s2 := admission cfg (queue s1) s1) in *.
  assert (lastRefill s2 = lastRefill s1) as Hl.
  { subst s2. by destruct (admission_fields cfg s1) as (_ & -> & _). }
  case_match; [|congruence]. unfold scheduleRefill. rewrite Hid2, Hnone.
  destruct (rate cfg) as [r|] eqn:Hr; [|by rewrite Hid2, Hnone].
  destruct (queue s2); [by rewrite Hid2, Hnone|].
  cbn [refillTimeoutId set_refillTimeoutId]. intros [= <-]. rewrite Hl.
  pose proof (refillTokens_boundary cfg now s Hi ltac:(by rewrite Hr) Hle) as Hb.
  fold s1 in Hb. lia.
Qed.

Lemma refill_timer_fires_at_boundary_witness :
  let cfg := {| concurrency := Inf; rate := Some 1; interval := 100; maxQueueSize := Inf |} in
  let s := accepted 0 None (run cfg 0 [Submit 0 None 0 0]) in
  let s' := processQueue cfg 95 97 s in
  let s'' := processQueue cfg 99 100 s in
  valid_options cfg = true ∧ refillTimeoutId s = None ∧ lastRefill s = 0
  ∧ refillTimeoutId s' = Some 3 ∧ refillTimeoutId s'' = Some 0
  ∧ (0 ≤ 3 ≤ interval cfg
     ∧ 97 + 3 = Z.max 97 (lastRefill s' + interval cfg)
     ∧ (97 < lastRefill s' + interval cfg → 0 < 3))
  ∧ (0 ≤ 0 ≤ interval cfg
     ∧ 100 + 0 = Z.max 100 (lastRefill s'' + interval cfg)
     ∧ (100 < lastRefill s'' + interval cfg → 0 < 0)).
Proof.
  intros cfg s s' s''.
  assert (Hv : valid_options cfg = true) by reflexivity.
  assert (Hn : refillTimeoutId s = None) by reflexivity.
  split; [exact Hv|]. split; [exact Hn|]. do 3 (split; [reflexivity|]). split.
  - apply (refill_timer_fires_at_boundary cfg 95 97 s 3 Hv Hn);
      [vm_compute; discriminate|vm_compute; discriminate|reflexivity].
  - apply (refill_timer_fires_at_boundary cfg 99 100 s 0 Hv Hn);
      [vm_compute; discriminate|vm_compute; discriminate|reflexivity].
Defined.

(** ** [clearQueue] twice *)

(** X10.  A second [clearQueue], whatever its argument, changes nothing: the
    first one has emptied the queue, cancelled the timer and released the
    idle waiters if the limiter was idle. *)
Theorem clearQueue_idempotent (reject reject' : bool) (s : Limiter) :
  clearQueue reject' (clearQueue reject s) = clearQueue reject s.
Proof.
  destruct (clearQueue_fields reject s) as (Hq & _ & _ & _ & Ht & _).
  unfold clearQueue at 1. rewrite Ht, Hq. simpl.
  rewrite <- Hq at 1. rewrite set_queue_same.
  unfold clearQueue. apply checkIdle_twice.
Qed.

(** ** No promise is lost *)

Lemma known_agree s s' p :
  queue s' = queue s → inflight s' = inflight s → promises s' = promises s →
  known s p → known s' p.
Proof. unfold known. by intros -> -> ->. Qed.

Lemma known_settle p o s q : known s q → known (settle p o s) q.
Proof.
  unfold known. frame. intros [?|[r Hr]]; [by left|right].
  exists r. by apply settle_monotone.
Qed.

Lemma settle_is_Some p o s : is_Some (promises (settle p o s) !! p).
Proof.
  unfold settle. destruct (promises s !! p) eqn:E; [by rewrite E|].
  cbn. by rewrite lookup_insert_eq.
Qed.

Lemma known_processQueue cfg now later s p :
  wf s → known s p → known (processQueue cfg now later s) p.
Proof.
  intros Hwf Hk.
  assert (wf (refillTokens cfg now s)) as H1 by (eapply wf_agree; [..|done]; by frame).
  destruct (admission_outcome cfg _ H1) as (_ & _ & Hoth & popped & Hpop & Hfl & _ & _ & Hpr).
  cbv zeta in *. unfold known.
  destruct (processQueue_view cfg now later s) as (-> & _ & _ & _ & _ & -> & -> & _).
  set (s1 := refillTokens cfg now s) in *. set (s2 := admission cfg (queue s1) s1) in *.
  assert (queue s1 = queue s ∧ inflight s1 = inflight s ∧ promises s1 = promises s)
    as (Hq1 & Hf1 & Hp1) by (subst s1; by frame).
  rewrite Hq1 in Hpop, Hoth. rewrite Hf1 in Hfl.
  destruct Hk as [Hin|[r Hr]].
  - rewrite fmap_app in Hin. apply elem_of_app in Hin as [Hin|Hin].
    + apply list_elem_of_fmap in Hin as (op & -> & Hop). rewrite Hpop in Hop.
      apply elem_of_app in Hop as [Hop|Hop].
      * destruct (signal_aborted (signal op) s1) eqn:Hab.
        -- right. rewrite (Hpr op Hop), Hab. by eexists.
        -- left. rewrite Hfl. apply list_elem_of_fmap_2.
           rewrite !elem_of_app. right. right. by apply list_elem_of_filter.
      * left. apply list_elem_of_fmap_2, elem_of_app. by left.
    + left. rewrite Hfl, !fmap_app, !elem_of_app. right. by left.
  - right. exists r. rewrite Hoth; [by rewrite Hp1|].
    intros (op & -> & Hop)%list_elem_of_fmap.
    pose proof (wf_pending _ Hwf) as Hpend. rewrite Forall_forall in Hpend.
    assert (op ∈ queue s ++ inflight s) as Hop' by (apply elem_of_app; by left).
    specialize (Hpend op Hop'). simpl in Hpend. congruence.
Qed.

Lemma known_fire ls s p :
  NoDup (opId <$> queue s) → inflight (fire ls s) = inflight s →
  known s p → known (fire ls s) p.
Proof.
  intros Hnd Hf [Hin|[r Hr]]; unfold known.
  - rewrite fmap_app in Hin. apply elem_of_app in Hin as [Hin|Hin].
    + destruct (decide (p ∈ ls)) as [Hp|Hp].
      * right. destruct (promises s !! p) as [r|] eqn:E.
        -- exists r. by apply fire_monotone.
        -- rewrite fire_promises_aborted by done. by eexists.
      * left. rewrite fire_queue by done. apply list_elem_of_fmap in Hin as (op & -> & Hop).
        apply list_elem_of_fmap_2, elem_of_app. left. by apply list_elem_of_filter.
    + left. rewrite Hf, fmap_app, elem_of_app. by right.
  - right. exists r. by apply fire_monotone.
Qed.

Lemma drain_monotone reject q s p r :
  promises s !! p = Some r → promises (drain reject q s) !! p = Some r.
Proof.
  revert s. induction q as [|op rest IH]; intros s Hp; [done|].
  rewrite drain_step. apply IH.
  destruct (shift_fields op rest s) as (_ & _ & _ & _ & _ & Hpr & _).
  destruct reject; [apply settle_monotone|]; by rewrite Hpr.
Qed.

Lemma known_clearQueue s p : wf s → known s p → known (clearQueue true s) p.
Proof.
  intros Hwf Hk. unfold known.
  destruct (clearQueue_fields true s) as (-> & _ & _ & _ & _ & -> & _).
  destruct (clearQueue_unfold true s) as (s1 & -> & Hp1 & _). frame.
  pose proof (wf_nodup _ Hwf) as Hnd. rewrite fmap_app in Hnd.
  apply NoDup_app in Hnd as (Hndq & _ & _).
  destruct Hk as [Hin|[r Hr]].
  - rewrite fmap_app in Hin. apply elem_of_app in Hin as [Hin|Hin]; [right|by left].
    apply list_elem_of_fmap in Hin as (op & -> & Hop).
    destruct (promises s1 !! opId op) as [r|] eqn:E.
    + exists r. by apply drain_monotone.
    + rewrite drain_rejects by done. by eexists.
  - right. exists r. apply drain_monotone. by rewrite Hp1.
Qed.

Lemma processQueue_nextOp cfg now later s : nextOp (processQueue cfg now later s) = nextOp s.
Proof.
  destruct (processQueue_view cfg now later s) as (_ & _ & _ & _ & _ & _ & _ & -> & _).
  destruct (admission_fields cfg (refillTokens cfg now s)) as (_ & _ & _ & _ & -> & _).
  by frame.
Qed.

Lemma step_accounted cfg s e :
  wf s → keeps_promises e = true → accounted s → accounted (step cfg s e).
Proof.
  intros Hwf He Hacc.
  assert (∀ s', nextOp s' = nextOp s → (∀ p, known s p → known s' p) → accounted s') as Hsame.
  { intros s' Hn Hk p Hp. apply Hk, Hacc. by rewrite <- Hn. }
  pose proof (wf_nodup _ Hwf) as Hnd. rewrite fmap_app in Hnd.
  apply NoDup_app in Hnd as (Hndq & _ & _).
  destruct e as [prio sg now later|id res now later|g|g|g|fired now later|reject|]; simpl.
  - rewrite enqueue_unfold.
    assert (∀ o, accounted (settle (nextOp s) o (newPromise s))) as Hrej.
    { intros o p Hp. unfold newPromise in *. revert Hp. frame. intros Hp.
      destruct (decide (p = nextOp s)) as [->|Hne].
      - right. apply settle_is_Some.
      - apply known_settle. eapply known_agree; [..|apply Hacc; lia]; done. }
    destruct (signal_aborted sg s); [done|]. case_match; [done|].
    intros p Hp. rewrite processQueue_nextOp in Hp.
    assert (nextOp (accepted prio sg s) = S (nextOp s)) as Hn'
      by (by destruct (accepted_fields prio sg s)
            as (_ & _ & _ & _ & _ & _ & _ & _ & _ & -> & _)).
    rewrite Hn' in Hp. apply known_processQueue; [by apply wf_accepted|].
    destruct (accepted_fields prio sg s) as (Hq & _ & _ & _ & _ & _ & Hpr & Hf & _).
    unfold known. rewrite Hq, Hf, Hpr.
    assert (∀ q : nat, q ∈ opId <$> (queue s ++ inflight s) →
              q ∈ opId <$> (insertByPriority
                              {| opId := nextOp s; priority := prio; signal := sg |}
                              (queue s) ++ inflight s)) as Hsub.
    { intros q. rewrite !fmap_app, !elem_of_app, insertByPriority_perm, fmap_cons.
      rewrite elem_of_cons. tauto. }
    destruct (decide (p = nextOp s)) as [->|Hne].
    + left. rewrite fmap_app, elem_of_app, insertByPriority_perm, fmap_cons. left. by left.
    + destruct (Hacc p ltac:(lia)) as [?|?]; [left; by apply Hsub|by right].
  - unfold complete.
    destruct (list_find (λ o, opId o = id) (inflight s)) as [[i op]|] eqn:E; [|done].
    pose proof E as (_ & <- & _)%list_find_Some.
    destruct (completed_wf s i op res Hwf E) as (Hwf3 & Hp3 & Hq3 & _ & Hkeep).
    set (s3 := settle _ _ _) in *.
    apply Hsame; [frame; rewrite processQueue_nextOp; subst s3; by frame|].
    intros p Hk. eapply known_agree; [| | |apply (known_processQueue cfg now later s3 p Hwf3)];
      [by frame..|].
    unfold known. rewrite Hp3, Hq3. destruct (decide (p = opId op)) as [->|Hne].
    { right. by rewrite lookup_insert_eq. }
    rewrite lookup_insert_ne by done. destruct Hk as [Hin|?]; [left|by right].
    rewrite fmap_app, elem_of_app in Hin. rewrite fmap_app, elem_of_app.
    destruct Hin as [?|Hin]; [by left|right].
    apply list_elem_of_fmap in Hin as (x & -> & Hx). apply list_elem_of_fmap_2.
    apply Hkeep; [done|]. by intros ->.
  - apply Hsame; [by destruct (abort_fields g s) as (_ & _ & _ & _ & _ & _ & _ & -> & _)|].
    intros p Hk. rewrite abort_unfold. case_match; [done|].
    apply known_fire; [done| |by eapply known_agree; [..|exact Hk]].
    match goal with |- context [fire ?ls ?s0] =>
      by destruct (fire_fields ls s0) as (_ & _ & _ & _ & _ & -> & _) end.
  - apply Hsame; [by destruct (abortBegin_fields g s)
                    as (_ & _ & _ & _ & _ & _ & _ & _ & _ & -> & _)|].
    intros p Hk. destruct (abortBegin_fields g s) as (Hq & _ & _ & _ & _ & _ & Hp & Hf & _).
    by eapply known_agree; [..|exact Hk].
  - apply Hsame; [by destruct (abortNext_fields g s) as (_ & _ & _ & _ & _ & _ & _ & -> & _)|].
    intros p Hk. destruct (abortNext_unfold g s) as [->|(id & ls & _ & _ & ->)]; [done|].
    match goal with |- context [onAbort id ?s0] => change (onAbort id s0) with (fire [id] s0);
      apply known_fire; [done| |by eapply known_agree; [..|exact Hk]];
      by destruct (fire_fields [id] s0) as (_ & _ & _ & _ & _ & -> & _) end.
  - unfold timerFire. case_match; [|done].
    match goal with |- context [processQueue cfg now later ?x] =>
      assert (wf x) as Hwfx by (eapply wf_agree; [..|exact Hwf]; by frame);
      apply Hsame; [rewrite processQueue_nextOp; by frame|];
      intros p Hk; apply known_processQueue; [done|];
      by eapply known_agree; [..|exact Hk]; frame end.
  - destruct reject; [|done].
    apply Hsame; [by destruct (clearQueue_fields true s) as (_ & _ & _ & _ & _ & _ & -> & _)|].
    intros p Hk. by apply known_clearQueue.
  - unfold onIdle. case_match; [done|]. apply Hsame; [done|]. intros p Hk.
    by eapply known_agree; [..|exact Hk].
Qed.

(** X11.  As long as [clearQueue(false)] is not called, no promise handed
    out by the limiter is ever lost: after any run, every promise is either
    that of an operation still queued or dispatched, and then pending, or
    of an operation that is neither, and then settled. *)
Theorem no_promise_lost (cfg : LimitOptions) (now : Z) (evs : list Event) :
  valid_options cfg = true → Forall (λ e, keeps_promises e = true) evs →
  let s := run cfg now evs in
  ∀ p, (p < nextOp s)%nat →
    (p ∈ opId <$> (queue s ++ inflight s) ∧ promises s !! p = None)
    ∨ ((p ∉ opId <$> (queue s ++ inflight s)) ∧ is_Some (promises s !! p)).
Proof.
  intros Hv Hall. cbv zeta.
  assert (accounted (run cfg now evs)) as Hacc.
  { unfold run. induction evs as [|e evs IH] using rev_ind.
    - intros p Hp. simpl in Hp. lia.
    - apply Forall_app in Hall as [Hall He]. apply Forall_cons in He as [He _].
      rewrite foldl_app. simpl. apply step_accounted; [|done|by apply IH].
      apply (reachable_wf cfg), (reachable_run cfg now evs Hv). }
  pose proof (reachable_wf cfg _ (reachable_run cfg now evs Hv)) as Hwf.
  intros p Hp. destruct (decide (p ∈ opId <$> (queue (run cfg now evs)
                                               ++ inflight (run cfg now evs)))) as [Hin|Hout].
  - left. split; [done|]. apply list_elem_of_fmap in Hin as (op & -> & Hop).
    pose proof (wf_pending _ Hwf) as Hpend. rewrite Forall_forall in Hpend. by apply Hpend.
  - right. split; [done|]. by destruct (Hacc p Hp).
Qed.

Lemma no_promise_lost_witness :
  let cfg := {| concurrency := Fin 1; rate := None; interval := 1000; maxQueueSize := Fin 2 |} in
  let evs := [Submit 0 None 0 0; Submit 0 (Some 7%nat) 0 0; Submit 2 None 0 0; Submit 0 None 0 0;
              Abort 7; Complete 0 (Fulfilled 3) 9 9; ClearQueue true] in
  let s := run cfg 0 evs in
  valid_options cfg = true ∧ Forall (λ e, keeps_promises e = true) evs
  ∧ nextOp s = 4%nat ∧ (opId <$> inflight s) = [2%nat] ∧ queue s = []
  ∧ ∀ p, (p < nextOp s)%nat →
      (p ∈ opId <$> (queue s ++ inflight s) ∧ promises s !! p = None)
      ∨ ((p ∉ opId <$> (queue s ++ inflight s)) ∧ is_Some (promises s !! p)).
Proof.
  intros cfg evs s.
  assert (Hv : valid_options cfg = true) by reflexivity.
  assert (Hall : Forall (λ e, keeps_promises e = true) evs)
    by (repeat constructor).
  split; [exact Hv|]. split; [exact Hall|]. do 3 (split; [reflexivity|]).
  exact (no_promise_lost cfg 0 evs Hv Hall).
Defined.

(** ** Abort listeners belong to queued operations *)

Lemma owned_ext s s' :
  queue s' = queue s →
  (∀ g, listeners (signal_of s' g) = listeners (signal_of s g)) →
  owned s → owned s'.
Proof. intros Hq Hl Ho g. rewrite Hq, Hl. apply Ho. Qed.

Lemma owned_agree s s' :
  queue s' = queue s → signals s' = signals s → owned s → owned s'.
Proof.
  intros Hq Hs. apply owned_ext; [done|]. intros g. by rewrite (signal_of_agree s' s).
Qed.

Lemma owned_shift op rest s :
  wf s → owned s → queue s = op :: rest → owned (shift op rest s).
Proof.
  intros Hwf Ho Hq g. destruct (Ho g) as [Hnd Hown].
  rewrite shift_queue, shift_listeners.
  pose proof (wf_nodup _ Hwf) as Hids. rewrite Hq, fmap_app, fmap_cons in Hids.
  apply NoDup_app in Hids as (Hids & _ & _). apply NoDup_cons in Hids as [Hop _].
  rewrite Hq in Hown. case_decide as Hsig.
  - split; [by apply NoDup_filter|]. intros id [Hne Hin]%list_elem_of_filter.
    destruct (Hown id Hin) as (o & Ho' & Hid & Hs). exists o.
    apply elem_of_cons in Ho' as [->|?]; [done|]. done.
  - split; [done|]. intros id Hin. destruct (Hown id Hin) as (o & Ho' & Hid & Hs).
    exists o. apply elem_of_cons in Ho' as [->|?]; [done|]. done.
Qed.

Lemma admission_owned cfg s : wf s → owned s → owned (admission cfg (queue s) s).
Proof.
  intros Hwf Ho.
  apply (admission_preserves cfg (λ s', wf s' ∧ owned s')); [| |done].
  - intros s1 op rest Hq _ [Hwf1 Ho1] _. split; [by apply wf_shift_reject|].
    eapply owned_agree; [..|by apply (owned_shift op rest s1)]; by frame.
  - intros s1 op rest Hq _ [Hwf1 Ho1] _. split; [by apply wf_shift_dispatch|].
    destruct (dispatch_fields cfg op (shift op rest s1)) as (Hdq & _ & _ & _ & _ & Hds & _).
    eapply owned_agree; [..|by apply (owned_shift op rest s1)]; done.
Qed.

Lemma processQueue_owned cfg now later s : wf s → owned s → owned (processQueue cfg now later s).
Proof.
  intros Hwf Ho.
  assert (wf (refillTokens cfg now s)) as H1 by (eapply wf_agree; [..|done]; by frame).
  assert (owned (refillTokens cfg now s)) as H2 by (eapply owned_agree; [..|done]; by frame).
  destruct (processQueue_view cfg now later s) as (Hq & _ & _ & _ & Hs & _).
  eapply owned_agree; [..|by apply (admission_owned cfg _ H1 H2)]; done.
Qed.

Lemma owned_accepted prio sg s : wf s → owned s → owned (accepted prio sg s).
Proof.
  intros Hwf Ho g. destruct (Ho g) as [Hnd Hown].
  destruct (accepted_fields prio sg s) as (-> & _).
  destruct (signal_of_accepted prio sg s g) as [_ ->].
  assert (∀ id, id ∈ listeners (signal_of s g) →
            ∃ op, op ∈ insertByPriority {| opId := nextOp s; priority := prio; signal := sg |}
                         (queue s) ∧ opId op = id ∧ signal op = Some g) as Hold.
  { intros id Hin. destruct (Hown id Hin) as (o & ? & ? & ?). exists o.
    rewrite insertByPriority_perm. split; [by right|done]. }
  case_decide as Hsg; [|done]. split.
  - apply NoDup_app. split; [done|]. split; [|apply NoDup_singleton].
    intros id Hin ->%list_elem_of_singleton. destruct (Hown _ Hin) as (o & Ho' & Hid & _).
    pose proof (wf_fresh _ Hwf) as Hf. rewrite Forall_forall in Hf.
    assert (o ∈ queue s ++ inflight s) as Ho'' by (apply elem_of_app; by left).
    specialize (Hf o Ho''). simpl in Hf. lia.
  - intros id [Hin| ->%list_elem_of_singleton]%elem_of_app; [by apply Hold|].
    eexists. rewrite insertByPriority_perm. split; [by left|done].
Qed.

(** The listeners [removed] of signal [g] run, those in [rest] stay
    registered. *)
Lemma owned_fire g removed rest s :
  wf s → owned s → listeners (signal_of s g) = removed ++ rest →
  owned (fire removed
           (set_signals (<[g := {| aborted := true; listeners := rest |}]> (signals s)) s)).
Proof.
  intros Hwf Ho Hls g0. set (s0 := set_signals _ s).
  pose proof (wf_nodup _ Hwf) as Hids. rewrite fmap_app in Hids.
  apply NoDup_app in Hids as (Hids & _ & _).
  rewrite fire_queue by done. change (queue s0) with (queue s).
  rewrite (signal_of_agree _ s0) by apply fire_signals.
  destruct (Ho g) as [Hndg Hown]. rewrite Hls in Hndg, Hown.
  apply NoDup_app in Hndg as (_ & Hdisj & Hndrest).
  unfold signal_of, s0. cbn [signals set_signals]. destruct (decide (g = g0)) as [<-|Hne].
  - rewrite lookup_insert_eq. simpl. split; [done|]. intros id Hin.
    destruct (Hown id ltac:(apply elem_of_app; by right)) as (o & Ho' & Hid & Hs).
    exists o. split; [|done]. apply list_elem_of_filter. split; [|done].
    rewrite Hid. intros Hrem. by apply (Hdisj id).
  - rewrite lookup_insert_ne by done. fold (signal_of s g0).
    destruct (Ho g0) as [Hnd0 Hown0]. split; [done|]. intros id Hin.
    destruct (Hown0 id Hin) as (o & Ho' & Hid & Hs). exists o. split; [|done].
    apply list_elem_of_filter. split; [|done]. rewrite Hid. intros Hrem.
    destruct (Hown id ltac:(apply elem_of_app; by left)) as (o' & Ho'' & Hid' & Hs').
    assert (o' = o) as -> by (eapply NoDup_ids_eq; [exact Hids|done|done|congruence]).
    congruence.
Qed.

Lemma drain_owned reject s : wf s → owned s → owned (drain reject (queue s) s).
Proof.
  remember (queue s) as q eqn:Hq. revert s Hq.
  induction q as [|op rest IH]; intros s Hq Hwf Ho.
  - simpl. by rewrite Hq, set_queue_same.
  - symmetry in Hq. rewrite drain_step. apply IH.
    + destruct reject; frame; by rewrite shift_queue.
    + destruct reject; [by apply wf_shift_reject|by apply wf_shift].
    + destruct reject; [|by apply owned_shift].
      eapply owned_agree; [..|by apply (owned_shift op rest s)]; by frame.
Qed.

Lemma step_owned cfg s e : wf s → owned s → owned (step cfg s e).
Proof.
  intros Hwf Ho.
  destruct e as [prio sg now later|id res now later|g|g|g|fired now later|reject|]; simpl.
  - rewrite enqueue_unfold.
    repeat case_match; try (eapply owned_agree; [..|exact Ho]; unfold newPromise; by frame).
    apply processQueue_owned; [by apply wf_accepted|by apply owned_accepted].
  - unfold complete.
    destruct (list_find (λ o, opId o = id) (inflight s)) as [[i op]|] eqn:E; [|done].
    pose proof E as (_ & <- & _)%list_find_Some.
    destruct (completed_wf s i op res Hwf E) as (Hwf3 & _).
    eapply owned_agree; [| |apply (processQueue_owned cfg now later _ Hwf3)]; [by frame..|].
    eapply owned_agree; [..|exact Ho]; by frame.
  - rewrite abort_unfold. case_match; [done|].
    apply owned_fire; [done|done|by rewrite app_nil_r].
  - unfold abortBegin. case_match; [done|].
    eapply owned_ext; [..|exact Ho]; [done|]. intros g'. unfold signal_of.
    cbn [signals set_signals]. destruct (decide (g = g')) as [->|Hne].
    + by rewrite lookup_insert_eq.
    + by rewrite lookup_insert_ne.
  - destruct (abortNext_unfold g s) as [->|(id & ls & _ & Hls & ->)]; [done|].
    change (onAbort id ?x) with (fire [id] x). by apply owned_fire.
  - unfold timerFire. case_match; [|done].
    apply processQueue_owned.
    + eapply wf_agree; [..|exact Hwf]; by frame.
    + eapply owned_agree; [..|exact Ho]; by frame.
  - unfold clearQueue. cbv zeta.
    set (x := match refillTimeoutId s with Some _ => _ | None => _ end).
    assert (wf x ∧ owned x) as [Hwfx Hox].
    { unfold x. case_match; [|done]. split; [by eapply wf_agree; [..|exact Hwf]|].
      by eapply owned_agree; [..|exact Ho]. }
    eapply owned_agree; [| |exact (drain_owned reject x Hwfx Hox)]; by frame.
  - unfold onIdle. case_match; [done|]. by eapply owned_agree; [..|exact Ho].
Qed.

Lemma reachable_owned cfg s : reachable cfg s → owned s.
Proof.
  intros Hr. induction Hr as [now s Hc|s e Hr IH].
  - unfold createLimit in Hc. case_match; [|done]. injection Hc as <-.
    intros g. split; [constructor|]. by intros id ?%elem_of_nil.
  - apply step_owned; [by eapply reachable_wf|done].
Qed.

(** X12.  On every reachable state the abort listeners registered on a
    signal are exactly the [onAbort] of the operations that are queued with
    that signal, each registered once: an operation that is dispatched,
    rejected, aborted or cleared leaves no listener behind. *)
Theorem abort_listeners_of_queued_only (cfg : LimitOptions) (s : Limiter) :
  reachable cfg s →
  ∀ g, NoDup (listeners (signal_of s g))
       ∧ ∀ id, id ∈ listeners (signal_of s g)
               ↔ ∃ op, op ∈ queue s ∧ opId op = id ∧ signal op = Some g.
Proof.
  intros Hr g. destruct (reachable_owned cfg s Hr g) as [Hnd Hown].
  split; [done|]. intros id. split; [apply Hown|].
  intros (op & Hop & <- & Hsig). by apply (wf_listening _ (reachable_wf cfg s Hr)).
Qed.

Lemma abort_listeners_of_queued_only_witness :
  let cfg := {| concurrency := Fin 1; rate := None; interval := 1000; maxQueueSize := Inf |} in
  let s := run cfg 0 [Submit 0 (Some 7%nat) 0 0; Submit 0 (Some 7%nat) 0 0;
                      Submit 0 (Some 7%nat) 0 0;
                      Complete 0 (Fulfilled 1) 5 5] in
  reachable cfg s ∧ (opId <$> queue s) = [2%nat] ∧ (opId <$> inflight s) = [1%nat]
  ∧ listeners (signal_of s 7%nat) = [2%nat]
  ∧ NoDup (listeners (signal_of s 7%nat)).
Proof.
  intros cfg s.
  assert (Hr : reachable cfg s) by (apply reachable_run; reflexivity).
  split; [exact Hr|]. do 2 (split; [reflexivity|]). split; [vm_compute; reflexivity|].
  exact (proj1 (abort_listeners_of_queued_only cfg s Hr 7%nat)).
Defined.

Lemma filter_ext_elem {A} (P Q : A → Prop) `{∀ x, Decision (P x)} `{∀ x, Decision (Q x)}
    (l : list A) :
  (∀ x, x ∈ l → (P x ↔ Q x)) → filter P l = filter Q l.
Proof.
  induction l as [|x l IH]; intros Hpq; [done|].
  rewrite !filter_cons. rewrite IH by (intros y Hy; apply Hpq; by right).
  destruct (decide (P x)) as [HP|HP], (decide (Q x)) as [HQ|HQ]; try done.
  - exfalso. apply HQ, Hpq; [by left|done].
  - exfalso. apply HP, Hpq; [by left|done].
Qed.

(** X13.  When a signal that was not aborted is aborted, on a reachable
    state and with no caller in between, the queue loses exactly the
    operations submitted with that signal, the others keeping their order;
    the promises of the removed operations are rejected with [AbortError],
    those of the remaining ones stay pending, and the signal has no listener
    left. *)
Theorem abort_removes_its_operations (cfg : LimitOptions) (s : Limiter) (g : nat) :
  reachable cfg s → aborted (signal_of s g) = false →
  let s' := abort g s in
  queue s' = filter (λ op, signal op ≠ Some g) (queue s)
  ∧ (∀ op, op ∈ queue s → signal op = Some g →
       promises s' !! opId op = Some (Rejected AbortError))
  ∧ (∀ op, op ∈ queue s' → promises s' !! opId op = None)
  ∧ aborted (signal_of s' g) = true ∧ listeners (signal_of s' g) = [].
Proof.
  intros Hr Hab. cbv zeta. pose proof (reachable_wf _ _ Hr) as Hwf.
  pose proof (reachable_owned _ _ Hr) as Ho.
  pose proof (wf_nodup _ Hwf) as Hids. rewrite fmap_app in Hids.
  apply NoDup_app in Hids as (Hids & _ & _).
  split; [|split; [|split]].
  - rewrite abort_queue by done. apply filter_ext_elem. intros op Hop. split.
    + intros Hout Hsig. apply Hout. by apply (wf_listening _ Hwf).
    + intros Hsig Hin. destruct (Ho g) as [_ Hown].
      destruct (Hown _ Hin) as (o & Ho' & Hid & Hs).
      assert (o = op) as -> by (eapply NoDup_ids_eq; [exact Hids|done|done|done]). done.
  - intros op Hop Hsig. by apply abort_removes.
  - intros op Hop. pose proof (wf_pending _ (abort_wf g s Hwf)) as Hpend.
    rewrite Forall_forall in Hpend. apply Hpend, elem_of_app. by left.
  - rewrite abort_unfold, Hab. rewrite (signal_of_agree _ _ g (fire_signals _ _)).
    unfold signal_of. cbn [signals set_signals]. by rewrite lookup_insert_eq.
Qed.

Lemma abort_removes_its_operations_witness :
  let cfg := {| concurrency := Fin 1; rate := None; interval := 1000; maxQueueSize := Inf |} in
  let s := run cfg 0 [Submit 0 None 0 0; Submit 1 (Some 7%nat) 0 0; Submit 5 (Some 8%nat) 0 0;
                      Submit 3 (Some 7%nat) 0 0; Submit 2 None 0 0] in
  let s' := abort 7 s in
  reachable cfg s ∧ aborted (signal_of s 7%nat) = false
  ∧ (opId <$> queue s) = [2; 3; 4; 1]%nat
  ∧ (opId <$> queue s') = [2; 4]%nat
  ∧ queue s' = filter (λ op, signal op ≠ Some 7%nat) (queue s).
Proof.
  intros cfg s s'.
  assert (Hr : reachable cfg s) by (apply reachable_run; reflexivity).
  assert (Hab : aborted (signal_of s 7%nat) = false) by (vm_compute; reflexivity).
  split; [exact Hr|]. split; [exact Hab|]. do 2 (split; [reflexivity|]).
  exact (proj1 (abort_removes_its_operations cfg s 7%nat Hr Hab)).
Defined.

(** ** C5: the signal of a queued operation *)

Lemma clearQueue_evicts s :
  wf s →
  let s' := clearQueue true s in
  queue s' = [] ∧ refillTimeoutId s' = None
  ∧ inflight s' = inflight s ∧ activeCount s' = activeCount s
  ∧ (∀ op, op ∈ queue s → promises s' !! opId op = Some (Rejected QueueClearedError))
  ∧ (∀ op, op ∈ inflight s → promises s' !! opId op = None).
Proof.
  intros Hwf. cbv zeta.
  pose proof (wf_nodup _ Hwf) as Hnd. rewrite fmap_app in Hnd.
  apply NoDup_app in Hnd as (Hndq & Hdisj & _).
  pose proof (wf_pending _ Hwf) as Hpend. rewrite Forall_forall in Hpend.
  destruct (clearQueue_fields true s) as (Hq & Ha & _ & _ & Ht & Hf & _).
  do 4 (split; [done|]).
  destruct (clearQueue_unfold true s) as (s1 & -> & Hp1 & Hs1). split.
  - intros op Hop. frame. apply drain_rejects; [done|done|].
    rewrite Hp1. apply Hpend, elem_of_app. by left.
  - intros op Hop. frame. rewrite drain_promises_other by (by apply inflight_not_queued).
    rewrite Hp1. apply Hpend, elem_of_app. by right.
Qed.

Lemma queued_not_inflight s op : wf s → op ∈ queue s → op ∉ inflight s.
Proof.
  intros Hwf Hop Hin. apply (inflight_not_queued s op Hwf Hin). by apply list_elem_of_fmap_2.
Qed.

(** A pass and a queued operation whose signal is aborted: the operation is
    rejected or stays queued, and it is not started. *)
Lemma processQueue_aborted cfg now later t op :
  wf t → op ∈ queue t → signal_aborted (signal op) t = true →
  let t' := processQueue cfg now later t in
  (op ∉ inflight t')
  ∧ (op ∈ queue t'
     ∨ ((op ∉ queue t') ∧ promises t' !! opId op = Some (Rejected AbortError))).
Proof.
  intros Hwf Hop Hab. cbv zeta.
  assert (wf (refillTokens cfg now t)) as H1 by (eapply wf_agree; [..|done]; by frame).
  destruct (admission_outcome cfg _ H1)
    as (Hwf2 & _ & _ & popped & Hpop & Hfl & _ & _ & Hprom).
  cbv zeta in *. set (t1 := refillTokens cfg now t) in *.
  set (t2 := admission cfg (queue t1) t1) in *.
  assert (signal_aborted (signal op) t1 = true) as Hab1.
  { rewrite <- Hab. apply signal_aborted_agree. intros g.
    by rewrite (signal_of_agree t1 t) by (subst t1; by frame). }
  assert (queue (processQueue cfg now later t) = queue t2
          ∧ inflight (processQueue cfg now later t) = inflight t2
          ∧ promises (processQueue cfg now later t) = promises t2) as (-> & -> & ->).
  { unfold processQueue. fold t1 t2. case_match; by frame. }
  assert (op ∈ queue t1) as Hop1 by (subst t1; by frame).
  pose proof (queued_not_inflight t1 op H1 Hop1) as Hnf. split.
  - rewrite Hfl. intros [Hin|Hin]%elem_of_app; [done|].
    apply list_elem_of_filter in Hin as [Hna _]. congruence.
  - rewrite Hpop in Hop1. apply elem_of_app in Hop1 as [Hin|Hin]; [|by left].
    right. pose proof (Hprom op Hin) as Hp. rewrite Hab1 in Hp. split; [|done].
    intros Hq. pose proof (wf_pending _ Hwf2) as Hpend. rewrite Forall_forall in Hpend.
    assert (op ∈ queue t2 ++ inflight t2) as Hin2 by (apply elem_of_app; by left).
    specialize (Hpend op Hin2). simpl in Hpend. congruence.
Qed.

Lemma processQueue_flags cfg now later t g :
  wf t → aborted (signal_of (processQueue cfg now later t) g) = aborted (signal_of t g).
Proof.
  intros Hwf.
  assert (wf (refillTokens cfg now t)) as H1 by (eapply wf_agree; [..|done]; by frame).
  destruct (admission_outcome cfg _ H1) as (_ & Hab & _).
  rewrite (signal_of_agree _ (admission cfg (queue (refillTokens cfg now t))
                                (refillTokens cfg now t)))
    by (unfold processQueue; case_match; by frame).
  rewrite Hab. by rewrite (signal_of_agree (refillTokens cfg now t) t) by (by frame).
Qed.

Lemma insert_flag_kept g g' ls s :
  aborted (signal_of s g) = true →
  aborted (signal_of (set_signals (<[g' := {| aborted := true; listeners := ls |}]>
                                     (signals s)) s) g) = true.
Proof.
  intros Hab. unfold signal_of in *. cbn [signals set_signals].
  destruct (decide (g' = g)) as [->|Hne]; [by rewrite lookup_insert_eq|].
  by rewrite lookup_insert_ne.
Qed.

(** A signal that has fired stays fired. *)
Lemma step_flag_kept cfg s e g :
  wf s → aborted (signal_of s g) = true → aborted (signal_of (step cfg s e) g) = true.
Proof.
  intros Hwf Hab.
  destruct e as [prio sg now later|id res now later|g'|g'|g'|fired now later|reject|]; simpl.
  - rewrite enqueue_unfold.
    destruct (signal_aborted sg s);
      [by rewrite (signal_of_agree _ s) by (unfold newPromise; by frame)|].
    destruct (num_leb _ _);
      [by rewrite (signal_of_agree _ s) by (unfold newPromise; by frame)|].
    rewrite processQueue_flags by (by apply wf_accepted).
    by destruct (signal_of_accepted prio sg s g) as [-> _].
  - unfold complete.
    destruct (list_find (λ o, opId o = id) (inflight s)) as [[i op]|] eqn:E; [|done].
    pose proof E as (_ & <- & _)%list_find_Some.
    destruct (completed_wf s i op res Hwf E) as (Hwf3 & _).
    match goal with |- context [processQueue cfg now later ?m] =>
      rewrite (signal_of_agree _ (processQueue cfg now later m)) by (by frame);
      rewrite (processQueue_flags cfg now later m g Hwf3);
      by rewrite (signal_of_agree m s) by (by frame) end.
  - rewrite abort_unfold. destruct (aborted (signal_of s g')); [done|].
    rewrite (signal_of_agree _ _ g (fire_signals _ _)). by apply insert_flag_kept.
  - unfold abortBegin. destruct (aborted (signal_of s g')); [done|].
    by apply insert_flag_kept.
  - destruct (abortNext_unfold g' s) as [->|(id & ls & _ & _ & ->)]; [done|].
    match goal with |- context [onAbort id ?x] =>
      rewrite (signal_of_agree (onAbort id x) x)
        by (by destruct (onAbort_fields id x) as (_ & _ & _ & _ & _ & -> & _)) end.
    by apply insert_flag_kept.
  - unfold timerFire. destruct (refillTimeoutId s); [|done].
    rewrite processQueue_flags by (eapply wf_agree; [..|exact Hwf]; by frame).
    by rewrite (signal_of_agree _ s) by (by frame).
  - destruct (clearQueue_unfold reject s) as (s1 & -> & _ & Hs1).
    rewrite (signal_of_agree _ (drain reject (queue s) s1)) by (by frame).
    by rewrite drain_aborted, (signal_of_agree s1 s).
  - unfold onIdle. destruct (_ && _); [done|]. simpl.
    by rewrite (signal_of_agree _ s) by (by frame).
Qed.

(** The listener at the head of the listeners of a fired signal runs. *)
Lemma abortNext_removes g op ls s :
  wf s → op ∈ queue s → aborted (signal_of s g) = true →
  listeners (signal_of s g) = opId op :: ls →
  (op ∉ queue (abortNext g s))
  ∧ promises (abortNext g s) !! opId op = Some (Rejected AbortError)
  ∧ queue (abortNext g s) `sublist_of` queue s.
Proof.
  intros Hwf Hop Hab Hls. unfold abortNext. rewrite Hab, Hls.
  set (s0 := set_signals _ s).
  pose proof (wf_nodup _ Hwf) as Hnd. rewrite fmap_app in Hnd.
  apply NoDup_app in Hnd as (Hndq & _ & _).
  rewrite (onAbort_queue (opId op) s0) by exact Hndq. change (queue s0) with (queue s).
  split; [|split; [|apply sublist_filter]].
  - by intros [Hne _]%list_elem_of_filter.
  - rewrite onAbort_present by (by apply list_elem_of_fmap_2).
    rewrite settle_pending; [by rewrite lookup_insert_eq|].
    change (promises s0) with (promises s).
    pose proof (wf_pending _ Hwf) as Hpend. rewrite Forall_forall in Hpend.
    apply Hpend, elem_of_app. by left.
Qed.

(** C5, as the code has it.  On every reachable state: a submission whose
    signal is already aborted gets its promise rejected with [AbortError]
    and changes neither the queue nor anything else of the limiter.  When
    the signal of a queued operation fires and its listeners run with
    nothing in between, the operation leaves the queue, its promise is
    rejected with [AbortError], and the queue otherwise keeps its order.
    When the listeners run one at a time, with other callbacks in between:
    the flag is set first and changes nothing of the limiter; from then on
    the signal stays fired, the listener of the operation stays registered
    while the operation is queued, and each callback either leaves the
    operation queued, or rejects it with [AbortError] (its listener, or an
    admission pass that pops it), or is a [clearQueue], which rejects it
    with [QueueClearedError] or, with [false], leaves its promise
    unsettled; the operation is never started.  [op.onAbort] of an
    operation that is no longer queued changes nothing, and an abort
    leaves the dispatched operations, their promises and [activeCount]
    alone. *)
Theorem abort_signal_protocol (cfg : LimitOptions) (s : Limiter) :
  reachable cfg s →
  (∀ prio g now later, aborted (signal_of s g) = true →
     let s' := enqueue cfg prio (Some g) now later s in
     promises s' !! nextOp s = Some (Rejected AbortError)
     ∧ queue s' = queue s ∧ activeCount s' = activeCount s ∧ inflight s' = inflight s
     ∧ tokens s' = tokens s ∧ refillTimeoutId s' = refillTimeoutId s
     ∧ signals s' = signals s)
  ∧ (∀ op g, op ∈ queue s → signal op = Some g → aborted (signal_of s g) = false →
       let s' := abort g s in
       (op ∉ queue s') ∧ promises s' !! opId op = Some (Rejected AbortError)
       ∧ queue s' `sublist_of` queue s)
  ∧ (∀ op g, op ∈ queue s → signal op = Some g → aborted (signal_of s g) = false →
       let s' := abortBegin g s in
       aborted (signal_of s' g) = true
       ∧ listeners (signal_of s' g) = listeners (signal_of s g)
       ∧ queue s' = queue s ∧ promises s' = promises s ∧ inflight s' = inflight s
       ∧ abort g s = Nat.iter (length (listeners (signal_of s g))) (abortNext g) s')
  ∧ (∀ op g, op ∈ queue s → signal op = Some g → aborted (signal_of s g) = true →
       opId op ∈ listeners (signal_of s g)
       ∧ (∀ ls, listeners (signal_of s g) = opId op :: ls →
            let s' := abortNext g s in
            (op ∉ queue s') ∧ promises s' !! opId op = Some (Rejected AbortError)
            ∧ queue s' `sublist_of` queue s)
       ∧ (∀ e, let s' := step cfg s e in
            aborted (signal_of s' g) = true ∧ (op ∉ inflight s')
            ∧ (op ∈ queue s'
               ∨ ((op ∉ queue s')
                  ∧ promises s' !! opId op = Some (Rejected AbortError))
               ∨ (e = ClearQueue true
                  ∧ promises s' !! opId op = Some (Rejected QueueClearedError))
               ∨ (e = ClearQueue false ∧ promises s' !! opId op = None))))
  ∧ (∀ id, (id ∉ opId <$> queue s) → onAbort id s = s)
  ∧ (∀ op g, op ∈ inflight s →
       let s' := abort g s in
       inflight s' = inflight s ∧ activeCount s' = activeCount s
       ∧ promises s' !! opId op = None).
Proof.
  intros Hr. pose proof (reachable_wf _ _ Hr) as Hwf.
  pose proof (wf_pending _ Hwf) as Hpend. rewrite Forall_forall in Hpend.
  split; [|split; [|split; [|split; [|split]]]].
  - intros prio g now later Hab. cbv zeta. rewrite enqueue_unfold. simpl. rewrite Hab.
    destruct (rejected_fields (Rejected AbortError) s Hwf)
      as (-> & -> & -> & _ & -> & _ & -> & -> & -> & _).
    by rewrite lookup_insert_eq.
  - intros op g Hop Hsig Hab. by apply abort_removes.
  - intros op g Hop Hsig Hab. cbv zeta.
    destruct (abortBegin_fields g s) as (-> & _ & _ & _ & _ & _ & -> & -> & _).
    rewrite <- abort_stepwise by done. unfold abortBegin. rewrite Hab.
    set (ls := listeners (signal_of s g)). unfold signal_of. cbn [signals set_signals].
    by rewrite lookup_insert_eq.
  - intros op g Hop Hsig Hab. split; [by apply (wf_listening _ Hwf)|]. split.
    + intros ls Hls. by apply (abortNext_removes g op ls).
    + intros e. cbv zeta. split; [by apply step_flag_kept|].
      pose proof (queued_not_inflight s op Hwf Hop) as Hnf.
      assert (∀ t now later, wf t → op ∈ queue t →
                (∀ g', aborted (signal_of t g') = aborted (signal_of s g')) →
                let t' := processQueue cfg now later t in
                (op ∉ inflight t')
                ∧ (op ∈ queue t'
                   ∨ ((op ∉ queue t')
                      ∧ promises t' !! opId op = Some (Rejected AbortError)))) as Hpass.
      { intros t now later Ht Hopt Hflags. apply processQueue_aborted; [done|done|].
        rewrite Hsig. simpl. by rewrite Hflags. }
      destruct e as [prio sg now later|id res now later|g'|g'|g'|fired now later|reject|];
        simpl.
      * rewrite enqueue_unfold.
        destruct (signal_aborted sg s);
          [unfold newPromise; frame; split; [done|by left]|].
        destruct (num_leb _ _); [unfold newPromise; frame; split; [done|by left]|].
        destruct (Hpass (accepted prio sg s) now later) as [? [?|?]];
          [by apply wf_accepted| | |tauto..].
        -- destruct (accepted_fields prio sg s) as (-> & _).
           rewrite insertByPriority_perm. by right.
        -- intros g'. by destruct (signal_of_accepted prio sg s g') as [-> _].
      * unfold complete.
        destruct (list_find (λ o, opId o = id) (inflight s)) as [[i x]|] eqn:E;
          [|split; [done|by left]].
        pose proof E as (_ & <- & _)%list_find_Some.
        destruct (completed_wf s i x res Hwf E) as (Hwf3 & _ & Hq3 & _).
        frame.
        match goal with |- context [processQueue cfg now later ?m] =>
          destruct (Hpass m now later) as [? [?|?]]; [exact Hwf3| | |tauto..] end.
        -- by rewrite Hq3.
        -- intros g'. by rewrite (signal_of_agree _ s) by (by frame).
      * destruct (abort_fields g' s) as (_ & _ & _ & _ & _ & -> & _). split; [done|].
        left. destruct (aborted (signal_of s g')) eqn:Hab'; [by rewrite abort_unfold, Hab'|].
        rewrite abort_queue by done.
        apply list_elem_of_filter. split; [|done]. intros Hin.
        destruct (reachable_owned cfg s Hr g') as [_ Hown].
        destruct (Hown _ Hin) as (o & Ho & Hid & Hs).
        pose proof (wf_nodup _ Hwf) as Hnd. rewrite fmap_app in Hnd.
        apply NoDup_app in Hnd as (Hndq & _ & _).
        assert (o = op) as -> by (eapply NoDup_ids_eq; [exact Hndq|done|done|done]).
        congruence.
      * destruct (abortBegin_fields g' s) as (-> & _ & _ & _ & _ & _ & _ & -> & _).
        split; [done|by left].
      * destruct (abortNext_fields g' s) as (_ & _ & _ & _ & _ & -> & _). split; [done|].
        destruct (abortNext_unfold g' s) as [->|(id & ls & Hab' & Hls & Heq)]; [by left|].
        pose proof (wf_nodup _ Hwf) as Hnd. rewrite fmap_app in Hnd.
        apply NoDup_app in Hnd as (Hndq & _ & _).
        rewrite Heq. set (s0 := set_signals _ s).
        rewrite (onAbort_queue id s0) by exact Hndq. change (queue s0) with (queue s).
        destruct (decide (opId op = id)) as [<-|Hne].
        -- right. left. split; [by intros [? _]%list_elem_of_filter|].
           rewrite onAbort_present by (by apply list_elem_of_fmap_2).
           rewrite settle_pending; [by rewrite lookup_insert_eq|].
           change (promises s0) with (promises s). apply Hpend, elem_of_app. by left.
        -- left. by apply list_elem_of_filter.
      * unfold timerFire. destruct (refillTimeoutId s); [|split; [done|by left]].
        match goal with |- context [processQueue cfg now later ?m] =>
          destruct (Hpass m now later) as [? [?|?]]; [| | |tauto..] end.
        -- eapply wf_agree; [..|exact Hwf]; by frame.
        -- by frame.
        -- intros g'. by rewrite (signal_of_agree _ s) by (by frame).
      * destruct (clearQueue_fields reject s) as (Hq & _ & _ & _ & _ & -> & _).
        split; [done|]. right. right. destruct reject.
        -- left. split; [done|]. by apply (clearQueue_evicts s Hwf).
        -- right. split; [done|].
           destruct (clearQueue_unfold false s) as (s1 & -> & Hp1 & _). frame.
           rewrite drain_promises_false, Hp1. apply Hpend, elem_of_app. by left.
      * unfold onIdle. destruct (_ && _); simpl; (split; [done|by left]).
  - intros id Hid. by apply onAbort_absent.
  - intros op g Hop. cbv zeta.
    destruct (abort_fields g s) as (-> & _ & _ & _ & _ & -> & _).
    split; [done|]. split; [done|].
    rewrite abort_promises_other by (by apply inflight_not_queued || done).
    apply Hpend, elem_of_app. by right.
Qed.

Lemma abort_signal_protocol_witness :
  let cfg := {| concurrency := Fin 1; rate := None; interval := 1000; maxQueueSize := Inf |} in
  let s := run cfg 0 [Submit 0 None 0 0; Submit 0 (Some 7%nat) 0 0; Submit 0 None 0 0] in
  let s' := abort 7 s in
  let s1 := step cfg s (AbortBegin 7) in
  let op := {| opId := 1; priority := 0; signal := Some 7%nat |} in
  reachable cfg s
  ∧ (opId <$> queue s) = [1; 2]%nat ∧ (opId <$> queue s') = [2]%nat
  ∧ promises s' !! 1%nat = Some (Rejected AbortError)
  ∧ (∀ id, (id ∉ opId <$> queue s) → onAbort id s = s)
  ∧ reachable cfg s1 ∧ op ∈ queue s1 ∧ aborted (signal_of s1 7%nat) = true
  ∧ listeners (signal_of s1 7%nat) = [1%nat]
  ∧ ((op ∉ queue (abortNext 7 s1))
     ∧ promises (abortNext 7 s1) !! 1%nat = Some (Rejected AbortError)
     ∧ queue (abortNext 7 s1) `sublist_of` queue s1).
Proof.
  intros cfg s s' s1 op.
  assert (Hr : reachable cfg s) by (apply reachable_run; reflexivity).
  assert (Hr1 : reachable cfg s1) by exact (reach_step cfg s (AbortBegin 7) Hr).
  assert (Hop : op ∈ queue s1) by (vm_compute; left).
  assert (Hab : aborted (signal_of s1 7%nat) = true) by (vm_compute; reflexivity).
  assert (Hls : listeners (signal_of s1 7%nat) = [1%nat]) by (vm_compute; reflexivity).
  split; [exact Hr|]. split; [reflexivity|]. split; [reflexivity|].
  split; [vm_compute; reflexivity|].
  split; [exact (proj1 (proj2 (proj2 (proj2 (proj2 (abort_signal_protocol cfg s Hr))))))|].
  split; [exact Hr1|]. split; [exact Hop|]. split; [exact Hab|]. split; [exact Hls|].
  exact (proj1 (proj2 (proj1 (proj2 (proj2 (proj2 (abort_signal_protocol cfg s1 Hr1))))
                         op 7%nat Hop eq_refl Hab)) [] Hls).
Defined.

(** The signal of a queued operation fires, and before the listener of the
    operation runs another listener of the signal calls [clearQueue]: the
    operation is rejected with [QueueClearedError], not with [AbortError];
    after [clearQueue(false)] its promise is never settled.  The listener
    of the operation is removed by [clearQueue] and does not run. *)
Lemma abort_preempted_by_clearQueue :
  let cfg := {| concurrency := Fin 1; rate := None; interval := 1000; maxQueueSize := Inf |} in
  let fired := run cfg 0 [Submit 0 None 0 0; Submit 0 (Some 7%nat) 0 0; AbortBegin 7] in
  let s := run cfg 0 [Submit 0 None 0 0; Submit 0 (Some 7%nat) 0 0; AbortBegin 7;
                      ClearQueue true; AbortNext 7] in
  let s' := run cfg 0 [Submit 0 None 0 0; Submit 0 (Some 7%nat) 0 0; AbortBegin 7;
                       ClearQueue false; AbortNext 7] in
  (reachable cfg fired ∧ aborted (signal_of fired 7%nat) = true
   ∧ queue fired = [{| opId := 1; priority := 0; signal := Some 7%nat |}])
  ∧ (reachable cfg s ∧ queue s = []
     ∧ promises s !! 1%nat = Some (Rejected QueueClearedError)
     ∧ promises s !! 1%nat ≠ Some (Rejected AbortError))
  ∧ (reachable cfg s' ∧ queue s' = [] ∧ promises s' !! 1%nat = None
     ∧ promises s' !! 1%nat ≠ Some (Rejected AbortError)).
Proof.
  intros cfg fired s s'. split; [|split].
  - split; [apply reachable_run; reflexivity|].
    split; [vm_compute; reflexivity|reflexivity].
  - split; [apply reachable_run; reflexivity|]. split; [reflexivity|].
    assert (promises s !! 1%nat = Some (Rejected QueueClearedError)) as H
      by (vm_compute; reflexivity).
    split; [exact H|]. rewrite H. discriminate.
  - split; [apply reachable_run; reflexivity|]. split; [reflexivity|].
    assert (promises s' !! 1%nat = None) as H by (vm_compute; reflexivity).
    split; [exact H|]. rewrite H. discriminate.
Qed.

(** * [limited] *)

Lemma insertByPriority_last op q :
  Forall (λ x, priority op ≤ priority x) q → insertByPriority op q = q ++ [op].
Proof.
  induction 1 as [|x q Hx _ IH]; [done|]. simpl.
  destruct (priority x <? priority op) eqn:E; [lia|]. by rewrite IH.
Qed.

Lemma StronglySorted_snoc {A} (R : relation A) (l : list A) (x : A) :
  StronglySorted R l → Forall (λ y, R y x) l → StronglySorted R (l ++ [x]).
Proof.
  induction 1 as [|y l Hs IH Hy]; intros Hx; simpl; [repeat constructor|].
  apply Forall_cons in Hx as [Hyx Hx]. constructor; [by apply IH|].
  apply Forall_app. split; [done|]. by apply Forall_singleton.
Qed.

Lemma call_order_agree s s' :
  queue s' = queue s → inflight s' = inflight s → call_order s → call_order s'.
Proof. unfold call_order. by intros -> ->. Qed.

Lemma call_order_pop op rest s s' :
  queue s = op :: rest → queue s' = rest →
  (∀ a, a ∈ inflight s' → a ∈ inflight s ∨ a = op) →
  call_order s → call_order s'.
Proof.
  intros Hq Hq' Hin (Hp & Hs & Hlt). rewrite Hq in Hp, Hs, Hlt. unfold call_order.
  rewrite Hq'. apply Forall_cons in Hp as [_ Hp]. apply StronglySorted_inv in Hs as [Hs Hop].
  split; [done|]. split; [done|]. intros a b Ha Hb.
  destruct (Hin a Ha) as [Ha'| ->].
  - apply Hlt; [done|by right].
  - rewrite Forall_forall in Hop. by apply Hop.
Qed.

Lemma admission_call_order cfg s : call_order s → call_order (admission cfg (queue s) s).
Proof.
  apply (admission_preserves cfg call_order).
  - intros s1 op rest Hq _ Hc _. apply (call_order_pop op rest s1); [done| | |done].
    + frame. by rewrite shift_queue.
    + intros a. frame. destruct (shift_fields op rest s1) as (_ & _ & _ & _ & _ & _ & -> & _).
      by left.
  - intros s1 op rest Hq _ Hc _.
    destruct (dispatch_fields cfg op (shift op rest s1)) as (Hdq & _ & _ & _ & _ & _ & _ & Hdf & _).
    apply (call_order_pop op rest s1); [done| | |done].
    + by rewrite Hdq, shift_queue.
    + intros a. rewrite Hdf.
      destruct (shift_fields op rest s1) as (_ & _ & _ & _ & _ & _ & -> & _).
      intros [?| ->%list_elem_of_singleton]%elem_of_app; [by left|by right].
Qed.

Lemma processQueue_call_order cfg now later s :
  call_order s → call_order (processQueue cfg now later s).
Proof.
  intros Hc. destruct (processQueue_view cfg now later s) as (Hq & _ & _ & _ & _ & _ & Hf & _).
  eapply call_order_agree; [exact Hq|exact Hf|]. apply admission_call_order.
  eapply call_order_agree; [..|exact Hc]; by frame.
Qed.

Lemma limited_step_step cfg s e : limited_step cfg s e = step cfg s (limited_event e).
Proof. by destruct e. Qed.

Lemma limited_step_call_order cfg s e :
  wf s → call_order s → call_order (limited_step cfg s e).
Proof.
  intros Hwf Hc. destruct e as [now later|id res now later|fired now later]; simpl.
  - unfold limited_call. rewrite enqueue_unfold. simpl.
    case_match; [eapply call_order_agree; [..|exact Hc]; unfold newPromise; by frame|].
    apply processQueue_call_order.
    destruct (accepted_fields 0 None s) as (Hq & _ & _ & _ & _ & _ & _ & Hf & _).
    destruct Hc as (Hp & Hs & Hlt). unfold call_order. rewrite Hq, Hf.
    rewrite insertByPriority_last by (eapply Forall_impl; [exact Hp|]; simpl; intros; lia).
    pose proof (wf_fresh _ Hwf) as Hfresh. rewrite Forall_app in Hfresh.
    destruct Hfresh as [Hfq Hff]. rewrite Forall_forall in Hfq, Hff.
    split; [|split].
    + apply Forall_app. split; [done|]. by apply Forall_singleton.
    + apply StronglySorted_snoc; [done|]. by apply Forall_forall.
    + intros a b Ha [Hb| ->%list_elem_of_singleton]%elem_of_app; [by apply Hlt|].
      simpl. by apply Hff.
  - unfold complete.
    destruct (list_find (λ o, opId o = id) (inflight s)) as [[i op]|] eqn:E; [|done].
    eapply call_order_agree; [| |apply (processQueue_call_order cfg now later)]; [by frame..|].
    destruct Hc as (Hp & Hs & Hlt). unfold call_order. frame.
    split; [done|]. split; [done|]. intros a b Ha Hb. apply Hlt; [|done].
    eapply sublist_subseteq; [apply sublist_delete|exact Ha].
  - unfold timerFire. case_match; [|done]. apply processQueue_call_order.
    eapply call_order_agree; [..|exact Hc]; by frame.
Qed.

Lemma limited_steps_call_order cfg s evs :
  wf s → call_order s →
  wf (foldl (limited_step cfg) s evs) ∧ call_order (foldl (limited_step cfg) s evs).
Proof.
  intros Hwf Hc. induction evs as [|e evs [IHw IHc]] using rev_ind; [done|].
  rewrite foldl_app. simpl. split; [|by apply limited_step_call_order].
  rewrite limited_step_step. by apply step_wf.
Qed.

(** X14.  The function returned by [limited] runs its calls in call order:
    after any calls, completions and refill timeouts, the calls that wait
    are queued in the order in which they were made, and every call that
    is running was made before every call that waits. *)
Theorem limited_calls_run_in_call_order (cfg : LimitOptions) (now : Z)
    (evs : list LimitedEvent) (s : Limiter) :
  limited_run cfg now evs = Some s →
  StronglySorted (λ a b, (opId a < opId b)%nat) (queue s)
  ∧ ∀ a b, a ∈ inflight s → b ∈ queue s → (opId a < opId b)%nat.
Proof.
  unfold limited_run, limited, createLimit. case_match; [|done]. simpl. intros [= <-].
  destruct (limited_steps_call_order cfg (init cfg now) evs) as (_ & _ & Hs & Hlt);
    [apply init_wf| |done].
  split; [constructor|]. split; [constructor|]. by intros a b ?%elem_of_nil.
Qed.

Lemma limited_calls_run_in_call_order_witness :
  let cfg := {| concurrency := Fin 1; rate := Some 2; interval := 100; maxQueueSize := Fin 3 |} in
  let evs := [LCall 0 0; LCall 1 1; LCall 2 2; LCall 3 3; LCall 4 4; LComplete 0 (Fulfilled 1) 5 5;
              LCall 6 6; LComplete 1 (Fulfilled 1) 120 120] in
  let s := foldl (limited_step cfg) (init cfg 0) evs in
  limited_run cfg 0 evs = Some s
  ∧ (opId <$> queue s) = [3; 5]%nat ∧ (opId <$> inflight s) = [2%nat]
  ∧ StronglySorted (λ a b, (opId a < opId b)%nat) (queue s).
Proof.
  intros cfg evs s. do 3 (split; [reflexivity|]).
  exact (proj1 (limited_calls_run_in_call_order cfg 0 evs s eq_refl)).
Defined.

(** * [createKeyedLimit] *)

(** ** A limiter created among signals that are aborted already *)

Lemma fire_queue_nil ls s : queue s = [] → fire ls s = s.
Proof.
  intros Hq. induction ls as [|id ls IH]; [done|]. rewrite fire_cons.
  rewrite onAbort_absent; [done|]. rewrite Hq. apply not_elem_of_nil.
Qed.

Lemma abort_queue_empty g s :
  queue s = [] →
  queue (abort g s) = [] ∧ promises (abort g s) = promises s
  ∧ ∀ g', aborted (signal_of (abort g s) g')
          = aborted (signal_of s g') || bool_decide (g' = g).
Proof.
  intros Hq. rewrite abort_unfold. destruct (aborted (signal_of s g)) eqn:Hab.
  - do 2 (split; [done|]). intros g'. case_bool_decide as Hg; [|by rewrite orb_false_r].
    subst g'. by rewrite Hab.
  - rewrite fire_queue_nil by done. do 2 (split; [done|]). intros g'.
    unfold signal_of. cbn [signals set_signals]. case_bool_decide as Hg.
    + subst g'. rewrite lookup_insert_eq. simpl. by rewrite orb_true_r.
    + rewrite lookup_insert_ne by done. by rewrite orb_false_r.
Qed.

Lemma abort_all_view s gs :
  queue s = [] →
  let s' := foldl (λ s' g, abort g s') s gs in
  queue s' = [] ∧ activeCount s' = activeCount s ∧ tokens s' = tokens s
  ∧ lastRefill s' = lastRefill s ∧ inflight s' = inflight s
  ∧ promises s' = promises s ∧ nextOp s' = nextOp s
  ∧ ∀ g, aborted (signal_of s' g) = aborted (signal_of s g) || bool_decide (g ∈ gs).
Proof.
  cbv zeta. revert s. induction gs as [|g gs IH]; intros s Hq.
  - do 7 (split; [done|]). intros g. rewrite bool_decide_eq_false_2; [by rewrite orb_false_r|].
    apply not_elem_of_nil.
  - simpl. destruct (abort_queue_empty g s Hq) as (Hq' & Hp' & Hab').
    destruct (abort_fields g s) as (Ha & _ & Ht & Hl & _ & Hf & _ & Hn & _).
    destruct (IH (abort g s) Hq') as (-> & -> & -> & -> & -> & -> & -> & Hab).
    rewrite Ha, Ht, Hl, Hf, Hp', Hn. do 7 (split; [done|]). intros g'.
    rewrite Hab, Hab', <- orb_assoc. f_equal.
    destruct (decide (g' = g)) as [->|Hne].
    + rewrite bool_decide_eq_true_2 by done. symmetry. apply bool_decide_eq_true_2. by left.
    + rewrite (bool_decide_eq_false_2 (g' = g)) by done. simpl.
      apply bool_decide_ext. rewrite elem_of_cons. tauto.
Qed.

Lemma abort_all_reachable cfg s gs :
  reachable cfg s → reachable cfg (foldl (λ s' g, abort g s') s gs).
Proof.
  revert s. induction gs as [|g gs IH]; intros s Hr; [done|]. simpl. apply IH.
  exact (reach_step cfg s (Abort g) Hr).
Qed.

Lemma newLimiter_Some cfg now gs :
  valid_options cfg = true →
  newLimiter cfg now gs = Some (foldl (λ s' g, abort g s') (init cfg now) gs).
Proof. intros Hv. unfold newLimiter, createLimit. by rewrite Hv. Qed.

Lemma newLimiter_None cfg now gs : valid_options cfg = false → newLimiter cfg now gs = None.
Proof. intros Hv. unfold newLimiter, createLimit. by rewrite Hv. Qed.

Lemma newLimiter_reachable cfg now gs l : newLimiter cfg now gs = Some l → reachable cfg l.
Proof.
  destruct (valid_options cfg) eqn:Hv; [|by rewrite newLimiter_None].
  rewrite newLimiter_Some by done. intros [= <-]. apply abort_all_reachable.
  apply (reach_init cfg now). unfold createLimit. by rewrite Hv.
Qed.

(** The first call on a limiter just created is dispatched within the call,
    whatever the clock shows when it is created and when the call reads
    it. *)
Lemma enqueue_new_limiter cfg created now later gs prio sg :
  valid_options cfg = true → (∀ g, sg = Some g → g ∉ gs) →
  let l0 := foldl (λ s' g, abort g s') (init cfg created) gs in
  let l := enqueue cfg prio sg now later l0 in
  nextOp l0 = 0%nat ∧ queue l = []
  ∧ inflight l = [{| opId := 0; priority := prio; signal := sg |}]
  ∧ activeCount l = 1 ∧ promises l = ∅.
Proof.
  intros Hv Hsg. cbv zeta. set (l0 := foldl _ (init cfg created) gs).
  destruct (abort_all_view (init cfg created) gs eq_refl)
    as (Hq & Ha & Ht & Hl & Hf & Hp & Hn & Hab). fold l0 in Hq, Ha, Ht, Hl, Hf, Hp, Hn, Hab.
  simpl in Ha, Ht, Hl, Hf, Hp, Hn.
  assert (signal_aborted sg l0 = false) as Hsa.
  { destruct sg as [g|]; [|done]. simpl. rewrite Hab. unfold signal_of. simpl.
    rewrite lookup_empty. simpl. apply bool_decide_eq_false_2. by apply Hsg. }
  assert (has_capacity cfg (refillTokens cfg now l0) = true) as Hcap.
  { pose proof Hv as (Hi & Hr0 & Hc0 & _)%valid_options_inv.
    assert (num_ltb (Fin 0) (concurrency cfg) = true) as Hc.
    { destruct (concurrency cfg) as [c|] eqn:Ec; [|done]. specialize (Hc0 c eq_refl).
      simpl. lia. }
    unfold has_capacity, refillTokens. rewrite Hl, Ht.
    destruct (rate cfg) as [r|] eqn:Er; [|by rewrite Ha, Ht, Hc].
    specialize (Hr0 r eq_refl).
    destruct (interval cfg <=? now - created) eqn:E.
    - cbn [activeCount tokens set_bucket]. rewrite Ha, Hc. simpl.
      assert (0 ≤ (now - created) / interval cfg) by (apply Z.div_pos; lia).
      apply Z.ltb_lt, Z.min_glb_lt; [lia|nia].
    - rewrite Ha, Ht, Hc. simpl. lia. }
  destruct (enqueue_on_empty_queue cfg l0 prio sg now later Hv Hq Hsa Hcap)
    as (Hq' & Hf' & Ha' & _ & Hp' & _).
  rewrite Hq', Hf', Ha', Hp', Hf, Ha, Hp, Hn. done.
Qed.

(** ** The limiters of the map *)

Lemma keyed_step_reachable cfg k e :
  (∀ key l, limiters k !! key = Some l → reachable cfg l) → Forall (reachable cfg) (evicted k) →
  (∀ key l, limiters (keyed_step cfg k e) !! key = Some l → reachable cfg l)
  ∧ Forall (reachable cfg) (evicted (keyed_step cfg k e)).
Proof.
  intros Hm He. destruct e as [key prio sg created now later|key now|key| |g|key e]; simpl.
  - unfold keyedLimit, getOrCreate. destruct (limiters k !! key) as [l0|] eqn:E; simpl.
    + split; [|done]. intros key' l. destruct (decide (key' = key)) as [->|Hne].
      * rewrite lookup_insert_eq. intros [= <-].
        exact (reach_step cfg l0 (Submit prio sg now later) (Hm _ _ E)).
      * rewrite lookup_insert_ne by done. apply Hm.
    + destruct (newLimiter cfg created (abortedSignals k)) as [l0|] eqn:En; simpl; [|done].
      split; [|done]. intros key' l. destruct (decide (key' = key)) as [->|Hne].
      * rewrite lookup_insert_eq. intros [= <-].
        exact (reach_step cfg l0 (Submit prio sg now later) (newLimiter_reachable _ _ _ _ En)).
      * rewrite !lookup_insert_ne by done. apply Hm.
  - unfold getOrCreate. destruct (limiters k !! key) as [l0|] eqn:E; simpl; [done|].
    destruct (newLimiter cfg now (abortedSignals k)) as [l0|] eqn:En; simpl; [|done].
    split; [|done]. intros key' l. destruct (decide (key' = key)) as [->|Hne].
    + rewrite lookup_insert_eq. intros [= <-]. by eapply newLimiter_reachable.
    + rewrite lookup_insert_ne by done. apply Hm.
  - unfold keyedDelete. destruct (limiters k !! key) as [l0|] eqn:E; simpl; [|done]. split.
    + intros key' l Hl. apply lookup_delete_Some in Hl as [_ Hl]. by eapply Hm.
    + apply Forall_app. split; [done|]. apply Forall_singleton.
      exact (reach_step cfg l0 (ClearQueue true) (Hm _ _ E)).
  - unfold keyedClear. cbn [limiters evicted]. split; [intros key l Hl; by apply lookup_empty_Some in Hl|].
    apply Forall_app. split; [done|]. apply Forall_fmap, Forall_fmap, Forall_forall.
    intros [key l] Hin%elem_of_map_to_list. simpl.
    exact (reach_step cfg l (ClearQueue true) (Hm _ _ Hin)).
  - split; [|done]. intros key l. rewrite lookup_fmap.
    destruct (limiters k !! key) as [l0|] eqn:E; simpl; [|done]. intros [= <-].
    exact (reach_step cfg l0 (Abort g) (Hm _ _ E)).
  - destruct (limiters k !! key) as [l0|] eqn:E; [|done].
    destruct (own_event e); [|done]. simpl. split; [|done].
    intros key' l. destruct (decide (key' = key)) as [->|Hne].
    + rewrite lookup_insert_eq. intros [= <-]. exact (reach_step cfg l0 e (Hm _ _ E)).
    + rewrite lookup_insert_ne by done. apply Hm.
Qed.

Lemma keyed_run_reachable cfg evs :
  (∀ key l, limiters (keyed_run cfg evs) !! key = Some l → reachable cfg l)
  ∧ Forall (reachable cfg) (evicted (keyed_run cfg evs)).
Proof.
  unfold keyed_run. induction evs as [|e evs [IHm IHe]] using rev_ind.
  - split; [|constructor]. intros key l. cbn [foldl]. unfold createKeyedLimit.
    cbn [limiters]. intros Hl. by apply lookup_empty_Some in Hl.
  - rewrite foldl_app. simpl. by apply keyed_step_reachable.
Qed.

(** X15.  Whatever is done with a keyed limiter, the limiter it holds for a
    key is a limiter as [createLimit] makes them, in a state it can reach,
    and so are the limiters that [delete] and [clear] have taken out of the
    map; in particular the number of operations a key's limiter has in
    flight never exceeds [concurrency]. *)
Theorem keyed_limiters_are_limiters (cfg : LimitOptions) (evs : list KeyedEvent) :
  let k := keyed_run cfg evs in
  (∀ key l, limiters k !! key = Some l →
     reachable cfg l ∧ activeCount l = Z.of_nat (length (inflight l))
     ∧ num_leb (Fin (activeCount l)) (concurrency cfg) = true)
  ∧ Forall (reachable cfg) (evicted k).
Proof.
  cbv zeta. destruct (keyed_run_reachable cfg evs) as [Hm He]. split; [|done].
  intros key l Hl. pose proof (Hm _ _ Hl) as Hr. split; [done|].
  split; [apply (wf_active _ (reachable_wf _ _ Hr))|apply (reachable_conc_ok _ _ Hr)].
Qed.

(** ** Options that [createLimit] refuses *)

Lemma keyed_step_invalid cfg k e :
  valid_options cfg = false → limiters k = ∅ → evicted k = [] →
  limiters (keyed_step cfg k e) = ∅ ∧ evicted (keyed_step cfg k e) = [].
Proof.
  intros Hv Hm He. destruct e as [key prio sg created now later|key now|key| |g|key e]; simpl.
  - unfold keyedLimit, getOrCreate. rewrite Hm, lookup_empty, newLimiter_None by done. done.
  - unfold getOrCreate. rewrite Hm, lookup_empty, newLimiter_None by done. done.
  - unfold keyedDelete. by rewrite Hm, lookup_empty.
  - unfold keyedClear. cbn [limiters evicted]. by rewrite Hm, He, map_to_list_empty.
  - by rewrite Hm, fmap_empty.
  - by rewrite Hm, lookup_empty.
Qed.

(** X16.  [createKeyedLimit] accepts options that [createLimit] refuses:
    they are looked at when a limiter is first needed.  With such options
    every call and every [get] throws the [TypeError] of [createLimit], for
    every key and however often, the map stays empty, and [delete] finds
    nothing. *)
Theorem keyed_options_checked_on_first_use (cfg : LimitOptions) (evs : list KeyedEvent) :
  valid_options cfg = false →
  let k := keyed_run cfg evs in
  keyedSize k = 0%nat ∧ evicted k = []
  ∧ ∀ key prio sg created now later,
      keyedLimit cfg key prio sg created now later k = None
      ∧ getOrCreate cfg key created k = None
      ∧ keyedDelete key k = (false, k).
Proof.
  intros Hv. cbv zeta.
  assert (limiters (keyed_run cfg evs) = ∅ ∧ evicted (keyed_run cfg evs) = []) as [Hm He].
  { unfold keyed_run. induction evs as [|e evs [IHm IHe]] using rev_ind; [done|].
    rewrite foldl_app. simpl. by apply keyed_step_invalid. }
  unfold keyedSize. rewrite Hm. split; [apply map_size_empty|]. split; [done|].
  intros key prio sg created now later. unfold keyedLimit, getOrCreate, keyedDelete.
  by rewrite Hm, lookup_empty, newLimiter_None.
Qed.

Lemma keyed_options_checked_on_first_use_witness :
  let cfg := {| concurrency := Fin 0; rate := None; interval := 1000; maxQueueSize := Inf |} in
  let k := keyed_run cfg [KCall "a" 0 None 0 0 0; KGet "b" 1; KAbort 3;
                          KCall "a" 2 (Some 3%nat) 5 5 5; KClear; KDelete "a"] in
  valid_options cfg = false ∧ keyedSize k = 0%nat
  ∧ keyedLimit cfg "a" 0 None 9 9 9 k = None.
Proof.
  intros cfg k.
  destruct (keyed_options_checked_on_first_use cfg
              [KCall "a" 0 None 0 0 0; KGet "b" 1; KAbort 3;
               KCall "a" 2 (Some 3%nat) 5 5 5; KClear; KDelete "a"] eq_refl)
    as (Hs & _ & Hc).
  split; [reflexivity|]. split; [exact Hs|]. exact (proj1 (Hc "a" 0 None 9 9 9)).
Defined.

(** ** [delete] and [clear] *)

(** X17.  [delete] of a key that has a limiter returns [true], takes the
    key out of the map, which loses one entry and keeps the others, and
    clears the queue of the limiter as [clearQueue(true)] does: its queue is
    empty and its refill timer cancelled, the operations that were queued
    are rejected with [QueueClearedError], and the operations it had
    dispatched stay in flight, their promises pending. *)
Theorem delete_clears_the_limiter (cfg : LimitOptions) (evs : list KeyedEvent)
    (key : string) (l : Limiter) :
  let k := keyed_run cfg evs in
  limiters k !! key = Some l →
  let k' := (keyedDelete key k).2 in
  (keyedDelete key k).1 = true
  ∧ limiters k' !! key = None
  ∧ (∀ key', key' ≠ key → limiters k' !! key' = limiters k !! key')
  ∧ S (keyedSize k') = keyedSize k
  ∧ ∃ l', evicted k' = evicted k ++ [l']
      ∧ queue l' = [] ∧ refillTimeoutId l' = None
      ∧ inflight l' = inflight l ∧ activeCount l' = activeCount l
      ∧ (∀ op, op ∈ queue l → promises l' !! opId op = Some (Rejected QueueClearedError))
      ∧ (∀ op, op ∈ inflight l → promises l' !! opId op = None).
Proof.
  cbv zeta. intros Hl. destruct (keyed_run_reachable cfg evs) as [Hm _].
  pose proof (reachable_wf _ _ (Hm _ _ Hl)) as Hwf.
  unfold keyedDelete, keyedSize. rewrite Hl. cbn [fst snd limiters evicted].
  split; [done|]. split; [apply lookup_delete_eq|].
  split; [by intros key' Hne; apply lookup_delete_ne|].
  split.
  { rewrite <- (insert_delete_id (limiters (keyed_run cfg evs)) key l Hl) at 2.
    symmetry. apply map_size_insert_None, lookup_delete_eq. }
  exists (clearQueue true l). split; [done|]. by apply clearQueue_evicts.
Qed.

Lemma delete_clears_the_limiter_witness :
  let cfg := {| concurrency := Fin 1; rate := None; interval := 1000; maxQueueSize := Inf |} in
  let evs := [KCall "a" 0 None 0 0 0; KCall "a" 0 None 1 1 1; KCall "b" 0 None 2 2 2] in
  let k := keyed_run cfg evs in
  let l := run cfg 0 [Submit 0 None 0 0; Submit 0 None 1 1] in
  limiters k !! "a" = Some l ∧ length (queue l) = 1%nat ∧ keyedSize k = 2%nat
  ∧ (keyedDelete "a" k).1 = true ∧ keyedSize (keyedDelete "a" k).2 = 1%nat.
Proof.
  intros cfg evs k l.
  assert (Hl : limiters k !! "a" = Some l) by (vm_compute; reflexivity).
  split; [exact Hl|]. do 2 (split; [reflexivity|]).
  split; [exact (proj1 (delete_clears_the_limiter cfg evs "a" l Hl))|]. reflexivity.
Defined.

(** X18.  [clear] leaves the map empty, and clears the queue of every
    limiter the map held as [clearQueue(true)] does: the limiter is left
    with an empty queue and no refill timer, the operations that were queued
    are rejected with [QueueClearedError], and the operations it had
    dispatched stay in flight. *)
Theorem clear_clears_every_limiter (cfg : LimitOptions) (evs : list KeyedEvent)
    (key : string) (l : Limiter) :
  let k := keyed_run cfg evs in
  limiters k !! key = Some l →
  let k' := keyedClear k in
  keyedSize k' = 0%nat
  ∧ ∃ l', l' ∈ evicted k'
      ∧ queue l' = [] ∧ refillTimeoutId l' = None
      ∧ inflight l' = inflight l ∧ activeCount l' = activeCount l
      ∧ (∀ op, op ∈ queue l → promises l' !! opId op = Some (Rejected QueueClearedError))
      ∧ (∀ op, op ∈ inflight l → promises l' !! opId op = None).
Proof.
  cbv zeta. intros Hl. destruct (keyed_run_reachable cfg evs) as [Hm _].
  pose proof (reachable_wf _ _ (Hm _ _ Hl)) as Hwf.
  unfold keyedClear, keyedSize. cbn [limiters evicted]. split; [apply map_size_empty|].
  exists (clearQueue true l). split; [|by apply clearQueue_evicts].
  apply elem_of_app. right. apply list_elem_of_fmap. exists l. split; [done|].
  apply list_elem_of_fmap. exists (key, l). split; [done|]. by apply elem_of_map_to_list.
Qed.

Lemma clear_clears_every_limiter_witness :
  let cfg := {| concurrency := Fin 1; rate := None; interval := 1000; maxQueueSize := Inf |} in
  let evs := [KCall "a" 0 None 0 0 0; KCall "a" 0 None 1 1 1; KCall "b" 0 None 2 2 2] in
  let k := keyed_run cfg evs in
  let l := run cfg 0 [Submit 0 None 0 0; Submit 0 None 1 1] in
  limiters k !! "a" = Some l ∧ keyedSize k = 2%nat ∧ keyedSize (keyedClear k) = 0%nat.
Proof.
  intros cfg evs k l.
  assert (Hl : limiters k !! "a" = Some l) by (vm_compute; reflexivity).
  split; [exact Hl|]. split; [reflexivity|].
  exact (proj1 (clear_clears_every_limiter cfg evs "a" l Hl)).
Defined.

(** ** A key that has no limiter *)

Lemma keyedLimit_new_key cfg k key prio sg created now later :
  valid_options cfg = true → limiters k !! key = None →
  let l0 := foldl (λ s' g, abort g s') (init cfg created) (abortedSignals k) in
  keyedLimit cfg key prio sg created now later k
  = Some (0%nat, set_limiters (<[key := enqueue cfg prio sg now later l0]> (limiters k)) k).
Proof.
  intros Hv Hl. cbv zeta. unfold keyedLimit, getOrCreate. rewrite Hl, newLimiter_Some by done.
  simpl. destruct (abort_all_view (init cfg created) (abortedSignals k) eq_refl)
    as (_ & _ & _ & _ & _ & _ & -> & _).
  unfold set_limiters. simpl. by rewrite insert_insert_eq.
Qed.

(** X19.  The first call on a key, or the first after the key was deleted,
    is served by a limiter of its own, created by the call: it is dispatched
    within the call, whatever the limiters of the other keys have queued or
    in flight, unless its signal is aborted already.  The map gains one
    entry and the limiters of the other keys are as they were. *)
Theorem first_call_on_a_key_runs_at_once (cfg : LimitOptions) (k : KeyedLimiter)
    (key : string) (prio : Z) (sg : option nat) (created now later : Z) :
  valid_options cfg = true → limiters k !! key = None →
  (∀ g, sg = Some g → g ∉ abortedSignals k) →
  ∃ k' l,
    keyedLimit cfg key prio sg created now later k = Some (0%nat, k')
    ∧ limiters k' !! key = Some l
    ∧ queue l = [] ∧ inflight l = [{| opId := 0; priority := prio; signal := sg |}]
    ∧ activeCount l = 1 ∧ promises l = ∅
    ∧ (∀ key', key' ≠ key → limiters k' !! key' = limiters k !! key')
    ∧ keyedSize k' = S (keyedSize k) ∧ evicted k' = evicted k.
Proof.
  intros Hv Hl Hsg. eexists _, _. split; [by apply keyedLimit_new_key|].
  cbn [limiters set_limiters evicted]. split; [apply lookup_insert_eq|].
  destruct (enqueue_new_limiter cfg created now later (abortedSignals k) prio sg Hv Hsg)
    as (_ & Hq & Hf & Ha & Hp).
  do 4 (split; [done|]). split; [by intros key' Hne; apply lookup_insert_ne|].
  split; [|done]. unfold keyedSize. cbn [limiters]. by apply map_size_insert_None.
Qed.

Lemma first_call_on_a_key_runs_at_once_witness :
  let cfg := {| concurrency := Fin 1; rate := Some 1; interval := 1000; maxQueueSize := Fin 1 |} in
  let k := keyed_run cfg [KCall "a" 0 None 0 0 0; KCall "a" 0 None 1 1 1; KAbort 4] in
  valid_options cfg = true ∧ limiters k !! "b" = None
  ∧ (queue <$> limiters k !! "a") = Some [{| opId := 1; priority := 0; signal := None |}]
  ∧ ∃ k' l,
      keyedLimit cfg "b" 2 (Some 5%nat) 3 3 3 k = Some (0%nat, k')
      ∧ limiters k' !! "b" = Some l
      ∧ queue l = [] ∧ inflight l = [{| opId := 0; priority := 2; signal := Some 5%nat |}]
      ∧ activeCount l = 1 ∧ promises l = ∅
      ∧ (∀ key', key' ≠ "b" → limiters k' !! key' = limiters k !! key')
      ∧ keyedSize k' = S (keyedSize k) ∧ evicted k' = evicted k.
Proof.
  intros cfg k. split; [reflexivity|]. split; [vm_compute; reflexivity|].
  split; [vm_compute; reflexivity|].
  apply (first_call_on_a_key_runs_at_once cfg k "b" 2 (Some 5%nat) 3 3 3);
    [reflexivity|vm_compute; reflexivity|].
  intros g [= <-]. vm_compute. intros H. by apply list_elem_of_singleton in H.
Defined.

(** X20.  [delete] does not wait for the operations in flight: the next
    call on the key is served by a new limiter and dispatched within the
    call, while the operations the deleted limiter had dispatched are still
    running.  A key can so have more than [concurrency] operations in
    flight. *)
Theorem delete_resets_the_key (cfg : LimitOptions) (evs : list KeyedEvent)
    (key : string) (l : Limiter) (prio : Z) (created now later : Z) :
  let k := keyed_run cfg evs in
  limiters k !! key = Some l →
  ∃ k2 l2,
    keyedLimit cfg key prio None created now later (keyedDelete key k).2 = Some (0%nat, k2)
    ∧ limiters k2 !! key = Some l2
    ∧ queue l2 = [] ∧ inflight l2 = [{| opId := 0; priority := prio; signal := None |}]
    ∧ activeCount l2 = 1
    ∧ last (evicted k2) = Some (clearQueue true l)
    ∧ inflight (clearQueue true l) = inflight l
    ∧ activeCount (clearQueue true l) = activeCount l.
Proof.
  cbv zeta. intros Hl. destruct (keyed_run_reachable cfg evs) as [Hm _].
  pose proof (reachable_valid _ _ (Hm _ _ Hl)) as Hv.
  unfold keyedDelete. rewrite Hl. cbn [snd].
  eexists _, _. split; [apply keyedLimit_new_key; [done|apply lookup_delete_eq]|].
  cbn [limiters set_limiters evicted abortedSignals]. split; [apply lookup_insert_eq|].
  destruct (enqueue_new_limiter cfg created now later (abortedSignals (keyed_run cfg evs))
              prio None Hv) as (_ & Hq & Hf & Ha & _); [done|].
  do 3 (split; [done|]). split; [apply last_snoc|].
  destruct (clearQueue_fields true l) as (_ & Ha' & _ & _ & _ & Hf' & _). done.
Qed.

Lemma delete_resets_the_key_witness :
  let cfg := {| concurrency := Fin 1; rate := None; interval := 1000; maxQueueSize := Inf |} in
  let evs := [KCall "a" 0 None 0 0 0; KCall "a" 0 None 1 1 1] in
  let k := keyed_run cfg evs in
  let l := run cfg 0 [Submit 0 None 0 0; Submit 0 None 1 1] in
  limiters k !! "a" = Some l ∧ activeCount l = 1 ∧ concurrency cfg = Fin 1
  ∧ ∃ k2 l2,
      keyedLimit cfg "a" 0 None 2 2 2 (keyedDelete "a" k).2 = Some (0%nat, k2)
      ∧ limiters k2 !! "a" = Some l2
      ∧ queue l2 = [] ∧ inflight l2 = [{| opId := 0; priority := 0; signal := None |}]
      ∧ activeCount l2 = 1
      ∧ last (evicted k2) = Some (clearQueue true l)
      ∧ inflight (clearQueue true l) = inflight l
      ∧ activeCount (clearQueue true l) = activeCount l.
Proof.
  intros cfg evs k l.
  assert (Hl : limiters k !! "a" = Some l) by (vm_compute; reflexivity).
  split; [exact Hl|]. do 2 (split; [reflexivity|]).
  exact (delete_resets_the_key cfg evs "a" l 0 2 2 2 Hl).
Defined.

(** ** One key at a time *)

(** X21.  A call, a [get] or a [delete] on a key, and whatever happens to
    the limiter of that key, leaves the limiters of all the other keys as
    they were. *)
Theorem keys_do_not_interfere (cfg : LimitOptions) (k : KeyedLimiter) (e : KeyedEvent)
    (key key' : string) :
  event_key e = Some key → key' ≠ key →
  limiters (keyed_step cfg k e) !! key' = limiters k !! key'.
Proof.
  intros He Hne.
  destruct e as [key0 prio sg created now later|key0 now|key0| |g|key0 e]; simpl in He;
    try done; injection He as ->; simpl.
  - unfold keyedLimit, getOrCreate. destruct (limiters k !! key) as [l0|] eqn:E; simpl.
    + by rewrite lookup_insert_ne.
    + destruct (newLimiter cfg created (abortedSignals k)); simpl; [|done].
      by rewrite !lookup_insert_ne.
  - unfold getOrCreate. destruct (limiters k !! key) as [l0|] eqn:E; simpl; [done|].
    destruct (newLimiter cfg now (abortedSignals k)); simpl; [|done].
    by rewrite lookup_insert_ne.
  - unfold keyedDelete. destruct (limiters k !! key) as [l0|] eqn:E; simpl; [|done].
    by rewrite lookup_delete_ne.
  - destruct (limiters k !! key) as [l0|] eqn:E; [|done].
    destruct (own_event e); [|done]. simpl. by rewrite lookup_insert_ne.
Qed.

Lemma keys_do_not_interfere_witness :
  let cfg := {| concurrency := Fin 1; rate := None; interval := 1000; maxQueueSize := Inf |} in
  let k := keyed_run cfg [KCall "a" 0 None 0 0 0; KCall "b" 0 None 1 1 1] in
  limiters (keyed_step cfg k (KDelete "a")) !! "b" = limiters k !! "b".
Proof.
  intros cfg k. apply (keys_do_not_interfere cfg k (KDelete "a") "a" "b"); [reflexivity|].
  intros H. discriminate H.
Defined.
